(** * fanren-bili-emo-dashboard: the analytical computation layer

    A shallow embedding of the pure part of [FanrenDashboard.tsx]: the colour
    assigner, the interval and peak analytics, the episode/table store with
    its ingest reducer, and the distribution aggregator.

    Modelling conventions.
    - A JavaScript string is the list of its UTF-16 code units, which is what
      [charCodeAt], [includes], [endsWith] and the regular expressions of the
      source observe.
    - A JavaScript number is an IEEE 754 binary64 value ([Num]): a finite
      one is the rational it denotes ([Fin q]), beside the two infinities
      and [NaN].  Sums, differences and quotients are the exact rational
      result rounded to the nearest number, ties to even, with overflow to
      an infinity ([round64]); comparisons, [Math.max] and [Math.min] are
      exact.  A number cell [VNum q] of a parsed row is the number written
      [q] in the file, that is the number nearest to [q].  The negative zero
      is identified with zero: no operation of the modelled code tells them
      apart.  A comparator [a - b] over finite numbers is used through its
      sign only, which is the sign of the exact difference.  The two 32-bit
      integer operations of the hash ([^] and [Math.imul]) are written out
      on [Z] with their wrap-around; the HSL conversion is written on exact
      rationals, which gives the colours of the rounded computation for every
      hue and lightness that the colour assigner passes ([hslToHex_rounded]).
    - A plain object used as a map is an association list in insertion order
      ([Obj.t]); [Obj.ownKeys] gives the enumeration order of [Object.keys]
      and [Object.entries] (array-index keys first, ascending, then the other
      keys in insertion order) and [Obj.get] reads own properties.  A member
      inherited from [Object.prototype] ([Object_prototype_names]) is
      modelled where the source uses what it reads under a key taken from
      the data: in [colorForKey] and in the loop of [distCompareData] that
      files the ratios under their tags.  Elsewhere a read under such a key
      either goes through [safeNumber] or is followed by a read under the
      name of a table, and both treat an inherited member as they treat
      [undefined].
    - [Array.prototype.sort] is stable; it is modelled by a stable insertion
      sort driven by the source's comparator. *)

From Stdlib Require Import String Ascii.
From Stdlib Require Import ZArith QArith Qround Qabs Qminmax Qpower Lqa.
From Stdlib Require Import List Bool Lia Permutation Sorted.
Import ListNotations.

Set Implicit Arguments.

(* ================================================================== *)
(** ** JavaScript strings *)

Definition jsstring := list Z.

(** An ASCII literal of the source, as code units. *)
Definition js (s : string) : jsstring :=
  map (fun a => Z.of_N (N_of_ascii a)) (list_ascii_of_string s).

Fixpoint jseqb (a b : jsstring) : bool :=
  match a, b with
  | [], [] => true
  | x :: a', y :: b' => (x =? y)%Z && jseqb a' b'
  | _, _ => false
  end.

(** [s.startsWith(p)] *)
Fixpoint startsWith (p s : jsstring) : bool :=
  match p, s with
  | [], _ => true
  | x :: p', y :: s' => (x =? y)%Z && startsWith p' s'
  | _ :: _, [] => false
  end.

(** [s.includes(p)] *)
Fixpoint includes (p s : jsstring) : bool :=
  startsWith p s ||
  match s with
  | [] => false
  | _ :: s' => includes p s'
  end.

(** [s.endsWith(p)] *)
Definition endsWith (p s : jsstring) : bool :=
  startsWith (rev p) (rev s).

Definition isUpperAscii (c : Z) : bool := ((65 <=? c) && (c <=? 90))%Z.

(** [s.toLowerCase()].  The ASCII letters are mapped exactly.  Outside ASCII
    only the two code points whose lower case contains an ASCII letter are
    mapped (U+212A KELVIN SIGN and U+0130): every use of the result in the
    source compares it with ASCII patterns only. *)
Definition lowerUnit (c : Z) : jsstring :=
  if isUpperAscii c then [(c + 32)%Z]
  else if (c =? 8490)%Z then [107%Z]
  else if (c =? 304)%Z then [105%Z; 775%Z]
  else [c].

Definition toLowerCase (s : jsstring) : jsstring := flat_map lowerUnit s.

Definition isDigit (c : Z) : bool := ((48 <=? c) && (c <=? 57))%Z.

(** Value of a run of decimal digits. *)
Fixpoint digitsValue (acc : Z) (s : jsstring) : Z :=
  match s with
  | [] => acc
  | c :: r => digitsValue (10 * acc + (c - 48))%Z r
  end.

(** Longest prefix of decimal digits ([\d+] is greedy). *)
Fixpoint takeDigits (s : jsstring) : jsstring :=
  match s with
  | c :: r => if isDigit c then c :: takeDigits r else []
  | [] => []
  end.

(* ================================================================== *)
(** ** Stable sort with a JavaScript comparator *)

Section Sort.
Variable A : Type.
(** [cmp a b] is the comparator's result: negative or zero keeps [a]
    before [b], positive moves it after. *)
Variable cmp : A -> A -> Q.

Fixpoint insertSorted (x : A) (l : list A) : list A :=
  match l with
  | [] => [x]
  | y :: r => if Qle_bool (cmp x y) 0 then x :: l else y :: insertSorted x r
  end.

Definition sortBy (l : list A) : list A := fold_right insertSorted [] l.
End Sort.

(* ================================================================== *)
(** ** Plain objects used as maps *)

Module Obj.
Section Defs.
Variable A : Type.

Definition t := list (jsstring * A).

Definition empty : t := [].

(** [o[k]] for an own property; [None] when [o] has no own property [k]
    ([undefined], unless [k] names a member of [Object.prototype]). *)
Fixpoint get (k : jsstring) (o : t) : option A :=
  match o with
  | [] => None
  | (k', v) :: r => if jseqb k k' then Some v else get k r
  end.

(** [o[k] = v], and also [{ ...o, [k]: v }]: an existing key keeps its
    place, a new key is appended. *)
Fixpoint set (k : jsstring) (v : A) (o : t) : t :=
  match o with
  | [] => [(k, v)]
  | (k', v') :: r => if jseqb k k' then (k, v) :: r else (k', v') :: set k v r
  end.

(** A canonical array index: the decimal form, without leading zero, of
    an integer below 2^32 - 1. *)
Definition arrayIndex (s : jsstring) : option Z :=
  match s with
  | [] => None
  | c :: r =>
      if forallb isDigit s
         && (negb (c =? 48)%Z || match r with [] => true | _ => false end)
      then let v := digitsValue 0 s in
           if (v <? 4294967295)%Z then Some v else None
      else None
  end.

Definition isIndex (s : jsstring) : bool :=
  match arrayIndex s with Some _ => true | None => false end.

Definition indexOf (s : jsstring) : Z :=
  match arrayIndex s with Some v => v | None => 0%Z end.

(** Own property keys in enumeration order. *)
Definition ownKeys (o : t) : list jsstring :=
  let ks := map fst o in
  sortBy (fun a b => inject_Z (indexOf a - indexOf b)) (filter isIndex ks)
  ++ filter (fun s => negb (isIndex s)) ks.

(** [Object.entries(o)] *)
Definition entries (o : t) : list (jsstring * A) :=
  flat_map (fun k => match get k o with Some v => [(k, v)] | None => [] end)
           (ownKeys o).
End Defs.
Arguments empty {A}.
End Obj.

(** The names that every plain object inherits from [Object.prototype].
    Reading one of them on an object that has no own property of that name
    gives the inherited member: a function, or the prototype itself for
    [__proto__]. *)
Definition Object_prototype_names : list jsstring :=
  [ js "constructor"; js "__defineGetter__"; js "__defineSetter__";
    js "hasOwnProperty"; js "__lookupGetter__"; js "__lookupSetter__";
    js "isPrototypeOf"; js "propertyIsEnumerable"; js "toString";
    js "valueOf"; js "__proto__"; js "toLocaleString" ].

Definition inherited (k : jsstring) : bool :=
  existsb (jseqb k) Object_prototype_names.

(** A call returns a value or throws. *)
Inductive Outcome (A : Type) : Type :=
| Returned (a : A)
| Thrown.

Arguments Thrown {A}.

(* ================================================================== *)
(** ** Numbers *)

(** [2^e] *)
Definition two (e : Z) : Q := 2 ^ e.

(** The nearest integer, ties to even. *)
Definition roundHalfEven (q : Q) : Z :=
  let f := Qfloor q in
  match Qcompare (q - inject_Z f) (1 # 2) with
  | Lt => f
  | Eq => if Z.even f then f else (f + 1)%Z
  | Gt => (f + 1)%Z
  end.

(** The nearest multiple of [2^c], ties to even. *)
Definition roundGrid (c : Z) (x : Q) : Q :=
  inject_Z (roundHalfEven (x / two c)) * two c.

(** The multiples of [2^c]. *)
Definition onGrid (c : Z) (x : Q) : Prop := exists k, x == inject_Z k * two c.

(** The exponent [e] of the binade of a positive rational:
    [2^e <= x < 2^(e+1)]. *)
Definition ilog2 (x : Q) : Z :=
  let e0 := (Z.log2 (Qnum x) - Z.log2 (Zpos (Qden x)))%Z in
  if Qle_bool (two e0) x then e0 else (e0 - 1)%Z.

(** The exponent of the unit in the last place of a positive rational in
    binary64: 53 bits of precision, and [2^-1074] the least unit. *)
Definition ulpExp (x : Q) : Z := Z.max (ilog2 x - 52) (-1074).

Definition roundPos (x : Q) : Q := roundGrid (ulpExp x) x.

(** A number of the language. *)
Inductive Num : Type :=
| Fin (q : Q)
| PosInf
| NegInf
| NaN.

(** The number nearest to a rational, ties to even; a rational that rounds
    to [2^1024] or beyond in magnitude gives an infinity.  A finite result
    is in lowest terms. *)
Definition round64 (x : Q) : Num :=
  match Qcompare x 0 with
  | Eq => Fin 0
  | Gt => let r := roundPos x in
          if Qle_bool (two 1024) r then PosInf else Fin (Qred r)
  | Lt => let r := roundPos (- x) in
          if Qle_bool (two 1024) r then NegInf else Fin (Qred (- r))
  end.

(** The rationals that are the value of a finite number. *)
Definition representable (q : Q) : Prop := round64 q = Fin q.

(** [Number.isFinite(x) ? x : undefined] *)
Definition finite (x : Num) : option Q :=
  match x with
  | Fin q => Some q
  | _ => None
  end.

(** [-x] *)
Definition numOpp (x : Num) : Num :=
  match x with
  | Fin q => Fin (- q)
  | PosInf => NegInf
  | NegInf => PosInf
  | NaN => NaN
  end.

(** [a + b] *)
Definition numAdd (a b : Num) : Num :=
  match a, b with
  | NaN, _ | _, NaN => NaN
  | Fin x, Fin y => round64 (x + y)
  | PosInf, NegInf | NegInf, PosInf => NaN
  | PosInf, _ | _, PosInf => PosInf
  | NegInf, _ | _, NegInf => NegInf
  end.

(** [a - b] *)
Definition numSub (a b : Num) : Num := numAdd a (numOpp b).

(** [a / d] for a positive finite divisor [d]. *)
Definition numDivPos (a : Num) (d : Q) : Num :=
  match a with
  | Fin x => round64 (x / d)
  | _ => a
  end.

(** [Math.max(0, x)] *)
Definition numMax0 (x : Num) : Num :=
  match x with
  | Fin q => Fin (Qmax 0 q)
  | PosInf => PosInf
  | NegInf => Fin 0
  | NaN => NaN
  end.

(** [a <= b] *)
Definition numLeb (a b : Num) : bool :=
  match a, b with
  | NaN, _ | _, NaN => false
  | NegInf, _ => true
  | _, PosInf => true
  | Fin x, Fin y => Qle_bool x y
  | _, _ => false
  end.

(** The result of a comparator as the sort reads it: its sign, and zero for
    [NaN]. *)
Definition numSign (x : Num) : Q :=
  match x with
  | Fin q => q
  | PosInf => 1
  | NegInf => - (1)
  | NaN => 0
  end.

(** [arr.reduce((a, b) => a + b, 0)] on finite numbers. *)
Definition sumOf (arr : list Q) : Num :=
  fold_left (fun a b => numAdd a (Fin b)) arr (Fin 0).

(** A number other than [NaN]. *)
Definition comparable (x : Num) : Prop :=
  match x with
  | Fin q => representable q
  | NaN => False
  | _ => True
  end.

(** The order of the numbers other than [NaN]. *)
Definition numLe (a b : Num) : Prop :=
  match a, b with
  | NaN, _ | _, NaN => False
  | NegInf, _ => True
  | _, PosInf => True
  | Fin x, Fin y => x <= y
  | _, _ => False
  end.

(* ================================================================== *)
(** ** Cell values and coercions *)

(** What a cell can hold: the parser types cells best-effort into numbers,
    booleans and strings, and leaves empty cells [null].  [VNum q] is the
    number written [q]: the number nearest to [q], an infinity when [q] is
    beyond the range.  [VInf] and [VNaN] are the infinities and [NaN] that
    the code itself may store in a row it builds.  An absent column is
    [undefined], that is [None] at lookup. *)
Inductive Value : Type :=
| VNum (q : Q)
| VStr (s : jsstring)
| VBool (b : bool)
| VNull
| VInf (negative : bool)
| VNaN.

(** The cell that holds a number. *)
Definition numValue (x : Num) : Value :=
  match x with
  | Fin q => VNum q
  | PosInf => VInf false
  | NegInf => VInf true
  | NaN => VNaN
  end.

Definition Row := Obj.t Value.

(** The two coercions of the language that the analytics rely on but do not
    define: the rational that a string denotes when read by [Number(s)],
    [None] when it denotes none ([Number(s)] is [NaN], or an infinity
    written as such), and [String(n)] on a finite number.  [toNumber] rounds
    the rational to the nearest number. *)
Class Coercions : Type := {
  StringToNumber : jsstring -> option Q;
  NumberToString : Q -> jsstring
}.

Section Coerce.
Context {host : Coercions}.

(** [Number(x)], [None] when it is not finite. *)
Definition toNumber (x : option Value) : option Q :=
  match x with
  | Some (VNum q) => finite (round64 q)
  | Some (VStr s) =>
      match StringToNumber s with
      | Some q => finite (round64 q)
      | None => None
      end
  | Some (VBool b) => Some (if b then 1 else 0)
  | Some VNull => Some 0
  | Some (VInf _) | Some VNaN | None => None
  end.

Definition safeNumberOr (x : option Value) (fallback : Q) : Q :=
  match toNumber x with
  | Some n => n
  | None => fallback
  end.

(** [safeNumber(x)] with the default fallback. *)
Definition safeNumber (x : option Value) : Q := safeNumberOr x 0.

(** [String(v)] *)
Definition toStr (v : Value) : jsstring :=
  match v with
  | VNum q =>
      match round64 q with
      | Fin r => NumberToString r
      | PosInf => js "Infinity"
      | NegInf => js "-Infinity"
      | NaN => js "NaN"
      end
  | VStr s => s
  | VBool true => js "true"
  | VBool false => js "false"
  | VNull => js "null"
  | VInf false => js "Infinity"
  | VInf true => js "-Infinity"
  | VNaN => js "NaN"
  end.
End Coerce.

(** [a ?? b] *)
Definition coalesce (a b : option Value) : option Value :=
  match a with
  | None | Some VNull => b
  | _ => a
  end.

Declare Scope js_scope.
Infix "??" := coalesce (at level 61, left associativity) : js_scope.
Local Open Scope js_scope.

(* ================================================================== *)
(** ** Colours *)

Definition EMO_ORDER : list jsstring :=
  [js "touching"; js "laugh"; js "praise"; js "neg"; js "self_mock"; js "other"].

Definition EMO_COLOR_MAP : Obj.t jsstring :=
  [ (js "touching", js "#2563eb");
    (js "laugh", js "#16a34a");
    (js "praise", js "#ea580c");
    (js "neg", js "#dc2626");
    (js "self_mock", js "#7c3aed");
    (js "other", js "#0891b2");
    (js "pos", js "#0ea5e9");
    (js "neu", js "#64748b") ].

(** [Math.round]: the nearest integer, halves upwards. *)
Definition Math_round (x : Q) : Z := Qfloor (x + (1 # 2)).

(** [a % b] on numbers: the remainder has the sign of [a]. *)
Definition jsRem (a b : Q) : Q :=
  let d := a / b in
  let t := if Qle_bool 0 d then Qfloor d else Qceiling d in
  a - b * inject_Z t.

Definition hexDigit (d : Z) : Z := if (d <? 10)%Z then (48 + d)%Z else (87 + d)%Z.

Fixpoint hexDigits (fuel : nat) (n : Z) (acc : jsstring) : jsstring :=
  match fuel with
  | O => acc
  | S f =>
      let acc' := hexDigit (n mod 16) :: acc in
      if (n / 16 =? 0)%Z then acc' else hexDigits f (n / 16)%Z acc'
  end.

(** [n.toString(16)] on an integer; the fuel covers every digit of [n]. *)
Definition toString16 (n : Z) : jsstring :=
  let a := Z.abs n in
  let ds := hexDigits (S (Z.to_nat (Z.log2 a))) a [] in
  if (n <? 0)%Z then 45%Z :: ds else ds.

(** [s.padStart(2, "0")] *)
Definition padStart2 (s : jsstring) : jsstring :=
  match s with
  | [] => [48%Z; 48%Z]
  | [c] => [48%Z; c]
  | _ => s
  end.

Definition Qltb (a b : Q) : bool := negb (Qle_bool b a).

Definition hslToHex (h s l : Q) : jsstring :=
  let s := s / 100 in
  let l := l / 100 in
  let c := (1 - Qabs (2 * l - 1)) * s in
  let x := c * (1 - Qabs (jsRem (h / 60) 2 - 1)) in
  let m := l - c / 2 in
  let '(r, g, b) :=
    if Qle_bool 0 h && Qltb h 60 then (c, x, 0)
    else if Qle_bool 60 h && Qltb h 120 then (x, c, 0)
    else if Qle_bool 120 h && Qltb h 180 then (0, c, x)
    else if Qle_bool 180 h && Qltb h 240 then (0, x, c)
    else if Qle_bool 240 h && Qltb h 300 then (x, 0, c)
    else (c, 0, x) in
  let toHex := fun v : Q => padStart2 (toString16 (Math_round ((v + m) * 255))) in
  js "#" ++ toHex r ++ toHex g ++ toHex b.

(** [ToInt32] and [ToUint32] of an integer-valued number. *)
Definition toInt32 (z : Z) : Z := ((z + 2 ^ 31) mod 2 ^ 32 - 2 ^ 31)%Z.
Definition toUint32 (z : Z) : Z := (z mod 2 ^ 32)%Z.

(** [a ^ b]: both operands are taken to 32-bit signed integers. *)
Definition xor32 (a b : Z) : Z := Z.lxor (toInt32 a) (toInt32 b).

(** [Math.imul(a, b)] *)
Definition imul (a b : Z) : Z := toInt32 (a * b).

Definition fnv1aHash32 (str : jsstring) : Z :=
  let h := fold_left (fun h c => imul (xor32 h c) 16777619) str 2166136261%Z in
  toUint32 h.

Definition stableColorFromKey (key : jsstring) : jsstring :=
  let h := Z.rem (fnv1aHash32 key) 360 in
  let l := if (Z.rem (fnv1aHash32 (key ++ js "_l")) 2 =? 0)%Z then 45 else 58 in
  hslToHex (inject_Z h) 82 l.

Inductive ColorMode : Type := ModeEmo | ModeFunc.

(** What [colorForKey] returns: a colour, or the member of
    [Object.prototype] that the curated table inherits under the key. *)
Inductive ColorResult : Type :=
| Colour (c : jsstring)
| Member (name : jsstring).

(** [EMO_COLOR_MAP[key]] is truthy for a non-empty own entry and for an
    inherited member. *)
Definition colorForKey (key : jsstring) (mode : ColorMode) : ColorResult :=
  match mode with
  | ModeEmo =>
      match Obj.get key EMO_COLOR_MAP with
      | Some [] => Colour (js "#334155")
      | Some c => Colour c
      | None => if inherited key then Member key else Colour (js "#334155")
      end
  | ModeFunc => Colour (stableColorFromKey key)
  end.

(** *** The colour assigner as the specification words it *)

Module ColorSpec.

Definition offset_basis : Z := 2166136261.
Definition prime : Z := 16777619.

(** FNV-1a over a sequence of bytes:
    [hash = (hash XOR byte) * prime mod 2^32]. *)
Definition fnv1a (bytes : list Z) : Z :=
  fold_left (fun hash byte => ((Z.lxor hash byte) * prime) mod 2 ^ 32)%Z
            bytes offset_basis.

(** The UTF-8 bytes of one code point. *)
Definition utf8Code (cp : Z) : list Z :=
  (if cp <? 128 then [cp]
   else if cp <? 2048 then [192 + cp / 64; 128 + cp mod 64]
   else if cp <? 65536
        then [224 + cp / 4096; 128 + (cp / 64) mod 64; 128 + cp mod 64]
        else [240 + cp / 262144; 128 + (cp / 4096) mod 64;
              128 + (cp / 64) mod 64; 128 + cp mod 64])%Z.

(** A high surrogate followed by a low surrogate. *)
Definition isPair (hi lo : Z) : bool :=
  ((55296 <=? hi) && (hi <? 56320) && (56320 <=? lo) && (lo <? 57344))%Z.

(** The bytes of a string, as UTF-8.  Surrogate pairs are combined; a lone
    surrogate is encoded like any other three-byte unit. *)
Fixpoint utf8 (s : jsstring) : list Z :=
  match s with
  | [] => []
  | hi :: rest =>
      match rest with
      | lo :: rest' =>
          if isPair hi lo
          then utf8Code (65536 + (hi - 55296) * 1024 + (lo - 56320))%Z ++ utf8 rest'
          else utf8Code hi ++ utf8 rest
      | [] => utf8Code hi
      end
  end.

Definition hue (units : list Z) : Z := (fnv1a units mod 360)%Z.

Definition saturation : Q := 82 # 100.

Definition lightness (units : list Z) : Q :=
  if (fnv1a (units ++ js "_l") mod 2 =? 0)%Z then 45 # 100 else 58 # 100.

(** Standard HSL to RGB: chroma [C = (1 - |2L - 1|) S], second component
    [X = C (1 - |(H / 60) mod 2 - 1|)], match [m = L - C / 2], and the
    channel order chosen by the sextant [H / 60] of the hue.  The hue is an
    integer here, for which [1 - |(H / 60) mod 2 - 1|] is
    [(60 - |H mod 120 - 60|) / 60]. *)
Definition hsl_to_rgb (h : Z) (s l : Q) : Q * Q * Q :=
  let C := (1 - Qabs (2 * l - 1)) * s in
  let k := (60 - Z.abs (h mod 120 - 60))%Z in
  let X := C * (inject_Z k / 60) in
  let m := l - C / 2 in
  let '(r, g, b) :=
    match (h / 60)%Z with
    | 0%Z => (C, X, 0)
    | 1%Z => (X, C, 0)
    | 2%Z => (0, C, X)
    | 3%Z => (0, X, C)
    | 4%Z => (X, 0, C)
    | _ => (C, 0, X)
    end in
  (r + m, g + m, b + m).

Definition channel (v : Q) : jsstring :=
  padStart2 (toString16 (Math_round (v * 255))).

Definition hex (rgb : Q * Q * Q) : jsstring :=
  let '(r, g, b) := rgb in js "#" ++ channel r ++ channel g ++ channel b.

(** The colour of a key whose hashed sequence is [units]. *)
Definition color (units : list Z) : jsstring :=
  hex (hsl_to_rgb (hue units) saturation (lightness units)).

End ColorSpec.

(* ================================================================== *)
(** ** Interval and peak analytics *)

Record Candidate : Type := {
  cand_i : nat;
  cand_j : nat;
  cand_score : Num;
  cand_start : Q;
  cand_end : Q
}.

(** A returned interval [{ start, end, score }]. *)
Record Interval : Type := {
  iv_start : Q;
  iv_end : Q;
  iv_score : Num
}.

(** A returned peak [{ minute, value }]. *)
Record Peak : Type := {
  peak_minute : Q;
  peak_value : Q
}.

(** [ps = [0]; for (i < n) ps.push(ps[i] + values[i])] *)
Fixpoint prefixSums (acc : Num) (values : list Q) : list Num :=
  acc :: match values with
         | [] => []
         | v :: r => prefixSums (numAdd acc (Fin v)) r
         end.

(** [while (j + 1 < n && minutes[j + 1] <= endMinute) j++]; the loop body
    runs fewer than [n] times, which the fuel covers. *)
Fixpoint extendWindow (fuel : nat) (minutes : list Q) (n : nat) (endMinute : Num)
         (j : nat) : nat :=
  match fuel with
  | O => j
  | S f =>
      if (j + 1 <? n)%nat && numLeb (Fin (nth (j + 1) minutes 0)) endMinute
      then extendWindow f minutes n endMinute (j + 1)
      else j
  end.

(** [Math.max(a[0], b[0]) <= Math.min(a[1], b[1])] on index ranges. *)
Definition overlaps (a b : nat * nat) : bool :=
  (Nat.max (fst a) (fst b) <=? Nat.min (snd a) (snd b))%nat.

(** The greedy selection loop, with its [break] and [continue]. *)
Fixpoint pickLoop (kk : Q) (candidates : list Candidate)
         (picked : list Interval) (used : list (nat * nat)) : list Interval :=
  match candidates with
  | [] => picked
  | c :: rest =>
      if Qle_bool kk (inject_Z (Z.of_nat (length picked))) then picked
      else
        let range := (cand_i c, cand_j c) in
        if existsb (fun u => overlaps u range) used
        then pickLoop kk rest picked used
        else pickLoop kk rest
               (picked ++ [{| iv_start := cand_start c; iv_end := cand_end c;
                              iv_score := cand_score c |}])
               (used ++ [range])
  end.

Section Analytics.
Context {host : Coercions}.

Definition minuteOf (r : Row) : Q := safeNumber (Obj.get (js "minute") r).

Definition seriesValue (seriesKey : jsstring) (r : Row) : Q :=
  safeNumber (Obj.get seriesKey r).

Definition sortByMinute (curveRows : list Row) : list Row :=
  sortBy (fun a b => minuteOf a - minuteOf b) curveRows.

(** [minutes[i] + (w - 1)] *)
Definition endMinuteOf (m w : Q) : Num := numAdd (Fin m) (round64 (w - 1)).

Definition windowCandidates (minutes values : list Q) (w : Q) : list Candidate :=
  let n := length minutes in
  let ps := prefixSums (Fin 0) values in
  map (fun i =>
         let endMinute := endMinuteOf (nth i minutes 0) w in
         let j := extendWindow n minutes n endMinute i in
         {| cand_i := i; cand_j := j;
            cand_score := numSub (nth (j + 1) ps NaN) (nth i ps NaN);
            cand_start := nth i minutes 0;
            cand_end := nth j minutes 0 |})
      (seq 0 n).

(** [windowSize] and [k] are finite numbers.  A score is [NaN] only when
    the running sums reach infinities; the comparator of the candidates is
    then no order, and the order that the sort leaves them in is the
    implementation's. *)
Definition topKIntervals (curveRows : list Row) (seriesKey : jsstring)
           (windowSize k : Q) : list Interval :=
  match curveRows with
  | [] => []
  | _ =>
      let rows := sortByMinute curveRows in
      let minutes := map minuteOf rows in
      let values := map (seriesValue seriesKey) rows in
      let w := Qmax 1 (Qmin 20 windowSize) in
      let kk := Qmax 1 (Qmin 5 k) in
      let candidates :=
        sortBy (fun a b => numSign (numSub (cand_score b) (cand_score a)))
               (windowCandidates minutes values w) in
      let picked := pickLoop kk candidates [] [] in
      sortBy (fun a b => iv_start a - iv_start b) picked
  end.

(** One step of the scan of [computePeak]; [None] stands for the initial
    [null] of [bestMinute] and the initial [-Infinity] of [bestVal]. *)
Definition peakStep (seriesKey : jsstring) (best : option Q * option Q)
           (r : Row) : option Q * option Q :=
  let m := minuteOf r in
  let v := seriesValue seriesKey r in
  let greater := match snd best with
                 | None => true
                 | Some bestVal => Qltb bestVal v
                 end in
  if greater then (Some m, Some v) else best.

Definition computePeak (curveRows : list Row) (seriesKey : jsstring)
  : option Peak :=
  match fold_left (peakStep seriesKey) curveRows (None, None) with
  | (Some bestMinute, Some bestVal) =>
      if Qltb bestVal 0 then None
      else Some {| peak_minute := bestMinute; peak_value := bestVal |}
  | _ => None
  end.
End Analytics.

(* ================================================================== *)
(** ** The episode/table store *)

Module TABLE_KEYS.
Definition DANMU_EMO := js "danmaku_emo_dist".
Definition COM_ROOT_EMO := js "comment_root_emo_dist".
Definition COM_REPLY_EMO := js "comment_reply_emo_dist".
Definition DANMU_FUNC := js "danmaku_func_dist".
Definition COM_ALL_FUNC := js "comment_func_dist".
Definition COM_ROOT_FUNC := js "comment_root_func_dist".
Definition COM_REPLY_FUNC := js "comment_reply_func_dist".
Definition DANMU_MIN_EMO := js "danmaku_minute_emo_curve".
Definition DANMU_MIN_FUNC := js "danmaku_minute_func_curve".
Definition BURST_2S := js "danmaku_burst_2s".
Definition TOP_TERMS_DANMU := js "top_terms_danmaku".
Definition TOP_TERMS_COMMENT := js "top_terms_comment".
Definition DANMU_MODEL_EMO := js "danmaku_model_emo_dist".
Definition COM_ROOT_MODEL_EMO := js "comment_root_model_emo_dist".
Definition COM_REPLY_MODEL_EMO := js "comment_reply_model_emo_dist".
Definition MODEL_USAGE := js "model_usage".
Definition CLEANING_REPORT := js "cleaning_report".
End TABLE_KEYS.

Definition KEY_EPISODE_STATS := js "episode_stats".
Definition KEY_BASIC_STATS := js "danmaku_basic_stats".

(** First match of [/ep(\d+)/i]: the captured digits. *)
Fixpoint matchEp (s : jsstring) : option jsstring :=
  match s with
  | [] => None
  | c :: r =>
      let here :=
        match r with
        | d :: r' =>
            if ((c =? 101) || (c =? 69))%Z && ((d =? 112) || (d =? 80))%Z
            then match takeDigits r' with
                 | [] => None
                 | ds => Some ds
                 end
            else None
        | [] => None
        end in
      match here with
      | Some ds => Some ds
      | None => matchEp r
      end
  end.

Definition isSep (c : Z) : bool := ((c =? 45) || (c =? 95))%Z.

(** [(\d{2,3})(?:[-_])] at the head of [s]: three digits are tried before two. *)
Definition digits23 (s : jsstring) : option jsstring :=
  match s with
  | a :: b :: c :: rest =>
      if isDigit a && isDigit b && isDigit c
         && match rest with d :: _ => isSep d | [] => false end
      then Some [a; b; c]
      else if isDigit a && isDigit b && isSep c then Some [a; b]
      else None
  | _ => None
  end.

(** The alternative [[-_]] of the fallback pattern, at every position. *)
Fixpoint matchSepDigits (s : jsstring) : option jsstring :=
  match s with
  | [] => None
  | c :: r =>
      match (if isSep c then digits23 r else None) with
      | Some ds => Some ds
      | None => matchSepDigits r
      end
  end.

(** First match of [/(?:^|[-_])(\d{2,3})(?:[-_])/]: the captured digits. *)
Definition matchFallback (s : jsstring) : option jsstring :=
  match digits23 s with
  | Some ds => Some ds
  | None => matchSepDigits s
  end.

Definition parseEpisodeFromName (name : jsstring) : option jsstring :=
  match matchEp name with
  | Some ds => Some ds
  | None => matchFallback name
  end.

(** The recognised files, in the order the source tests them. *)
Definition tableFiles : list (jsstring * jsstring) :=
  [ (TABLE_KEYS.DANMU_EMO, js ".csv");
    (TABLE_KEYS.COM_ROOT_EMO, js ".csv");
    (TABLE_KEYS.COM_REPLY_EMO, js ".csv");
    (TABLE_KEYS.DANMU_MODEL_EMO, js ".csv");
    (TABLE_KEYS.COM_ROOT_MODEL_EMO, js ".csv");
    (TABLE_KEYS.COM_REPLY_MODEL_EMO, js ".csv");
    (TABLE_KEYS.MODEL_USAGE, js ".csv");
    (TABLE_KEYS.DANMU_FUNC, js ".csv");
    (TABLE_KEYS.COM_ALL_FUNC, js ".csv");
    (TABLE_KEYS.COM_ROOT_FUNC, js ".csv");
    (TABLE_KEYS.COM_REPLY_FUNC, js ".csv");
    (TABLE_KEYS.DANMU_MIN_EMO, js ".csv");
    (TABLE_KEYS.DANMU_MIN_FUNC, js ".csv");
    (TABLE_KEYS.BURST_2S, js ".csv");
    (TABLE_KEYS.TOP_TERMS_DANMU, js ".csv");
    (TABLE_KEYS.TOP_TERMS_COMMENT, js ".csv");
    (TABLE_KEYS.CLEANING_REPORT, js ".csv") ].

(** The result [{ key, ep }] of [detectTableKey]. *)
Record Detected : Type := {
  det_key : jsstring;
  det_ep : option jsstring
}.

Definition detectTableKey (filename : jsstring) : option Detected :=
  let lower := toLowerCase filename in
  let ep := parseEpisodeFromName lower in
  if includes KEY_EPISODE_STATS lower && endsWith (js ".csv") lower
  then Some {| det_key := KEY_EPISODE_STATS; det_ep := None |}
  else if includes KEY_BASIC_STATS lower && endsWith (js ".json") lower
  then Some {| det_key := KEY_BASIC_STATS; det_ep := ep |}
  else
    match find (fun ke => includes (fst ke) lower && endsWith (snd ke) lower)
               tableFiles with
    | Some (key, _) => Some {| det_key := key; det_ep := ep |}
    | None => None
    end.

(** The value of [JSON.parse]. *)
#[local] Unset Elimination Schemes.
Inductive Json : Type :=
| JNull
| JBool (b : bool)
| JNum (q : Q)
| JStr (s : jsstring)
| JArr (items : list Json)
| JObj (fields : list (jsstring * Json)).
#[local] Set Elimination Schemes.

(** The text of an uploaded file, seen through the two external parsers the
    ingest calls on it: [parseCsv text] and [JSON.parse(text)].  [None] is a
    rejected promise, respectively a thrown [SyntaxError]. *)
Record FileText : Type := {
  csv_rows : option (list Row);
  json_value : option Json
}.

Definition parseCsv (text : FileText) : option (list Row) := csv_rows text.
Definition JSON_parse (text : FileText) : option Json := json_value text.

Definition TableMap := Obj.t (list Row).

Record LoadedFile : Type := {
  file_name : jsstring;
  file_size : Q;
  file_type : jsstring
}.

Record Store : Type := {
  episodes : list jsstring;
  episodeStats : option (list Row);
  basicStatsByEp : Obj.t Json;
  tablesByEp : Obj.t TableMap;
  loadedFiles : list LoadedFile
}.

(** The initial state of the dashboard. *)
Definition emptyStore : Store :=
  {| episodes := []; episodeStats := None; basicStatsByEp := Obj.empty;
     tablesByEp := Obj.empty; loadedFiles := [] |}.

(** [eps.add(ep)] on a [Set], kept in insertion order. *)
Definition setAdd (ep : jsstring) (eps : list jsstring) : list jsstring :=
  if existsb (jseqb ep) eps then eps else eps ++ [ep].

Section StoreOps.
Context {host : Coercions}.

(** [String(x)] of a possibly absent cell. *)
Definition String_ (x : option Value) : jsstring :=
  match x with
  | Some v => toStr v
  | None => js "undefined"
  end.

(** [String(r.episode_id ?? r.episode ?? "")] *)
Definition rowEpisode (r : Row) : jsstring :=
  String_ (Obj.get (js "episode_id") r ?? Obj.get (js "episode") r
           ?? Some (VStr [])).

Definition episodeOrder (a b : jsstring) : Q :=
  safeNumber (Some (VStr a)) - safeNumber (Some (VStr b)).

Definition mergeEpisodes (tablesByEp : Obj.t TableMap)
           (basicStatsByEp : Obj.t Json) (episodeStats : option (list Row))
  : list jsstring :=
  let eps := fold_left (fun eps ep => setAdd ep eps) (Obj.ownKeys tablesByEp) [] in
  let eps := fold_left (fun eps ep => setAdd ep eps) (Obj.ownKeys basicStatsByEp) eps in
  let eps :=
    fold_left (fun eps r =>
                 let ep := rowEpisode r in
                 match ep with
                 | [] => eps
                 | _ => setAdd ep eps
                 end)
              (match episodeStats with Some rows => rows | None => [] end)
              eps in
  sortBy episodeOrder eps.

(** The three state updaters passed to [setStore]. *)
Definition putEpisodeStats (rows : list Row) (prev : Store) : Store :=
  let eps := mergeEpisodes (tablesByEp prev) (basicStatsByEp prev) (Some rows) in
  {| episodes := eps; episodeStats := Some rows;
     basicStatsByEp := basicStatsByEp prev; tablesByEp := tablesByEp prev;
     loadedFiles := loadedFiles prev |}.

Definition putBasicStats (ep : jsstring) (obj : Json) (prev : Store) : Store :=
  let basicStatsByEp' := Obj.set ep obj (basicStatsByEp prev) in
  let episodes' := mergeEpisodes (tablesByEp prev) basicStatsByEp' (episodeStats prev) in
  {| episodes := episodes'; episodeStats := episodeStats prev;
     basicStatsByEp := basicStatsByEp'; tablesByEp := tablesByEp prev;
     loadedFiles := loadedFiles prev |}.

Definition putTable (ep key : jsstring) (rows : list Row) (prev : Store) : Store :=
  let cur := match Obj.get ep (tablesByEp prev) with
             | Some tm => tm
             | None => Obj.empty
             end in
  let nextTablesByEp := Obj.set ep (Obj.set key rows cur) (tablesByEp prev) in
  let episodes' := mergeEpisodes nextTablesByEp (basicStatsByEp prev) (episodeStats prev) in
  {| episodes := episodes'; episodeStats := episodeStats prev;
     basicStatsByEp := basicStatsByEp prev; tablesByEp := nextTablesByEp;
     loadedFiles := loadedFiles prev |}.

(** [ingestFileText(name, text)] applied to the store [prev].  [None] means
    that the call threw before any update; otherwise the result is the store
    after the call (the same store when the file is ignored). *)
Definition ingestFileText (name : jsstring) (text : FileText) (prev : Store)
  : option Store :=
  match detectTableKey name with
  | None => Some prev
  | Some detected =>
      if jseqb (det_key detected) KEY_EPISODE_STATS then
        match parseCsv text with
        | Some rows => Some (putEpisodeStats rows prev)
        | None => None
        end
      else if jseqb (det_key detected) KEY_BASIC_STATS then
        match det_ep detected with
        | None => Some prev
        | Some ep =>
            match JSON_parse text with
            | Some obj => Some (putBasicStats ep obj prev)
            | None => None
            end
        end
      else
        match det_ep detected with
        | None => Some prev
        | Some ep =>
            match parseCsv text with
            | Some rows => Some (putTable ep (det_key detected) rows prev)
            | None => None
            end
        end
  end.

(** The store after one ingest: a failed call leaves it as it was. *)
Definition ingest (prev : Store) (file : jsstring * FileText) : Store :=
  match ingestFileText (fst file) (snd file) prev with
  | Some next => next
  | None => prev
  end.

(** The store after a sequence of ingests, from the initial state. *)
Definition ingestAll (files : list (jsstring * FileText)) : Store :=
  fold_left ingest files emptyStore.
End StoreOps.

(* ================================================================== *)
(** ** The distribution aggregator *)

Inductive DistKind : Type :=
| emo_danmaku
| emo_comment_root
| emo_comment_reply
| func_danmaku
| func_comment_all
| func_comment_root
| func_comment_reply.

(** [distKind.startsWith("emo_")] *)
Definition isEmoKind (distKind : DistKind) : bool :=
  match distKind with
  | emo_danmaku | emo_comment_root | emo_comment_reply => true
  | _ => false
  end.

(** The table a comparison kind reads. *)
Definition distTableKey (distKind : DistKind) : jsstring :=
  match distKind with
  | emo_danmaku => TABLE_KEYS.DANMU_EMO
  | emo_comment_root => TABLE_KEYS.COM_ROOT_EMO
  | emo_comment_reply => TABLE_KEYS.COM_REPLY_EMO
  | func_danmaku => TABLE_KEYS.DANMU_FUNC
  | func_comment_all => TABLE_KEYS.COM_ALL_FUNC
  | func_comment_root => TABLE_KEYS.COM_ROOT_FUNC
  | func_comment_reply => TABLE_KEYS.COM_REPLY_FUNC
  end.

Definition distLabel (distKind : DistKind) : jsstring :=
  (match distKind with
   | emo_danmaku =>
       [24377; 24149; 24773; 32490; 20998; 24067; 65288; 22534; 21472; 65289]
   | emo_comment_root =>
       [26681; 35780; 35770; 24773; 32490; 20998; 24067; 65288; 22534; 21472; 65289]
   | emo_comment_reply =>
       [22238; 22797; 35780; 35770; 24773; 32490; 20998; 24067; 65288; 22534;
        21472; 65289]
   | func_danmaku =>
       [24377; 24149; 21151; 33021; 20998; 24067; 65288]
       ++ js "TopN + other" ++ [65289]
   | func_comment_all =>
       [35780; 35770; 21151; 33021; 20998; 24067; 65288; 24635; 20307; 65289]
   | func_comment_root =>
       [35780; 35770; 21151; 33021; 20998; 24067; 65288; 26681; 35780; 65289]
   | func_comment_reply =>
       [35780; 35770; 21151; 33021; 20998; 24067; 65288; 22238; 22797; 65289]
   end)%Z.

(** The result [{ rows, keys, label, colors }]. *)
Record DistCompare : Type := {
  dc_rows : list (Obj.t Value);
  dc_keys : list jsstring;
  dc_label : jsstring;
  dc_colors : Obj.t jsstring
}.

Definition noDistData : DistCompare :=
  {| dc_rows := []; dc_keys := []; dc_label := []; dc_colors := Obj.empty |}.

(** [store.tablesByEp[ep]?.[tableKey]] *)
Definition tableOf (store : Store) (ep tableKey : jsstring) : option (list Row) :=
  match Obj.get ep (tablesByEp store) with
  | Some tm => Obj.get tableKey tm
  | None => None
  end.

(** [store.tablesByEp[ep]?.[tableKey] ?? []] *)
Definition distOf (store : Store) (ep tableKey : jsstring) : list Row :=
  match tableOf store ep tableKey with
  | Some rows => rows
  | None => []
  end.

(** [distCompareEps.some((ep) => (table?.length ?? 0) > 0)] *)
Definition hasAnyRows (store : Store) (distCompareEps : list jsstring)
           (tableKey : jsstring) : bool :=
  existsb (fun ep => match tableOf store ep tableKey with
                     | Some (_ :: _) => true
                     | _ => false
                     end)
          distCompareEps.

(** The first two fields of an output row: [{ episode: `第${ep}集`, ep }]. *)
Definition rowHead (ep : jsstring) : Obj.t Value :=
  [ (js "episode", VStr ([31532%Z] ++ ep ++ [38598%Z])); (js "ep", VStr ep) ].

(** [m[k] ?? 0] on a map of numbers. *)
Definition ratioOr0 (k : jsstring) (m : Obj.t Q) : Q :=
  match Obj.get k m with
  | Some v => v
  | None => 0
  end.

(** The operand [(row[k] ?? 0)] of the sum over the top keys; the row holds
    a number under every top key at that point. *)
Definition cellOr0 (k : jsstring) (row : Obj.t Value) : Num :=
  match Obj.get k row ?? Some (VNum 0) with
  | Some (VNum v) => round64 v
  | Some (VInf negative) => if negative then NegInf else PosInf
  | Some VNaN => NaN
  | _ => Fin 0
  end.

Section Aggregator.
Context {host : Coercions}.

(** [String(r[field] ?? r.label ?? "other")] *)
Definition categoryOf (field : jsstring) (r : Row) : jsstring :=
  String_ (Obj.get field r ?? Obj.get (js "label") r ?? Some (VStr (js "other"))).

Definition ratioOf (r : Row) : Q := safeNumber (Obj.get (js "ratio") r).

(** The per-episode map [m]: the last ratio of every category wins. *)
Definition ratioMap (field : jsstring) (dist : list Row) : Obj.t Q :=
  fold_left (fun m r => Obj.set (categoryOf field r) (ratioOf r) m) dist Obj.empty.

Definition emoRow (store : Store) (tableKey : jsstring) (keys : list jsstring)
           (ep : jsstring) : Obj.t Value :=
  let m := ratioMap (js "emo") (distOf store ep tableKey) in
  fold_left (fun row k => Obj.set k (VNum (ratioOr0 k m)) row) keys (rowHead ep).

(** [funcMean[func] = funcMean[func] ?? []; funcMean[func].push(ratio)].
    Under a name of [Object.prototype] that [funcMean] does not own, the
    first statement stores the inherited member, which has no [push]: the
    second throws a [TypeError]. *)
Definition pushRatio (funcMean : Outcome (Obj.t (list Q))) (r : Row)
  : Outcome (Obj.t (list Q)) :=
  match funcMean with
  | Thrown => Thrown
  | Returned funcMean =>
      let func := categoryOf (js "func") r in
      match Obj.get func funcMean with
      | Some arr => Returned (Obj.set func (arr ++ [ratioOf r]) funcMean)
      | None =>
          if inherited func then Thrown
          else Returned (Obj.set func [ratioOf r] funcMean)
      end
  end.

(** The map [funcMean]: every observed ratio of every function tag. *)
Definition collectFuncMean (store : Store) (distCompareEps : list jsstring)
           (funcTableKey : jsstring) : Outcome (Obj.t (list Q)) :=
  fold_left
    (fun funcMean ep =>
       fold_left pushRatio (distOf store ep funcTableKey) funcMean)
    distCompareEps (Returned Obj.empty).

(** [arr.reduce((a, b) => a + b, 0) / Math.max(1, arr.length)] *)
Definition meanOf (arr : list Q) : Num :=
  numDivPos (sumOf arr) (Qmax 1 (inject_Z (Z.of_nat (length arr)))).

Definition funcScores (funcMean : Obj.t (list Q)) : list (jsstring * Num) :=
  sortBy (fun a b => numSign (numSub (snd b) (snd a)))
         (map (fun kv => (fst kv, meanOf (snd kv))) (Obj.entries funcMean)).

(** [funcScores.slice(0, Math.max(3, Math.min(12, distStackTopN)))] *)
Definition topKeysOf (scores : list (jsstring * Num)) (distStackTopN : Q)
  : list jsstring :=
  map fst (firstn (Z.to_nat (Qfloor (Qmax 3 (Qmin 12 distStackTopN)))) scores).

Definition funcRow (store : Store) (funcTableKey : jsstring)
           (topKeys : list jsstring) (ep : jsstring) : Obj.t Value :=
  let m := ratioMap (js "func") (distOf store ep funcTableKey) in
  let row := fold_left (fun row k => Obj.set k (VNum (ratioOr0 k m)) row)
                       topKeys (rowHead ep) in
  let sumTop := fold_left (fun s k => numAdd s (cellOr0 k row)) topKeys (Fin 0) in
  Obj.set (js "other") (numValue (numMax0 (numSub (Fin 1) sumTop))) row.

(** The function branch once [funcMean] is built. *)
Definition funcCompare (store : Store) (distCompareEps : list jsstring)
           (distKind : DistKind) (distStackTopN : Q)
           (funcMean : Obj.t (list Q)) : DistCompare :=
  let funcTableKey := distTableKey distKind in
  let topKeys := topKeysOf (funcScores funcMean) distStackTopN in
  let keys := topKeys ++ [js "other"] in
  let colors :=
    fold_left
      (fun colors k =>
         Obj.set k (if jseqb k (js "other") then js "#94a3b8"
                    else stableColorFromKey (js "func_" ++ k))
                 colors)
      keys Obj.empty in
  {| dc_rows := map (funcRow store funcTableKey topKeys) distCompareEps;
     dc_keys := keys;
     dc_label := distLabel distKind;
     dc_colors := colors |}.

Definition distCompareData (store : Store) (distCompareEps : list jsstring)
           (distKind : DistKind) (distStackTopN : Q) : Outcome DistCompare :=
  match distCompareEps with
  | [] => Returned noDistData
  | _ =>
      if isEmoKind distKind then
        let tableKey := distTableKey distKind in
        let keys := EMO_ORDER in
        if negb (hasAnyRows store distCompareEps tableKey)
        then Returned noDistData
        else
          Returned
            {| dc_rows := map (emoRow store tableKey keys) distCompareEps;
               dc_keys := keys;
               dc_label := distLabel distKind;
               dc_colors := EMO_COLOR_MAP |}
      else
        let funcTableKey := distTableKey distKind in
        if negb (hasAnyRows store distCompareEps funcTableKey)
        then Returned noDistData
        else
          match collectFuncMean store distCompareEps funcTableKey with
          | Thrown => Thrown
          | Returned funcMean =>
              Returned (funcCompare store distCompareEps distKind
                                    distStackTopN funcMean)
          end
  end.
End Aggregator.

(* ================================================================== *)
(** ** A host fragment for closed examples *)

Fixpoint decDigits (fuel : nat) (n : Z) (acc : jsstring) : jsstring :=
  match fuel with
  | O => acc
  | S f =>
      let acc' := (48 + n mod 10)%Z :: acc in
      if (n / 10 =? 0)%Z then acc' else decDigits f (n / 10)%Z acc'
  end.

(** [Number] on the empty string and on strings of decimal digits, [NaN] on
    any other string; [String] on integers (a number with a fractional part
    is outside the fragment and is printed as its integral part).  The closed
    examples below only coerce digit strings and integers. *)
Definition digitsHost : Coercions :=
  {| StringToNumber := fun s =>
       if forallb isDigit s then Some (inject_Z (digitsValue 0 s)) else None;
     NumberToString := fun q =>
       let n := Qfloor q in
       let ds := decDigits (S (Z.to_nat (Z.log2 (Z.abs n)))) (Z.abs n) [] in
       if (n <? 0)%Z then 45%Z :: ds else ds |}.

(* ================================================================== *)
(** ** Vocabulary of the properties *)

Section StoreVocabulary.
Context {host : Coercions}.

(** The episode identifiers embedded in the rows of the global
    scalar-stats table: the non-empty [rowEpisode] of its rows. *)
Definition embeddedEpisodes (episodeStats : option (list Row)) : list jsstring :=
  filter (fun ep => match ep with [] => false | _ => true end)
         (map rowEpisode (match episodeStats with Some rows => rows | None => [] end)).

(** The derived episode list is the one recomputed from the three
    structures of the store. *)
Definition episodesDerived (st : Store) : Prop :=
  episodes st = mergeEpisodes (tablesByEp st) (basicStatsByEp st) (episodeStats st).
End StoreVocabulary.

(** A file that [detectTableKey] classifies as the global scalar-stats table. *)
Definition isGlobalStats (name : jsstring) : bool :=
  match detectTableKey name with
  | Some d => jseqb (det_key d) KEY_EPISODE_STATS
  | None => false
  end.

(** A file that [detectTableKey] classifies as the per-episode CSV table
    [key] of episode [ep]. *)
Definition isEpisodeTable (name key ep : jsstring) : Prop :=
  detectTableKey name = Some {| det_key := key; det_ep := Some ep |}
  /\ key <> KEY_EPISODE_STATS /\ key <> KEY_BASIC_STATS.

(** Rows and files of the closed examples. *)
Definition statsRow (episode_id : Z) : Row :=
  [ (js "episode_id", VNum (inject_Z episode_id)) ].

Definition csvText (rows : list Row) : FileText :=
  {| csv_rows := Some rows; json_value := None |}.

(** A row of a minute curve with the single series [v]. *)
Definition curveRow (minute v : Q) : Row :=
  [ (js "minute", VNum minute); (js "v", VNum v) ].

(** A row of a function-distribution table. *)
Definition funcDistRow (func : string) (ratio : Q) : Row :=
  [ (js "func", VStr (js func)); (js "ratio", VNum ratio) ].

(** A store holding only [danmaku_func_dist] tables. *)
Definition funcDistStore (tables : list (string * list Row)) : Store :=
  {| episodes := map (fun t => js (fst t)) tables;
     episodeStats := None;
     basicStatsByEp := Obj.empty;
     tablesByEp :=
       map (fun t => (js (fst t), [(TABLE_KEYS.DANMU_FUNC, snd t)])) tables;
     loadedFiles := [] |}.

(** The two episodes of the end-to-end scenario of the specification. *)
Definition scenarioStore : Store :=
  funcDistStore
    [ ("1"%string, [funcDistRow "greet" (4 # 10); funcDistRow "spoiler" (3 # 10);
                    funcDistRow "other_tag" (3 # 10)]);
      ("2"%string, [funcDistRow "greet" (1 # 10); funcDistRow "spoiler" (5 # 10);
                    funcDistRow "hype" (4 # 10)]) ].

(** One episode whose table has a function tag that is itself called
    [other]; its two ratios sum to 1. *)
Definition otherTagStore : Store :=
  funcDistStore
    [ ("1"%string, [funcDistRow "a" (1 # 2); funcDistRow "other" (1 # 2)]) ].

(** The value an output row shows for a category. *)
Definition shown (row : Obj.t Value) (k : jsstring) : Num := cellOr0 k row.

(** The conversion of the source and the sextant form of the standard
    conversion agree on every hue and both lightness values; checked hue by
    hue. *)
Definition hslAgreeAt (h : Z) : bool :=
  jseqb (hslToHex (inject_Z h) 82 45)
        (ColorSpec.hex (ColorSpec.hsl_to_rgb h ColorSpec.saturation (45 # 100)))
  && jseqb (hslToHex (inject_Z h) 82 58)
           (ColorSpec.hex (ColorSpec.hsl_to_rgb h ColorSpec.saturation (58 # 100))).

(** The conversion of the source with every operation rounded to the
    nearest number, as the code computes it; no intermediate result comes
    near the limits of the range, and [%] and [Math.abs] are exact. *)
Definition nearest (q : Q) : Q :=
  match round64 q with
  | Fin r => r
  | _ => 0
  end.

Definition hslToHex64 (h s l : Q) : jsstring :=
  let s := nearest (s / 100) in
  let l := nearest (l / 100) in
  let c := nearest (nearest (1 - Qabs (nearest (nearest (2 * l) - 1))) * s) in
  let x := nearest (c * nearest (1 - Qabs (nearest (jsRem (nearest (h / 60)) 2
                                                     - 1)))) in
  let m := nearest (l - nearest (c / 2)) in
  let '(r, g, b) :=
    if Qle_bool 0 h && Qltb h 60 then (c, x, 0)
    else if Qle_bool 60 h && Qltb h 120 then (x, c, 0)
    else if Qle_bool 120 h && Qltb h 180 then (0, c, x)
    else if Qle_bool 180 h && Qltb h 240 then (0, x, c)
    else if Qle_bool 240 h && Qltb h 300 then (x, 0, c)
    else (c, 0, x) in
  let toHex := fun v : Q =>
    padStart2 (toString16 (Math_round (nearest (nearest (v + m) * 255)))) in
  js "#" ++ toHex r ++ toHex g ++ toHex b.

Definition hslRoundedAt (h : Z) : bool :=
  jseqb (hslToHex64 (inject_Z h) 82 45) (hslToHex (inject_Z h) 82 45)
  && jseqb (hslToHex64 (inject_Z h) 82 58) (hslToHex (inject_Z h) 82 58).

(** What the window loop guarantees of a candidate over the sorted minutes:
    its index range is well formed, its bounds are the minutes at the ends of
    the range, and every later row has a strictly greater minute. *)
Definition windowClosed (minutes : list Q) (c : Candidate) : Prop :=
  (cand_i c <= cand_j c < length minutes)%nat
  /\ cand_start c = nth (cand_i c) minutes 0
  /\ cand_end c = nth (cand_j c) minutes 0
  /\ forall t, (cand_j c < t < length minutes)%nat -> cand_end c < nth t minutes 0.

Definition ascending (minutes : list Q) : Prop :=
  forall i j, (i <= j < length minutes)%nat -> nth i minutes 0 <= nth j minutes 0.

Definition intervalOf (c : Candidate) : Interval :=
  {| iv_start := cand_start c; iv_end := cand_end c; iv_score := cand_score c |}.

Definition rangeOf (c : Candidate) : nat * nat := (cand_i c, cand_j c).

(** Two intervals do not overlap, bounds included. *)
Definition apart (a b : Interval) : Prop :=
  Qmin (iv_end a) (iv_end b) < Qmax (iv_start a) (iv_start b).

(* ================================================================== *)
(** ** More of the dashboard: selections, curves, report items, batches *)

(** The result [{ missingEps, filePattern }] of [distCompareMissing]. *)
Record DistMissing : Type := {
  missingEps : list jsstring;
  filePattern : jsstring
}.

Definition distFilePattern (distKind : DistKind) : jsstring :=
  match distKind with
  | emo_danmaku => js "danmaku_emo_dist_ep{ep}.csv"
  | emo_comment_root => js "comment_root_emo_dist_ep{ep}.csv"
  | emo_comment_reply => js "comment_reply_emo_dist_ep{ep}.csv"
  | func_danmaku => js "danmaku_func_dist_ep{ep}.csv"
  | func_comment_all => js "comment_func_dist_ep{ep}.csv"
  | func_comment_root => js "comment_root_func_dist_ep{ep}.csv"
  | func_comment_reply => js "comment_reply_func_dist_ep{ep}.csv"
  end.

(** [(store.tablesByEp[ep]?.[tableKey]?.length ?? 0) === 0] *)
Definition hasNoRows (store : Store) (tableKey ep : jsstring) : bool :=
  match tableOf store ep tableKey with
  | Some (_ :: _) => false
  | _ => true
  end.

Definition distCompareMissing (store : Store) (distCompareEps : list jsstring)
           (distKind : DistKind) : DistMissing :=
  match distCompareEps with
  | [] => {| missingEps := []; filePattern := [] |}
  | _ =>
      {| missingEps := filter (hasNoRows store (distTableKey distKind)) distCompareEps;
         filePattern := distFilePattern distKind |}
  end.

(** An entry [{ k, v }] of [pickTopDist]. *)
Record DistItem : Type := {
  item_k : jsstring;
  item_v : Q
}.

(** [store.tablesByEp[activeEp] ?? {}], and [{}] when no episode is active
    ([null] or the empty string). *)
Definition activeTables (store : Store) (activeEp : option jsstring) : TableMap :=
  match activeEp with
  | None | Some [] => Obj.empty
  | Some ep =>
      match Obj.get ep (tablesByEp store) with
      | Some tm => tm
      | None => Obj.empty
      end
  end.

(** [a.minute] of a row of [curveData]; the field holds a number there. *)
Definition curveMinute (r : Row) : Q :=
  match Obj.get (js "minute") r with
  | Some (VNum m) => m
  | _ => 0
  end.

Section Dashboard.
Context {host : Coercions}.

Definition pickTopDist (rows : list Row) (keyField valueField : jsstring)
           (topN : Q) : list DistItem :=
  let items :=
    sortBy (fun a b => item_v b - item_v a)
           (map (fun r => {| item_k := categoryOf keyField r;
                             item_v := safeNumber (Obj.get valueField r) |})
                rows) in
  firstn (Z.to_nat (Qfloor (Qmax 1 (Qmin 10 topN)))) items.

(** [prev.includes(ep) ? prev.filter((x) => x !== ep)
                       : [...prev, ep].sort(by safeNumber)] *)
Definition toggleCompareEp (ep : jsstring) (prev : list jsstring) : list jsstring :=
  if existsb (jseqb ep) prev
  then filter (fun x => negb (jseqb x ep)) prev
  else sortBy episodeOrder (prev ++ [ep]).

Definition toggleDistEp (ep : jsstring) (prev : list jsstring) : list jsstring :=
  if existsb (jseqb ep) prev
  then filter (fun x => negb (jseqb x ep)) prev
  else sortBy episodeOrder (prev ++ [ep]).

(** The minute curve of the active episode: every row gets a numeric
    [minute], and the rows are sorted by it. *)
Definition curveData (tables : TableMap) (curveMode : ColorMode) : list Row :=
  let key := match curveMode with
             | ModeEmo => TABLE_KEYS.DANMU_MIN_EMO
             | ModeFunc => TABLE_KEYS.DANMU_MIN_FUNC
             end in
  let rows :=
    map (fun r => Obj.set (js "minute") (VNum (safeNumber (Obj.get (js "minute") r))) r)
        (match Obj.get key tables with Some rows => rows | None => [] end) in
  sortBy (fun a b => curveMinute a - curveMinute b) rows.
End Dashboard.

(** *** Comparing episodes on one curve *)

(** [s.add(m)] on a [Set] of numbers, kept in insertion order. *)
Definition setAddNum (m : Q) (s : list Q) : list Q :=
  if existsb (Qeq_bool m) s then s else s ++ [m].

(** An object whose keys are numbers: [o[m]] and [o[m] = v]. *)
Definition numGet (m : Q) (o : list (Q * Q)) : option Q :=
  match find (fun kv => Qeq_bool (fst kv) m) o with
  | Some kv => Some (snd kv)
  | None => None
  end.

Fixpoint numSet (m v : Q) (o : list (Q * Q)) : list (Q * Q) :=
  match o with
  | [] => [(m, v)]
  | (m', v') :: r => if Qeq_bool m' m then (m', v) :: r else (m', v') :: numSet m v r
  end.

(** An entry [{ epKey, minute, value }] of [comparePeaks]. *)
Record ComparePeak : Type := {
  cp_epKey : jsstring;
  cp_minute : Q;
  cp_value : Q
}.

Section Compare.
Context {host : Coercions}.

(** [{ ...r, minute: safeNumber(r.minute) }] *)
Definition withMinute (r : Row) : Row :=
  Obj.set (js "minute") (VNum (safeNumber (Obj.get (js "minute") r))) r.

(** [`ep${ep}`] *)
Definition epKeyOf (ep : jsstring) : jsstring := js "ep" ++ ep.

(** [byEp[ep]] *)
Definition compareRows (store : Store) (key ep : jsstring) : list Row :=
  map withMinute (distOf store ep key).

(** [Array.from(minuteSet).sort((a, b) => a - b)] *)
Definition compareMinutes (store : Store) (key : jsstring)
           (compareEps : list jsstring) : list Q :=
  sortBy (fun a b => a - b)
         (fold_left
            (fun s ep =>
               fold_left (fun s r => setAddNum (minuteOf r) s)
                         (compareRows store key ep) s)
            compareEps []).

(** [lookup[ep]] *)
Definition compareLookup (store : Store) (key compareSeries ep : jsstring)
  : list (Q * Q) :=
  fold_left (fun o r => numSet (minuteOf r) (seriesValue compareSeries r) o)
            (compareRows store key ep) [].

Definition compareCurveCombined (compareMode : bool)
           (compareEps : list jsstring) (store : Store) (curveMode : ColorMode)
           (compareSeries : jsstring) : list Row :=
  if negb compareMode || match compareEps with [] => true | _ => false end
  then []
  else
    let key := match curveMode with
               | ModeEmo => TABLE_KEYS.DANMU_MIN_EMO
               | ModeFunc => TABLE_KEYS.DANMU_MIN_FUNC
               end in
    map (fun m =>
           fold_left
             (fun row ep =>
                Obj.set (epKeyOf ep)
                        (VNum (match numGet m (compareLookup store key
                                                 compareSeries ep) with
                               | Some v => v
                               | None => 0
                               end))
                        row)
             compareEps [(js "minute", VNum m)])
        (compareMinutes store key compareEps).

(** The peak of every selected episode on the combined curve.  The scan is
    the one of [computePeak]; the result is kept whatever its sign. *)
Definition comparePeaks (compareMode markPeak : bool)
           (compareCurveCombined : list Row) (compareEps : list jsstring)
  : list ComparePeak :=
  if negb compareMode || negb markPeak
     || match compareCurveCombined with [] => true | _ => false end
  then []
  else
    flat_map
      (fun ep =>
         let epKey := epKeyOf ep in
         match fold_left (peakStep epKey) compareCurveCombined (None, None) with
         | (Some bestMinute, Some bestVal) =>
             [ {| cp_epKey := epKey; cp_minute := bestMinute;
                  cp_value := bestVal |} ]
         | _ => []
         end)
      compareEps.

(** The initial selection of the two comparison panels: the last two
    episodes, or the last one. *)
Definition initialSelection (episodes : list jsstring) : list jsstring :=
  let last := nth (length episodes - 1) episodes [] in
  let prev := nth (Nat.max 0 (length episodes - 2)) episodes [] in
  if match prev with [] => false | _ => true end && negb (jseqb prev last)
  then [prev; last] else [last].

(** The effect that fills an empty selection as soon as episodes are known. *)
Definition syncCompareEps (episodes compareEps : list jsstring) : list jsstring :=
  match episodes, compareEps with
  | _ :: _, [] => initialSelection episodes
  | _, _ => compareEps
  end.

Definition syncDistCompareEps (episodes distCompareEps : list jsstring)
  : list jsstring :=
  match episodes, distCompareEps with
  | _ :: _, [] => initialSelection episodes
  | _, _ => distCompareEps
  end.

(** The effect that makes the last episode active when none is. *)
Definition syncActiveEp (episodes : list jsstring) (activeEp : option jsstring)
  : option jsstring :=
  match activeEp, episodes with
  | (None | Some []), _ :: _ => Some (nth (length episodes - 1) episodes [])
  | _, _ => activeEp
  end.
End Compare.

(** *** Batches of uploaded files *)

(** An entry of an archive: its path, whether it is a directory, and its
    text. *)
Record ZipEntry : Type := {
  entry_name : jsstring;
  entry_dir : bool;
  entry_text : FileText
}.

(** An uploaded file: its metadata, its text, and what [JSZip.loadAsync]
    makes of its bytes, the entries in the order of [Object.values(zip.files)]
    or [None] when it rejects. *)
Record Upload : Type := {
  up_name : jsstring;
  up_size : Q;
  up_type : jsstring;
  up_text : FileText;
  up_zip : option (list ZipEntry)
}.

(** The part of the dashboard state a batch touches: the store, and whether
    an error message is shown ([loadError] is not [null]); the text of the
    message is not modelled. *)
Record Dash : Type := {
  dash_store : Store;
  dash_failed : bool
}.

(** The text after the last [/] of a path: [name.split("/").pop()]. *)
Fixpoint lastSegment (acc name : jsstring) : jsstring :=
  match name with
  | [] => acc
  | c :: r => if (c =? 47)%Z then lastSegment [] r else lastSegment (acc ++ [c]) r
  end.

(** [e.name.split("/").pop() || e.name] *)
Definition entryBaseName (e : ZipEntry) : jsstring :=
  match lastSegment [] (entry_name e) with
  | [] => entry_name e
  | nm => nm
  end.

Definition isZipName (name : jsstring) : bool :=
  endsWith (js ".zip") (toLowerCase name).

(** The entries of an archive that are ingested: not a directory, and a base
    name ending in [.csv] or [.json]. *)
Definition ingestedEntries (entries : list ZipEntry) : list (jsstring * FileText) :=
  flat_map (fun e =>
              let nm := entryBaseName e in
              let low := toLowerCase nm in
              if endsWith (js ".csv") low || endsWith (js ".json") low
              then [(nm, entry_text e)] else [])
           (filter (fun e => negb (entry_dir e)) entries).

Definition uploadMeta (f : Upload) : LoadedFile :=
  {| file_name := up_name f; file_size := up_size f; file_type := up_type f |}.

Definition addLoadedFiles (meta : list LoadedFile) (prev : Store) : Store :=
  {| episodes := episodes prev; episodeStats := episodeStats prev;
     basicStatsByEp := basicStatsByEp prev; tablesByEp := tablesByEp prev;
     loadedFiles := loadedFiles prev ++ meta |}.

Section Batches.
Context {host : Coercions}.

(** A run of [await ingestFileText(name, text)]: the store reached, and
    whether a call threw, which ends the run. *)
Fixpoint ingestEach (files : list (jsstring * FileText)) (st : Store) : Store * bool :=
  match files with
  | [] => (st, false)
  | f :: rest =>
      match ingestFileText (fst f) (snd f) st with
      | Some st' => ingestEach rest st'
      | None => (st, true)
      end
  end.

(** The loop over the archives. *)
Fixpoint ingestZips (zipFiles : list Upload) (st : Store) : Store * bool :=
  match zipFiles with
  | [] => (st, false)
  | zf :: rest =>
      match up_zip zf with
      | None => (st, true)
      | Some entries =>
          let (st', threw) := ingestEach (ingestedEntries entries) st in
          if threw then (st', true) else ingestZips rest st'
      end
  end.

Definition ingestFiles (files : list Upload) (dash : Dash) : Dash :=
  match files with
  | [] => dash
  | _ =>
      let meta := map uploadMeta files in
      let st0 := addLoadedFiles meta (dash_store dash) in
      let zipFiles := filter (fun f => isZipName (up_name f)) files in
      let normalFiles := filter (fun f => negb (isZipName (up_name f))) files in
      let (st1, threw) := ingestZips zipFiles st0 in
      if threw then {| dash_store := st1; dash_failed := true |}
      else
        let (st2, threw2) :=
          ingestEach (map (fun f => (up_name f, up_text f)) normalFiles) st1 in
        {| dash_store := st2; dash_failed := threw2 |}
  end.

(** The files a batch hands to [ingestFileText] when nothing fails, in the
    order it processes them: the entries of the archives, then the other
    files. *)
Definition batchFiles (files : list Upload) : list (jsstring * FileText) :=
  flat_map (fun zf => match up_zip zf with
                      | Some entries => ingestedEntries entries
                      | None => []
                      end)
           (filter (fun f => isZipName (up_name f)) files)
  ++ map (fun f => (up_name f, up_text f))
         (filter (fun f => negb (isZipName (up_name f))) files).
End Batches.

(** The running sums of the values stay finite. *)
Definition finiteSums (values : list Q) : Prop :=
  Forall (fun s => finite s <> None) (prefixSums (Fin 0) values).

(** [iv] is the window of the rows [i..j] of a minute-sorted series: its
    bounds are their first and last minute, its score the running sum of the
    values up to row [j] less the running sum before row [i], they are the
    rows from [i] on whose minute is no greater than the start plus [w - 1]
    as the code computes it, and every later row is beyond. *)
Definition windowAt (minutes values : list Q) (w : Q) (i j : nat)
           (iv : Interval) : Prop :=
  (i <= j < length minutes)%nat
  /\ iv_start iv = nth i minutes 0
  /\ iv_end iv = nth j minutes 0
  /\ iv_score iv = numSub (sumOf (firstn (j + 1) values)) (sumOf (firstn i values))
  /\ iv_start iv <= iv_end iv
  /\ (forall t, (i <= t <= j)%nat ->
                numLeb (Fin (nth t minutes 0)) (endMinuteOf (iv_start iv) w) = true)
  /\ (forall t, (j < t < length minutes)%nat ->
                numLeb (Fin (nth t minutes 0)) (endMinuteOf (iv_start iv) w) = false).

(** A file that [detectTableKey] classifies as the basic stats of episode
    [ep]. *)
Definition isBasicStats (name ep : jsstring) : Prop :=
  detectTableKey name = Some {| det_key := KEY_BASIC_STATS; det_ep := Some ep |}.

(** The name ends, whatever the case of its letters, in [.csv] or [.json]. *)
Definition hasDataExtension (name : jsstring) : bool :=
  endsWith (js ".csv") (toLowerCase name) || endsWith (js ".json") (toLowerCase name).

(** A non-empty string of decimal digits. *)
Definition isEpisodeId (ep : jsstring) : Prop :=
  ep <> [] /\ forallb isDigit ep = true.

Section NumberVocabulary.
Context {host : Coercions}.

(** [safeNumber(ep)] of an episode identifier. *)
Definition episodeNumber (ep : jsstring) : Q := safeNumber (Some (VStr ep)).
End NumberVocabulary.

(** What an ingest does to the store, once the name is classified and the
    text parsed: nothing, or one of the three writes. *)
Inductive Update : Type :=
| UNone
| UStats (rows : list Row)
| UBasic (ep : jsstring) (obj : Json)
| UTable (ep key : jsstring) (rows : list Row).

Definition updateOf (file : jsstring * FileText) : Update :=
  match detectTableKey (fst file) with
  | None => UNone
  | Some d =>
      if jseqb (det_key d) KEY_EPISODE_STATS then
        match parseCsv (snd file) with
        | Some rows => UStats rows
        | None => UNone
        end
      else if jseqb (det_key d) KEY_BASIC_STATS then
        match det_ep d, JSON_parse (snd file) with
        | Some ep, Some obj => UBasic ep obj
        | _, _ => UNone
        end
      else
        match det_ep d, parseCsv (snd file) with
        | Some ep, Some rows => UTable ep (det_key d) rows
        | _, _ => UNone
        end
  end.

(** Two updates write the same slot: the global table, the basic stats of
    one episode, or one table of one episode. *)
Definition sameSlot (u1 u2 : Update) : Prop :=
  match u1, u2 with
  | UStats _, UStats _ => True
  | UBasic e1 _, UBasic e2 _ => e1 = e2
  | UTable e1 k1 _, UTable e2 k2 _ => e1 = e2 /\ k1 = k2
  | _, _ => False
  end.

(** Two stores read the same: same global table, same basic stats and same
    tables at every key, same episodes up to order, same loaded files. *)
Definition sameContent (st1 st2 : Store) : Prop :=
  episodeStats st1 = episodeStats st2
  /\ (forall ep, Obj.get ep (basicStatsByEp st1) = Obj.get ep (basicStatsByEp st2))
  /\ (forall ep, In ep (Obj.ownKeys (tablesByEp st1))
                 <-> In ep (Obj.ownKeys (tablesByEp st2)))
  /\ (forall ep key, tableOf st1 ep key = tableOf st2 ep key)
  /\ Permutation (episodes st1) (episodes st2)
  /\ loadedFiles st1 = loadedFiles st2.

Section UpdateVocabulary.
Context {host : Coercions}.

Definition applyUpdate (u : Update) (st : Store) : Store :=
  match u with
  | UNone => st
  | UStats rows => putEpisodeStats rows st
  | UBasic ep obj => putBasicStats ep obj st
  | UTable ep key rows => putTable ep key rows st
  end.
End UpdateVocabulary.

Section AggregatorVocabulary.
Context {host : Coercions}.

(** The ratio of the last row of [dist] whose category is [k], 0 when there
    is none. *)
Definition lastRatio (field k : jsstring) (dist : list Row) : Q :=
  match find (fun r => jseqb k (categoryOf field r)) (rev dist) with
  | Some r => ratioOf r
  | None => 0
  end.

(** The rows of the selected episodes, in selection order. *)
Definition selectedRows (store : Store) (eps : list jsstring)
           (tableKey : jsstring) : list Row :=
  flat_map (fun ep => distOf store ep tableKey) eps.

(** The ratios of the function tag [k] over all rows of the selection, and
    their mean as the code computes it. *)
Definition tagRatios (store : Store) (eps : list jsstring)
           (tableKey k : jsstring) : list Q :=
  map ratioOf (filter (fun r => jseqb (categoryOf (js "func") r) k)
                      (selectedRows store eps tableKey)).

Definition tagMean (store : Store) (eps : list jsstring)
           (tableKey k : jsstring) : Num :=
  meanOf (tagRatios store eps tableKey k).

(** One step of the loop that fills [funcMean], for a tag that
    [Object.prototype] does not name. *)
Definition pushPlain (funcMean : Obj.t (list Q)) (r : Row) : Obj.t (list Q) :=
  let func := categoryOf (js "func") r in
  let arr := match Obj.get func funcMean with
             | Some arr => arr
             | None => []
             end in
  Obj.set func (arr ++ [ratioOf r]) funcMean.

(** Some row carries a tag named like a member of [Object.prototype]. *)
Definition hasInheritedTag (rows : list Row) : bool :=
  existsb (fun r => inherited (categoryOf (js "func") r)) rows.
End AggregatorVocabulary.

(** The colour of a key of the function-tag chart. *)
Definition funcColor (k : jsstring) : jsstring :=
  if jseqb k (js "other") then js "#94a3b8"
  else stableColorFromKey (js "func_" ++ k).

(** A colour in the form [#rrggbb]: a hash sign and six lower-case
    hexadecimal digits. *)
Definition isHexDigit (c : Z) : bool :=
  ((48 <=? c) && (c <=? 57) || (97 <=? c) && (c <=? 102))%Z.

Definition isHexColor (s : jsstring) : bool :=
  match s with
  | c :: r => (c =? 35)%Z && (length r =? 6)%nat && forallb isHexDigit r
  | [] => false
  end.

Definition hexColorAt (h : Z) : bool :=
  isHexColor (hslToHex (inject_Z h) 82 45)
  && isHexColor (hslToHex (inject_Z h) 82 58).

Section DashboardVocabulary.
Context {host : Coercions}.

(** The entry [{ k, v }] that [pickTopDist] makes of a row. *)
Definition distItem (keyField valueField : jsstring) (r : Row) : DistItem :=
  {| item_k := categoryOf keyField r;
     item_v := safeNumber (Obj.get valueField r) |}.
End DashboardVocabulary.

Section BatchVocabulary.
Context {host : Coercions}.

(** The call of [ingestFileText] on the file throws: the name is classified
    and the text does not parse. *)
Definition throws (file : jsstring * FileText) : bool :=
  match ingestFileText (fst file) (snd file) emptyStore with
  | None => true
  | Some _ => false
  end.

(** The store a batch starts its ingests from: the metadata of the batch
    are already recorded. *)
Definition batchStart (files : list Upload) (dash : Dash) : Store :=
  addLoadedFiles (map uploadMeta files) (dash_store dash).
End BatchVocabulary.

(** Every archive of the batch can be opened. *)
Definition zipsLoad (files : list Upload) : bool :=
  forallb (fun f => negb (isZipName (up_name f))
                    || match up_zip f with Some _ => true | None => false end)
          files.

(** *** Names around an episode number

    How [detectTableKey] classifies a lower-case name [P ++ ep ++ S], [ep] a
    run of digits, as far as it can be read off [P] and [S] alone. *)

Definition noDigit (s : jsstring) : bool := forallb (fun c => negb (isDigit c)) s.

(** The test of a recognised file succeeds: the key occurs in [P] and the
    extension ends [S]. *)
Definition hitsAround (P S : jsstring) (ke : jsstring * jsstring) : bool :=
  includes (fst ke) P && endsWith (snd ke) S.

(** The test of a recognised file fails: the key, which has no digit, occurs
    neither in [P] nor in [S]. *)
Definition missesAround (P S : jsstring) (ke : jsstring * jsstring) : bool :=
  noDigit (fst ke)
  && match fst ke with [] => false | _ => true end
  && negb (includes (fst ke) P || includes (fst ke) S).

Fixpoint findAround (P S : jsstring) (l : list (jsstring * jsstring))
  : option (jsstring * jsstring) :=
  match l with
  | [] => None
  | ke :: r =>
      if hitsAround P S ke then Some ke
      else if missesAround P S ke then findAround P S r
      else None
  end.

Definition recognisedAround (P0 S key : jsstring) : bool :=
  let P := P0 ++ js "ep" in
  jseqb (toLowerCase P) P && jseqb (toLowerCase S) S
  && match matchEp P with None => true | Some _ => false end
  && match takeDigits S with [] => true | _ => false end
  && missesAround P S (KEY_EPISODE_STATS, js ".csv")
  && negb (startsWith (firstn (length (rev S)) (rev (js ".json"))) (rev S))
  && match findAround P S tableFiles with
     | Some (k, _) => jseqb k key
     | None => false
     end.

Section CompareVocabulary.
Context {host : Coercions}.

(** The value of the series in the last row of [rows] at minute [m], 0 when
    there is none. *)
Definition lastAt (seriesKey : jsstring) (rows : list Row) (m : Q) : Q :=
  match find (fun r => Qeq_bool (minuteOf r) m) (rev rows) with
  | Some r => seriesValue seriesKey r
  | None => 0
  end.
End CompareVocabulary.

(** Data of the closed instances of the further properties. *)
Definition jsonText (v : Json) : FileText :=
  {| csv_rows := None; json_value := Some v |}.

(** A text that neither parser accepts. *)
Definition brokenText : FileText :=
  {| csv_rows := None; json_value := None |}.

Definition emoDistRow (emo : string) (ratio : Q) : Row :=
  [ (js "emo", VStr (js emo)); (js "ratio", VNum ratio) ].

Definition exampleSeries : list Row :=
  [curveRow 3 9; curveRow 1 9; curveRow 2 1; curveRow 7 4;
   curveRow 8 5; curveRow 5 2; curveRow 5 3].

(** A series whose running sums are rounded: the window of rows 4 and 5
    gets a greater score than the window of rows 1 and 2, whose values have
    the greater sum. *)
Definition roundedSeries : list Row :=
  [curveRow 1 (62 # 10); curveRow 2 (14 # 10); curveRow 3 (36 # 10);
   curveRow 4 (13 # 10); curveRow 5 (63 # 10)].

(** A selection where the computed means of the tags [a] and [b] tie. *)
Definition tieStore : Store :=
  funcDistStore
    [ ("1"%string, [funcDistRow "x" (4 # 10); funcDistRow "y" (3 # 10);
                    funcDistRow "a" (1 # 100); funcDistRow "b" (15 # 100)]);
      ("2"%string, [funcDistRow "a" (29 # 100)]) ].

Definition exampleCurveTables : TableMap :=
  [ (TABLE_KEYS.DANMU_MIN_EMO, [curveRow 2 9; curveRow 1 9; curveRow 3 4]) ].

Definition plainUpload (name : string) (text : FileText) : Upload :=
  {| up_name := js name; up_size := 1; up_type := js "text/csv";
     up_text := text; up_zip := None |}.

Definition freshDash : Dash :=
  {| dash_store := emptyStore; dash_failed := false |}.

(* ================================================================== *)
(** * Properties *)

(** ** Numbers: rounding to the nearest *)

Lemma two_pos (e : Z) : 0 < two e.
Proof. apply Qpower_0_lt. reflexivity. Qed.

Lemma two_plus (a b : Z) : two (a + b) == two a * two b.
Proof. apply Qpower_plus. discriminate. Qed.

Lemma two_le (a b : Z) : (a <= b)%Z -> two a <= two b.
Proof. intros H. apply Qpower_le_compat_l; [exact H | discriminate]. Qed.

Lemma two_lt (a b : Z) : (a < b)%Z -> two a < two b.
Proof. intros H. apply Qpower_lt_compat_l; [exact H | reflexivity]. Qed.

Lemma two_lt_inv (a b : Z) : two a < two b -> (a < b)%Z.
Proof. intros H. apply (Qpower_lt_compat_l_inv 2); [exact H | reflexivity]. Qed.

Lemma two_le_inv (a b : Z) : two a <= two b -> (a <= b)%Z.
Proof. intros H. apply (Qpower_le_compat_l_inv 2); [exact H | reflexivity]. Qed.

Lemma two_Z (n : Z) : (0 <= n)%Z -> two n == inject_Z (2 ^ n).
Proof. intros H. unfold two. rewrite (Zpower_Qpower 2 n H). reflexivity. Qed.


Lemma rhe_comp (p q : Q) : p == q -> roundHalfEven p = roundHalfEven q.
Proof.
  intros E. unfold roundHalfEven.
  rewrite (Qfloor_comp _ _ E).
  assert (C : Qcompare (p - inject_Z (Qfloor q)) (1 # 2) = Qcompare (q - inject_Z (Qfloor q)) (1 # 2)).
  { apply Qcompare_comp; [rewrite E; reflexivity | reflexivity]. }
  rewrite C. reflexivity.
Qed.

Lemma rhe_bounds (q : Q) : (Qfloor q <= roundHalfEven q <= Qfloor q + 1)%Z.
Proof.
  unfold roundHalfEven. destruct (Qcompare _ _); [destruct (Z.even _)| |]; lia.
Qed.

Lemma rhe_Z (k : Z) : roundHalfEven (inject_Z k) = k.
Proof.
  unfold roundHalfEven. rewrite Qfloor_Z.
  assert (E : Qcompare (inject_Z k - inject_Z k) (1 # 2) = Lt).
  { apply (proj1 (Qlt_alt _ _)). generalize (inject_Z k). intros z. lra. }
  rewrite E. reflexivity.
Qed.

Lemma rhe_mono (p q : Q) : p <= q -> (roundHalfEven p <= roundHalfEven q)%Z.
Proof.
  intros L. pose proof (Qfloor_resp_le _ _ L) as F.
  destruct (Z.eq_dec (Qfloor p) (Qfloor q)) as [E|N].
  - unfold roundHalfEven. rewrite E.
    destruct (Qcompare (p - inject_Z (Qfloor q)) (1 # 2)) eqn:Cp;
      destruct (Qcompare (q - inject_Z (Qfloor q)) (1 # 2)) eqn:Cq;
      try (destruct (Z.even (Qfloor q))); try lia;
      try (apply (proj2 (Qeq_alt _ _)) in Cp); try (apply (proj2 (Qeq_alt _ _)) in Cq);
      try (apply (proj2 (Qlt_alt _ _)) in Cp); try (apply (proj2 (Qlt_alt _ _)) in Cq);
      try (apply (proj2 (Qgt_alt _ _)) in Cp); try (apply (proj2 (Qgt_alt _ _)) in Cq);
      exfalso; revert Cp Cq L; generalize (inject_Z (Qfloor q)); intros z Cp Cq L; lra.
  - pose proof (rhe_bounds p). pose proof (rhe_bounds q). lia.
Qed.

Lemma rhe_nonneg (q : Q) : 0 <= q -> (0 <= roundHalfEven q)%Z.
Proof.
  intros H. pose proof (rhe_mono H) as M.
  change (roundHalfEven 0) with (roundHalfEven (inject_Z 0)) in M.
  rewrite (rhe_Z 0) in M. exact M.
Qed.

Lemma roundGrid_comp (c : Z) (x y : Q) : x == y -> roundGrid c x = roundGrid c y.
Proof.
  intros E. unfold roundGrid. rewrite (@rhe_comp (x / two c) (y / two c)); [reflexivity|].
  rewrite E. reflexivity.
Qed.

Lemma roundGrid_mono (c : Z) (x y : Q) : x <= y -> roundGrid c x <= roundGrid c y.
Proof.
  intros L. unfold roundGrid. pose proof (two_pos c) as P.
  apply Qmult_le_compat_r; [|lra].
  rewrite <- Zle_Qle. apply rhe_mono.
  unfold Qdiv. apply Qmult_le_compat_r; [exact L|].
  apply Qlt_le_weak, Qinv_lt_0_compat, P.
Qed.

Lemma roundGrid_fix (c : Z) (x : Q) : onGrid c x -> roundGrid c x == x.
Proof.
  intros (k & E). unfold roundGrid. pose proof (two_pos c) as P.
  rewrite (@rhe_comp (x / two c) (inject_Z k)).
  - rewrite rhe_Z. symmetry. exact E.
  - rewrite E. field. lra.
Qed.

Lemma roundGrid_onGrid (c : Z) (x : Q) : onGrid c (roundGrid c x).
Proof. eexists. reflexivity. Qed.

Lemma roundGrid_nonneg (c : Z) (x : Q) : 0 <= x -> 0 <= roundGrid c x.
Proof.
  intros H. unfold roundGrid. pose proof (two_pos c) as P.
  apply Qmult_le_0_compat; [|lra].
  change 0 with (inject_Z 0). rewrite <- Zle_Qle. apply rhe_nonneg.
  unfold Qdiv. apply Qmult_le_0_compat; [exact H|].
  apply Qlt_le_weak, Qinv_lt_0_compat, P.
Qed.

Lemma onGrid_nested (c c' : Z) (x : Q) : (c <= c')%Z -> onGrid c' x -> onGrid c x.
Proof.
  intros L (k & E). exists (k * 2 ^ (c' - c))%Z.
  rewrite E, inject_Z_mult, <- two_Z by lia.
  replace c' with ((c' - c) + c)%Z at 1 by lia. rewrite two_plus. ring.
Qed.

Lemma onGrid_two (c e : Z) : (c <= e)%Z -> onGrid c (two e).
Proof.
  intros L. apply (@onGrid_nested c e); [exact L|]. exists 1%Z. ring.
Qed.


Lemma ilog2_spec (x : Q) : 0 < x -> two (ilog2 x) <= x /\ x < two (ilog2 x + 1).
Proof.
  intros Hx. destruct x as [n d]. unfold ilog2. simpl Qnum. simpl Qden.
  assert (Hn : (0 < n)%Z).
  { unfold Qlt in Hx. simpl in Hx. lia. }
  destruct (Z.log2_spec n Hn) as [A1 A2].
  destruct (Z.log2_spec (Zpos d) eq_refl) as [B1 B2].
  pose proof (Z.log2_nonneg n) as An. pose proof (Z.log2_nonneg (Zpos d)) as Bn.
  set (a := Z.log2 n) in *. set (b := Z.log2 (Zpos d)) in *.
  assert (X : n # d == inject_Z n / inject_Z (Zpos d)) by apply Qmake_Qdiv.
  assert (Dp : 0 < inject_Z (Zpos d)) by (change 0 with (inject_Z 0); rewrite <- Zlt_Qlt; lia).
  assert (QA1 : two a <= inject_Z n) by (rewrite two_Z by lia; rewrite <- Zle_Qle; exact A1).
  assert (QA2 : inject_Z n < two (a + 1)) by (rewrite two_Z by lia; rewrite <- Zlt_Qlt; replace (a + 1)%Z with (Z.succ a) by lia; exact A2).
  assert (QB1 : two b <= inject_Z (Zpos d)) by (rewrite two_Z by lia; rewrite <- Zle_Qle; exact B1).
  assert (QB2 : inject_Z (Zpos d) < two (b + 1)) by (rewrite two_Z by lia; rewrite <- Zlt_Qlt; replace (b + 1)%Z with (Z.succ b) by lia; exact B2).
  pose proof (two_pos b) as Pb. pose proof (two_pos (b + 1)) as Pb1.
  destruct (Qle_bool (two (a - b)) (n # d)) eqn:C.
  - apply Qle_bool_iff in C. split; [exact C|].
    rewrite X. apply Qlt_shift_div_r; [exact Dp|].
    replace (a - b + 1)%Z with ((a + 1) - b)%Z by lia.
    assert (T : two (a + 1) == two (a + 1 - b) * two b).
    { rewrite <- two_plus. replace (a + 1 - b + b)%Z with (a + 1)%Z by lia. reflexivity. }
    pose proof (two_pos (a + 1 - b)) as Pab.
    apply Qlt_le_trans with (two (a + 1)); [exact QA2|].
    rewrite T. apply Qmult_le_l; [exact Pab | exact QB1].
  - assert (C' : n # d < two (a - b)).
    { apply Qnot_le_lt. intros L. apply Qle_bool_iff in L. congruence. }
    replace (a - b - 1 + 1)%Z with (a - b)%Z by lia. split; [|exact C'].
    rewrite X. apply Qle_shift_div_l; [exact Dp|].
    assert (T : two a == two (a - b - 1) * two (b + 1)).
    { rewrite <- two_plus. replace (a - b - 1 + (b + 1))%Z with a by lia. reflexivity. }
    pose proof (two_pos (a - b - 1)) as Pab.
    apply Qle_trans with (two a); [|exact QA1].
    rewrite T. apply Qmult_le_l; [exact Pab|]. apply Qlt_le_weak, QB2.
Qed.

Lemma ilog2_comp (x y : Q) : 0 < x -> x == y -> ilog2 x = ilog2 y.
Proof.
  intros Hx E. assert (Hy : 0 < y) by (rewrite <- E; exact Hx).
  destruct (ilog2_spec Hx) as [A1 A2]. destruct (ilog2_spec Hy) as [B1 B2].
  assert (L1 : two (ilog2 x) < two (ilog2 y + 1)) by lra.
  assert (L2 : two (ilog2 y) < two (ilog2 x + 1)) by lra.
  apply two_lt_inv in L1, L2. lia.
Qed.

Lemma ilog2_mono (x y : Q) : 0 < x -> x <= y -> (ilog2 x <= ilog2 y)%Z.
Proof.
  intros Hx L. assert (Hy : 0 < y) by lra.
  destruct (ilog2_spec Hx) as [A1 A2]. destruct (ilog2_spec Hy) as [B1 B2].
  assert (L1 : two (ilog2 x) < two (ilog2 y + 1)) by lra.
  apply two_lt_inv in L1. lia.
Qed.

Lemma roundPos_comp (x y : Q) : 0 < x -> x == y -> roundPos x = roundPos y.
Proof.
  intros Hx E. unfold roundPos, ulpExp. rewrite (ilog2_comp Hx E).
  apply roundGrid_comp, E.
Qed.

Lemma roundPos_upper (x : Q) : 0 < x -> roundPos x <= two (ulpExp x + 53).
Proof.
  intros Hx. unfold roundPos. destruct (ilog2_spec Hx) as [_ A2].
  rewrite <- (@roundGrid_fix (ulpExp x) (two (ulpExp x + 53)))
    by (apply onGrid_two; lia).
  apply roundGrid_mono. apply Qlt_le_weak. eapply Qlt_le_trans; [exact A2|].
  apply two_le. unfold ulpExp. lia.
Qed.

Lemma roundPos_nonneg (x : Q) : 0 <= x -> 0 <= roundPos x.
Proof. apply roundGrid_nonneg. Qed.

(** A positive grid point within 53 bits of its grid is left alone. *)
Lemma roundPos_fix (c : Z) (r : Q) :
  (-1074 <= c)%Z -> onGrid c r -> 0 < r -> r <= two (c + 53) -> roundPos r == r.
Proof.
  intros Hc G Hr U. unfold roundPos. apply roundGrid_fix.
  destruct (ilog2_spec Hr) as [A1 A2]. unfold ulpExp.
  destruct (Z_le_gt_dec (ilog2 r - 52) c) as [L|L].
  - apply (@onGrid_nested _ c); [lia | exact G].
  - assert (E : (ilog2 r <= c + 53)%Z).
    { apply two_le_inv. lra. }
    assert (E' : ilog2 r = (c + 53)%Z) by lia.
    rewrite E' in *.
    assert (R : r == two (c + 53)) by lra.
    destruct (onGrid_two (c := Z.max (c + 53 - 52) (-1074)) (e := c + 53)) as (k & Hk); [lia|].
    exists k. rewrite R. exact Hk.
Qed.

Lemma roundPos_mono (x y : Q) : 0 < x -> x <= y -> roundPos x <= roundPos y.
Proof.
  intros Hx L. assert (Hy : 0 < y) by lra.
  pose proof (ilog2_mono Hx L) as M.
  unfold roundPos.
  destruct (Z.eq_dec (ulpExp x) (ulpExp y)) as [E|N].
  - rewrite E. apply roundGrid_mono, L.
  - assert (Lc : (ulpExp x < ulpExp y)%Z) by (unfold ulpExp in *; lia).
    assert (Ey : ulpExp y = (ilog2 y - 52)%Z) by (unfold ulpExp in *; lia).
    assert (Exy : (ilog2 x < ilog2 y)%Z) by (unfold ulpExp in *; lia).
    destruct (ilog2_spec Hx) as [_ A2]. destruct (ilog2_spec Hy) as [B1 _].
    set (b := two (ilog2 y)).
    assert (xb : x <= b).
    { apply Qlt_le_weak. eapply Qlt_le_trans; [exact A2|]. apply two_le. lia. }
    apply Qle_trans with b.
    + rewrite <- (@roundGrid_fix (ulpExp x) b).
      * apply roundGrid_mono, xb.
      * apply onGrid_two. unfold ulpExp in *. lia.
    + rewrite <- (@roundGrid_fix (ulpExp y) b).
      * apply roundGrid_mono, B1.
      * apply onGrid_two. lia.
Qed.




Lemma round64_comp (x y : Q) : x == y -> round64 x = round64 y.
Proof.
  intros E. unfold round64.
  assert (C : Qcompare x 0 = Qcompare y 0) by (apply Qcompare_comp; [exact E | reflexivity]).
  rewrite <- C. destruct (Qcompare x 0) eqn:K.
  - reflexivity.
  - apply (proj2 (Qlt_alt _ _)) in K.
    assert (P : 0 < - x) by lra.
    assert (E' : - x == - y) by (rewrite E; reflexivity).
    rewrite (roundPos_comp P E'). reflexivity.
  - apply (proj2 (Qgt_alt _ _)) in K.
    rewrite (roundPos_comp K E). reflexivity.
Qed.

Lemma round64_0 : round64 0 = Fin 0.
Proof. reflexivity. Qed.

Lemma round64_pos (x : Q) :
  0 < x ->
  round64 x = if Qle_bool (two 1024) (roundPos x) then PosInf
              else Fin (Qred (roundPos x)).
Proof.
  intros H. unfold round64.
  apply (proj1 (Qgt_alt _ _)) in H. rewrite H. reflexivity.
Qed.

Lemma round64_neg (x : Q) :
  x < 0 ->
  round64 x = if Qle_bool (two 1024) (roundPos (- x)) then NegInf
              else Fin (Qred (- roundPos (- x))).
Proof.
  intros H. unfold round64.
  apply (proj1 (Qlt_alt _ _)) in H. rewrite H. reflexivity.
Qed.

Lemma Qred_eq0 (q : Q) : q == 0 -> Qred q = 0.
Proof. intros E. apply (Qred_complete q 0 E). Qed.

(** A number is left alone by the rounding. *)
Lemma round64_idem (x r : Q) : round64 x = Fin r -> round64 r = Fin r.
Proof.
  intros H.
  destruct (Q_dec x 0) as [[N|P]|Z].
  - rewrite (round64_neg N) in H.
    assert (Px : 0 < - x) by lra.
    destruct (Qle_bool (two 1024) (roundPos (- x))) eqn:O; [discriminate H|].
    assert (Hr : r = Qred (- roundPos (- x))) by congruence. clear H. subst r.
    pose proof (roundPos_nonneg (x := - x) ltac:(lra)) as NN.
    destruct (Qle_lt_or_eq _ _ NN) as [Pr|Zr].
    + set (s := roundPos (- x)) in *.
      assert (Ns : Qred (- s) < 0) by (rewrite Qred_correct; lra).
      rewrite (round64_neg Ns).
      assert (F : roundPos (- Qred (- s)) == s).
      { assert (E : - Qred (- s) == s) by (rewrite Qred_correct; ring).
        rewrite (@roundPos_comp (- Qred (- s)) s) by (lra || exact E).
        apply (@roundPos_fix (ulpExp (- x))).
        - unfold ulpExp. lia.
        - apply roundGrid_onGrid.
        - exact Pr.
        - apply roundPos_upper, Px. }
      assert (O' : Qle_bool (two 1024) (roundPos (- Qred (- s))) = false).
      { destruct (Qle_bool (two 1024) (roundPos (- Qred (- s)))) eqn:T; [|reflexivity].
        apply Qle_bool_iff in T. rewrite F in T. apply Qle_bool_iff in T. congruence. }
      rewrite O'. f_equal. apply Qred_complete. rewrite F. reflexivity.
    + assert (E0 : Qred (- roundPos (- x)) = 0) by (apply Qred_eq0; lra).
      rewrite E0. reflexivity.
  - rewrite (round64_pos P) in H.
    destruct (Qle_bool (two 1024) (roundPos x)) eqn:O; [discriminate H|].
    assert (Hr : r = Qred (roundPos x)) by congruence. clear H. subst r.
    pose proof (roundPos_nonneg (x := x) ltac:(lra)) as NN.
    destruct (Qle_lt_or_eq _ _ NN) as [Pr|Zr].
    + set (s := roundPos x) in *.
      assert (Ps : 0 < Qred s) by (rewrite Qred_correct; exact Pr).
      rewrite (round64_pos Ps).
      assert (F : roundPos (Qred s) == s).
      { rewrite (@roundPos_comp (Qred s) s Ps (Qred_correct s)).
        apply (@roundPos_fix (ulpExp x)).
        - unfold ulpExp. lia.
        - apply roundGrid_onGrid.
        - exact Pr.
        - apply roundPos_upper, P. }
      assert (O' : Qle_bool (two 1024) (roundPos (Qred s)) = false).
      { destruct (Qle_bool (two 1024) (roundPos (Qred s))) eqn:T; [|reflexivity].
        apply Qle_bool_iff in T. rewrite F in T. apply Qle_bool_iff in T. congruence. }
      rewrite O'. f_equal. apply Qred_complete. exact F.
    + assert (E0 : Qred (roundPos x) = 0) by (apply Qred_eq0; lra).
      rewrite E0. reflexivity.
  - rewrite (round64_comp Z) in H. rewrite round64_0 in H.
    assert (Hr : r = 0) by congruence. subst r. reflexivity.
Qed.

Lemma round64_nonneg (x : Q) :
  0 <= x -> round64 x = PosInf \/ exists r, round64 x = Fin r /\ 0 <= r.
Proof.
  intros H. destruct (Qle_lt_or_eq _ _ H) as [P|Z].
  - rewrite (round64_pos P).
    destruct (Qle_bool (two 1024) (roundPos x)); [left; reflexivity|].
    right. eexists. split; [reflexivity|]. rewrite Qred_correct.
    apply roundPos_nonneg, H.
  - right. exists 0. split; [|lra].
    rewrite (@round64_comp x 0) by (symmetry; exact Z). reflexivity.
Qed.

Lemma round64_nonpos (x : Q) :
  x <= 0 -> round64 x = NegInf \/ exists r, round64 x = Fin r /\ r <= 0.
Proof.
  intros H. destruct (Qle_lt_or_eq _ _ H) as [P|Z].
  - rewrite (round64_neg P).
    destruct (Qle_bool (two 1024) (roundPos (- x))); [left; reflexivity|].
    right. eexists. split; [reflexivity|]. rewrite Qred_correct.
    pose proof (roundPos_nonneg (x := - x) ltac:(lra)). lra.
  - right. exists 0. split; [|lra].
    rewrite (@round64_comp x 0) by exact Z. reflexivity.
Qed.

Lemma round64_not_NaN (x : Q) : round64 x <> NaN.
Proof.
  unfold round64. destruct (Qcompare x 0); [discriminate| |];
    destruct (Qle_bool _ _); discriminate.
Qed.

(** Rounding keeps the order. *)
Lemma round64_mono (x y : Q) : x <= y -> numLe (round64 x) (round64 y).
Proof.
  intros L.
  destruct (Q_dec x 0) as [[Nx|Px]|Zx].
  - destruct (Q_dec y 0) as [[Ny|Py]|Zy].
    + rewrite (round64_neg Nx), (round64_neg Ny).
      assert (M : roundPos (- y) <= roundPos (- x)) by (apply roundPos_mono; lra).
      destruct (Qle_bool (two 1024) (roundPos (- x))) eqn:Ox;
        [destruct (Qle_bool (two 1024) (roundPos (- y))); exact I|].
      destruct (Qle_bool (two 1024) (roundPos (- y))) eqn:Oy.
      * apply Qle_bool_iff in Oy.
        assert (T : two 1024 <= roundPos (- x)) by lra.
        apply Qle_bool_iff in T. congruence.
      * unfold numLe. rewrite !Qred_correct. lra.
    + destruct (round64_nonpos (x := x) ltac:(lra)) as [->|(r & -> & Hr)];
        destruct (round64_nonneg (x := y) ltac:(lra)) as [->|(s & -> & Hs)];
        try exact I.
      unfold numLe. lra.
    + destruct (round64_nonpos (x := x) ltac:(lra)) as [->|(r & -> & Hr)];
        destruct (round64_nonneg (x := y) ltac:(lra)) as [->|(s & -> & Hs)];
        try exact I.
      unfold numLe. lra.
  - assert (Py : 0 < y) by lra.
    rewrite (round64_pos Px), (round64_pos Py).
    assert (M : roundPos x <= roundPos y) by (apply roundPos_mono; assumption).
    destruct (Qle_bool (two 1024) (roundPos y)) eqn:Oy.
    + destruct (Qle_bool (two 1024) (roundPos x)); exact I.
    + destruct (Qle_bool (two 1024) (roundPos x)) eqn:Ox.
      * apply Qle_bool_iff in Ox.
        assert (T : two 1024 <= roundPos y) by lra.
        apply Qle_bool_iff in T. congruence.
      * unfold numLe. rewrite !Qred_correct. exact M.
  - rewrite (round64_comp Zx), round64_0.
    destruct (round64_nonneg (x := y) ltac:(lra)) as [->|(s & -> & Hs)]; [exact I|].
    unfold numLe. exact Hs.
Qed.

(** A number below a rational stays below its rounding. *)
Lemma round64_ge (m x : Q) :
  round64 m = Fin m -> m <= x -> numLe (Fin m) (round64 x).
Proof.
  intros D L. rewrite <- D. apply round64_mono, L.
Qed.

Lemma round64_le (m x : Q) :
  round64 m = Fin m -> x <= m -> numLe (round64 x) (Fin m).
Proof.
  intros D L. rewrite <- D. apply round64_mono, L.
Qed.

(** The rounding at some known places: one tenth, a tie between two
    integers beyond 53 bits and the next integer up, the two sides of the
    overflow threshold, and the two sides of half the least unit. *)
Lemma round64_examples :
  round64 (1 # 10) = Fin (3602879701896397 # 36028797018963968)
  /\ round64 (inject_Z (2 ^ 53 + 1)) = Fin (inject_Z (2 ^ 53))
  /\ round64 (inject_Z (2 ^ 53 + 3)) = Fin (inject_Z (2 ^ 53 + 4))
  /\ round64 (two 1024 - two 970) = PosInf
  /\ round64 (two 1024 - two 970 - two 900) = Fin (Qred (two 1024 - two 971))
  /\ round64 (- (two 1024 - two 970)) = NegInf
  /\ round64 (two (-1075)) = Fin 0
  /\ round64 (two (-1075) + two (-1100)) = Fin (two (-1074)).
Proof. vm_compute. repeat split. Qed.

Lemma onGrid_comp (c : Z) (x y : Q) : x == y -> onGrid c x -> onGrid c y.
Proof. intros E (k & H). exists k. rewrite <- E. exact H. Qed.

Lemma onGrid_opp (c : Z) (x : Q) : onGrid c x -> onGrid c (- x).
Proof. intros (k & H). exists (- k)%Z. rewrite H, inject_Z_opp. ring. Qed.

Lemma onGrid_plus (c : Z) (x y : Q) : onGrid c x -> onGrid c y -> onGrid c (x + y).
Proof.
  intros (k & H) (k' & H'). exists (k + k')%Z. rewrite H, H', inject_Z_plus. ring.
Qed.

Lemma roundPos_onGrid (x : Q) : onGrid (-1074) (roundPos x).
Proof.
  unfold roundPos. apply (@onGrid_nested (-1074) (ulpExp x)).
  - unfold ulpExp. lia.
  - apply roundGrid_onGrid.
Qed.

(** Every finite number is a multiple of the least unit. *)
Lemma round64_onGrid (x r : Q) : round64 x = Fin r -> onGrid (-1074) r.
Proof.
  unfold round64. destruct (Qcompare x 0).
  - intros H. injection H as <-. exists 0%Z. ring.
  - destruct (Qle_bool _ _); [discriminate|]. intros H.
    assert (E : r = Qred (- roundPos (- x))) by congruence. subst r.
    apply (@onGrid_comp _ (- roundPos (- x))); [symmetry; apply Qred_correct|].
    apply onGrid_opp, roundPos_onGrid.
  - destruct (Qle_bool _ _); [discriminate|]. intros H.
    assert (E : r = Qred (roundPos x)) by congruence. subst r.
    apply (@onGrid_comp _ (roundPos x)); [symmetry; apply Qred_correct|].
    apply roundPos_onGrid.
Qed.

Lemma least_unit : round64 (two (-1074)) = Fin (two (-1074)).
Proof. vm_compute. reflexivity. Qed.

Lemma onGrid_least (x : Q) : onGrid (-1074) x -> 0 < x -> two (-1074) <= x.
Proof.
  intros (k & E) P. pose proof (two_pos (-1074)) as T.
  assert (K : (1 <= k)%Z).
  { destruct (Z_lt_le_dec k 1) as [L|L]; [|exact L]. exfalso.
    assert (inject_Z k <= 0).
    { change 0 with (inject_Z 0). rewrite <- Zle_Qle. lia. }
    assert (inject_Z k * two (-1074) <= 0).
    { setoid_replace 0 with (0 * two (-1074)) by ring.
      apply Qmult_le_compat_r; [assumption | lra]. }
    lra. }
  rewrite E. setoid_replace (two (-1074)) with (1 * two (-1074)) at 1 by ring.
  apply Qmult_le_compat_r; [|lra].
  change 1 with (inject_Z 1). rewrite <- Zle_Qle. exact K.
Qed.

(** A positive multiple of the least unit does not round to zero. *)
Lemma round64_positive (x : Q) :
  onGrid (-1074) x -> 0 < x ->
  round64 x = PosInf \/ exists r, round64 x = Fin r /\ 0 < r.
Proof.
  intros G P. pose proof (@onGrid_least x G P) as L.
  pose proof (@round64_ge (two (-1074)) x least_unit L) as M.
  pose proof (two_pos (-1074)) as T.
  destruct (round64 x) as [r| | |]; unfold numLe in M; try contradiction.
  - right. exists r. split; [reflexivity | lra].
  - left; reflexivity.
Qed.

Lemma representable_onGrid (q : Q) : representable q -> onGrid (-1074) q.
Proof. intros H. exact (@round64_onGrid q q H). Qed.

Lemma round64_representable (x r : Q) : round64 x = Fin r -> representable r.
Proof. apply round64_idem. Qed.

Lemma representable_0 : representable 0.
Proof. reflexivity. Qed.

Lemma representable_1 : representable 1.
Proof. vm_compute. reflexivity. Qed.

(** The difference of two numbers, as computed, has the sign of their exact
    difference. *)
Lemma numSub_sign (a b : Q) :
  representable a -> representable b ->
  Qle_bool (numSign (numSub (Fin b) (Fin a))) 0 = Qle_bool b a.
Proof.
  intros Ha Hb. unfold numSub, numOpp, numAdd.
  assert (G : onGrid (-1074) (b + - a)).
  { apply onGrid_plus; [|apply onGrid_opp]; apply representable_onGrid; assumption. }
  destruct (Q_dec (b + - a) 0) as [[N|P]|Z].
  - assert (Lba : Qle_bool b a = true) by (apply Qle_bool_iff; lra).
    rewrite Lba.
    destruct (@round64_nonpos (b + - a)) as [-> | (r & -> & Hr)]; [lra | reflexivity |].
    simpl. apply Qle_bool_iff. exact Hr.
  - assert (Lba : Qle_bool b a = false).
    { destruct (Qle_bool b a) eqn:E; [|reflexivity].
      apply Qle_bool_iff in E. lra. }
    rewrite Lba.
    destruct (@round64_positive (b + - a) G P) as [-> | (r & -> & Hr)]; [reflexivity|].
    simpl. destruct (Qle_bool r 0) eqn:E; [|reflexivity].
    apply Qle_bool_iff in E. lra.
  - rewrite (@round64_comp (b + - a) 0 Z). simpl.
    symmetry. apply Qle_bool_iff. lra.
Qed.

Lemma numLeb_le (a b : Num) : numLeb a b = true <-> numLe a b.
Proof.
  destruct a, b; simpl; try (split; [intros; discriminate | intros []]);
    try (split; [intros; exact I | reflexivity]).
  apply Qle_bool_iff.
Qed.

Lemma numLe_trans (a b c : Num) : numLe a b -> numLe b c -> numLe a c.
Proof.
  destruct a, b, c; simpl; try tauto. intros; lra.
Qed.

Lemma numLe_refl (a : Num) : a <> NaN -> numLe a a.
Proof. destruct a; simpl; intros H; try exact I; [lra | congruence]. Qed.

Lemma numLeb_total (a b : Num) :
  a <> NaN -> b <> NaN -> numLeb a b = false -> numLe b a.
Proof.
  destruct a, b; simpl; intros Ha Hb H; try exact I; try congruence.
  destruct (Qle_bool q q0) eqn:E; [discriminate|].
  apply Qlt_le_weak, Qnot_le_lt. intros L. apply Qle_bool_iff in L. congruence.
Qed.

Lemma comparable_not_NaN (x : Num) : comparable x -> x <> NaN.
Proof. destruct x; simpl; intros H; [discriminate..|contradiction]. Qed.

Lemma round64_comparable (x : Q) : comparable (round64 x).
Proof.
  destruct (round64 x) eqn:E; simpl; try exact I.
  - exact (@round64_idem x q E).
  - exact (@round64_not_NaN x E).
Qed.

(** The comparator [b - a] of a descending sort, on numbers other than
    [NaN]: its sign test is the comparison. *)
Lemma numSub_numLeb (a b : Num) :
  comparable a -> comparable b ->
  Qle_bool (numSign (numSub b a)) 0 = numLeb b a.
Proof.
  destruct a as [a| | |], b as [b| | |]; simpl; intros Ha Hb;
    try contradiction; try reflexivity.
  apply (@numSub_sign a b Ha Hb).
Qed.

Lemma numAdd_comparable (a : Num) (v : Q) : comparable a -> comparable (numAdd a (Fin v)).
Proof.
  destruct a; simpl; intros H; try exact I; try contradiction.
  apply round64_comparable.
Qed.

Lemma sumOf_comparable (arr : list Q) : comparable (sumOf arr).
Proof.
  unfold sumOf. assert (H : comparable (Fin 0)) by exact representable_0.
  revert H. generalize (Fin 0). induction arr as [|v arr IH]; intros acc H; simpl.
  - exact H.
  - apply IH, numAdd_comparable, H.
Qed.

Lemma meanOf_comparable (arr : list Q) : comparable (meanOf arr).
Proof.
  unfold meanOf. pose proof (sumOf_comparable arr) as H.
  destruct (sumOf arr); simpl in *; try exact I; try contradiction.
  apply round64_comparable.
Qed.

(** The end of a window is not before its start. *)
Lemma endMinuteOf_ge (m w : Q) :
  representable m -> 1 <= w -> numLe (Fin m) (endMinuteOf m w).
Proof.
  intros Hm Hw. unfold endMinuteOf.
  destruct (@round64_nonneg (w - 1)) as [-> | (r & -> & Hr)]; [lra | exact I |].
  simpl. apply round64_ge; [exact Hm | lra].
Qed.

Section CoerceFacts.
Context {host : Coercions}.

(** What [Number(x)] gives, when finite, is a number. *)
Lemma toNumber_representable (x : option Value) (q : Q) :
  toNumber x = Some q -> representable q.
Proof.
  assert (F : forall y, finite (round64 y) = Some q -> representable q).
  { intros y H. destruct (round64 y) eqn:E; try discriminate H.
    simpl in H. injection H as ->. exact (@round64_idem y q E). }
  destruct x as [[v|s0|b| |neg|]|]; simpl; try discriminate.
  - apply F.
  - destruct (StringToNumber s0); [apply F | discriminate].
  - intros H. injection H as <-. destruct b; [exact representable_1 | exact representable_0].
  - intros H. injection H as <-. exact representable_0.
Qed.

Lemma safeNumber_representable (x : option Value) : representable (safeNumber x).
Proof.
  unfold safeNumber, safeNumberOr. destruct (toNumber x) eqn:E.
  - exact (@toNumber_representable x q E).
  - exact representable_0.
Qed.

(** A number cell that holds a number reads back as it is. *)
Lemma safeNumber_VNum (q : Q) :
  representable q -> safeNumber (Some (VNum q)) = q.
Proof.
  intros H. unfold safeNumber, safeNumberOr, toNumber. rewrite H. reflexivity.
Qed.
End CoerceFacts.

(** ** Strings, sorting and objects *)

Lemma jseqb_eq (a b : jsstring) : jseqb a b = true <-> a = b.
Proof.
  revert b; induction a as [|x a IH]; intros [|y b]; simpl; split;
    try congruence; try reflexivity.
  - rewrite andb_true_iff, Z.eqb_eq, IH. intros [-> ->]; reflexivity.
  - intros E; injection E as -> ->.
    rewrite andb_true_iff, Z.eqb_eq, IH; auto.
Qed.

Lemma jseqb_refl (a : jsstring) : jseqb a a = true.
Proof. apply jseqb_eq; reflexivity. Qed.

Lemma jseqb_neq (a b : jsstring) : a <> b -> jseqb a b = false.
Proof.
  intros N. destruct (jseqb a b) eqn:E; [|reflexivity].
  apply jseqb_eq in E; contradiction.
Qed.

Lemma jseqb_false (a b : jsstring) : jseqb a b = false -> a <> b.
Proof. intros E ->. rewrite jseqb_refl in E; discriminate. Qed.

Lemma existsb_jseqb (k : jsstring) (l : list jsstring) :
  existsb (jseqb k) l = true <-> In k l.
Proof.
  rewrite existsb_exists; split.
  - intros (x & Hx & E). apply jseqb_eq in E; subst; assumption.
  - intros H; exists k; split; [assumption | apply jseqb_refl].
Qed.

Section SortFacts.
Variable A : Type.
Variable cmp : A -> A -> Q.

Lemma insertSorted_perm (x : A) (l : list A) :
  Permutation (insertSorted cmp x l) (x :: l).
Proof.
  induction l as [|y l IH]; simpl; [reflexivity|].
  destruct (Qle_bool (cmp x y) 0); [reflexivity|].
  rewrite IH. apply perm_swap.
Qed.

Lemma sortBy_perm (l : list A) : Permutation (sortBy cmp l) l.
Proof.
  induction l as [|x l IH]; simpl; [reflexivity|].
  rewrite insertSorted_perm. constructor; assumption.
Qed.

Lemma sortBy_In (l : list A) (x : A) : In x (sortBy cmp l) <-> In x l.
Proof.
  split; apply Permutation_in; [|symmetry]; apply sortBy_perm.
Qed.

Lemma sortBy_NoDup (l : list A) : NoDup l -> NoDup (sortBy cmp l).
Proof.
  intros H. eapply Permutation_NoDup; [symmetry; apply sortBy_perm | exact H].
Qed.
End SortFacts.

Module ObjFacts.
Section Facts.
Variable A : Type.
Implicit Types (o : Obj.t A) (k : jsstring) (v : A).

Lemma get_set_eq o k v : Obj.get k (Obj.set k v o) = Some v.
Proof.
  induction o as [|[k' v'] o IH]; simpl.
  - rewrite jseqb_refl; reflexivity.
  - destruct (jseqb k k') eqn:E; simpl.
    + rewrite jseqb_refl; reflexivity.
    + rewrite E; exact IH.
Qed.

Lemma get_set_ne o k k' v :
  k <> k' -> Obj.get k' (Obj.set k v o) = Obj.get k' o.
Proof.
  intros N. induction o as [|[k0 v0] o IH]; simpl.
  - rewrite (jseqb_neq (a := k') (b := k)); congruence.
  - destruct (jseqb k k0) eqn:E; simpl.
    + apply jseqb_eq in E; subst k0.
      rewrite (jseqb_neq (a := k') (b := k)); congruence.
    + rewrite IH; reflexivity.
Qed.

(** Writing the same value under the same key twice is writing it once. *)
Lemma set_set o k v : Obj.set k v (Obj.set k v o) = Obj.set k v o.
Proof.
  induction o as [|[k' v'] o IH]; simpl.
  - rewrite jseqb_refl; reflexivity.
  - destruct (jseqb k k') eqn:E; simpl.
    + rewrite jseqb_refl; reflexivity.
    + rewrite E, IH; reflexivity.
Qed.

Lemma keys_set o k v k' :
  In k' (map fst (Obj.set k v o)) <-> k' = k \/ In k' (map fst o).
Proof.
  induction o as [|[k0 v0] o IH]; simpl.
  - intuition congruence.
  - destruct (jseqb k k0) eqn:E; simpl.
    + apply jseqb_eq in E; subst k0. intuition congruence.
    + rewrite IH. intuition congruence.
Qed.

Lemma get_In o k : Obj.get k o <> None <-> In k (map fst o).
Proof.
  induction o as [|[k0 v0] o IH]; simpl; [tauto|].
  destruct (jseqb k k0) eqn:E.
  - apply jseqb_eq in E; subst; split; [auto | discriminate].
  - apply jseqb_false in E. rewrite IH. intuition congruence.
Qed.

(** The enumeration of the keys lists exactly the keys. *)
Lemma ownKeys_In o k : In k (Obj.ownKeys o) <-> In k (map fst o).
Proof.
  unfold Obj.ownKeys. rewrite in_app_iff, sortBy_In, !filter_In.
  destruct (Obj.isIndex k); simpl; intuition congruence.
Qed.

Lemma ownKeys_set o k v k' :
  In k' (Obj.ownKeys (Obj.set k v o)) <-> k' = k \/ In k' (Obj.ownKeys o).
Proof. rewrite !ownKeys_In. apply keys_set. Qed.

Lemma ownKeys_get o k : In k (Obj.ownKeys o) <-> Obj.get k o <> None.
Proof. rewrite ownKeys_In. symmetry; apply get_In. Qed.
End Facts.
End ObjFacts.

(** ** The store: derived episodes *)

(** The branches of [ingestFileText] on [file]: unrecognised, global
    scalar-stats (parsed or not), basic stats (no episode, parsed or not) and
    per-episode table (no episode, parsed or not). *)
Ltac ingest_cases file :=
  unfold ingest, ingestFileText in *;
  destruct (detectTableKey (fst file)) as [?d|];
  [ destruct (jseqb (det_key _) KEY_EPISODE_STATS);
    [ destruct (parseCsv (snd file)) as [?rows|]
    | destruct (jseqb (det_key _) KEY_BASIC_STATS);
      [ destruct (det_ep _) as [?ep|];
        [ destruct (JSON_parse (snd file)) as [?obj|] | ]
      | destruct (det_ep _) as [?ep|];
        [ destruct (parseCsv (snd file)) as [?rows|] | ] ] ]
  | ].

Section StoreFacts.
Context {host : Coercions}.

Lemma setAdd_In (ep : jsstring) (eps : list jsstring) (e : jsstring) :
  In e (setAdd ep eps) <-> In e eps \/ e = ep.
Proof.
  unfold setAdd. destruct (existsb (jseqb ep) eps) eqn:E.
  - apply existsb_jseqb in E. intuition congruence.
  - rewrite in_app_iff; simpl. intuition congruence.
Qed.

Lemma setAdd_NoDup (ep : jsstring) (eps : list jsstring) :
  NoDup eps -> NoDup (setAdd ep eps).
Proof.
  intros H. unfold setAdd. destruct (existsb (jseqb ep) eps) eqn:E; [assumption|].
  assert (N : ~ In ep eps).
  { intros I. apply existsb_jseqb in I. congruence. }
  clear E. induction H as [|x l Hx Hl IH]; simpl.
  - constructor; [intros []| constructor].
  - constructor.
    + rewrite in_app_iff; simpl. intros [I|[->|[]]]; [contradiction|].
      apply N; left; reflexivity.
    + apply IH. intros I; apply N; right; assumption.
Qed.

Lemma fold_setAdd_In (ks acc : list jsstring) (e : jsstring) :
  In e (fold_left (fun eps ep => setAdd ep eps) ks acc) <-> In e acc \/ In e ks.
Proof.
  revert acc; induction ks as [|k ks IH]; intros acc; simpl; [tauto|].
  rewrite IH, setAdd_In. intuition congruence.
Qed.

Lemma fold_setAdd_NoDup (ks acc : list jsstring) :
  NoDup acc -> NoDup (fold_left (fun eps ep => setAdd ep eps) ks acc).
Proof.
  revert acc; induction ks as [|k ks IH]; intros acc H; simpl; [assumption|].
  apply IH, setAdd_NoDup, H.
Qed.

Let addRow := fun (eps : list jsstring) (r : Row) =>
  let ep := rowEpisode r in
  match ep with
  | [] => eps
  | _ => setAdd ep eps
  end.

Lemma fold_rows_In (rows : list Row) (acc : list jsstring) (e : jsstring) :
  In e (fold_left addRow rows acc)
  <-> In e acc \/ In e (embeddedEpisodes (Some rows)).
Proof.
  unfold embeddedEpisodes.
  revert acc; induction rows as [|r rows IH]; intros acc; simpl; [tauto|].
  rewrite IH. unfold addRow.
  destruct (rowEpisode r) as [|c ep'] eqn:E; simpl; [tauto|].
  rewrite setAdd_In. intuition congruence.
Qed.

Lemma fold_rows_NoDup (rows : list Row) (acc : list jsstring) :
  NoDup acc -> NoDup (fold_left addRow rows acc).
Proof.
  revert acc; induction rows as [|r rows IH]; intros acc H; simpl; [assumption|].
  apply IH. unfold addRow. destruct (rowEpisode r); [assumption|].
  apply setAdd_NoDup, H.
Qed.

(** [mergeEpisodes] returns the union of the three sources. *)
Lemma mergeEpisodes_In (t : Obj.t TableMap) (b : Obj.t Json)
      (s : option (list Row)) (e : jsstring) :
  In e (mergeEpisodes t b s)
  <-> In e (Obj.ownKeys t) \/ In e (Obj.ownKeys b) \/ In e (embeddedEpisodes s).
Proof.
  unfold mergeEpisodes. rewrite sortBy_In.
  fold addRow.
  destruct s as [rows|].
  - rewrite fold_rows_In, !fold_setAdd_In. simpl. tauto.
  - simpl. rewrite !fold_setAdd_In. unfold embeddedEpisodes; simpl. tauto.
Qed.

Lemma mergeEpisodes_NoDup (t : Obj.t TableMap) (b : Obj.t Json)
      (s : option (list Row)) :
  NoDup (mergeEpisodes t b s).
Proof.
  unfold mergeEpisodes. apply sortBy_NoDup. fold addRow.
  apply fold_rows_NoDup, fold_setAdd_NoDup, fold_setAdd_NoDup. constructor.
Qed.

(** Every ingest leaves the episode list recomputed from the store. *)
Lemma ingest_derived (st : Store) (file : jsstring * FileText) :
  episodesDerived st -> episodesDerived (ingest st file).
Proof.
  intros H. ingest_cases file; solve [exact H | reflexivity].
Qed.

Lemma ingest_fold_derived (files : list (jsstring * FileText)) (st : Store) :
  episodesDerived st -> episodesDerived (fold_left ingest files st).
Proof.
  revert st; induction files as [|f files IH]; intros st H; simpl; [exact H|].
  apply IH, ingest_derived, H.
Qed.

Lemma ingestAll_derived (files : list (jsstring * FileText)) :
  episodesDerived (ingestAll files).
Proof. apply ingest_fold_derived. reflexivity. Qed.

(** C5.  After every sequence of ingest operations the derived episode list
    lists, without repetition, exactly the episode keys of the per-episode
    table map, the episode keys of the basic-stats map and the episode
    identifiers embedded in the rows of the global scalar-stats table. *)
Theorem episodes_are_the_union (files : list (jsstring * FileText)) :
  let st := ingestAll files in
  NoDup (episodes st)
  /\ forall e : jsstring,
      In e (episodes st)
      <-> In e (Obj.ownKeys (tablesByEp st))
          \/ In e (Obj.ownKeys (basicStatsByEp st))
          \/ In e (embeddedEpisodes (episodeStats st)).
Proof.
  intros st. pose proof (ingestAll_derived files) as H. fold st in H.
  unfold episodesDerived in H. rewrite H. split.
  - apply mergeEpisodes_NoDup.
  - intros e. apply mergeEpisodes_In.
Qed.
End StoreFacts.

(** ** The store: what an ingest keeps and what it changes *)

Section IngestFacts.
Context {host : Coercions}.

Lemma derived_In (st : Store) (e : jsstring) :
  episodesDerived st ->
  (In e (episodes st)
   <-> In e (Obj.ownKeys (tablesByEp st))
       \/ In e (Obj.ownKeys (basicStatsByEp st))
       \/ In e (embeddedEpisodes (episodeStats st))).
Proof. intros H. rewrite H. apply mergeEpisodes_In. Qed.

(** C2, as amended.  After any sequence of ingests, one more ingest keeps
    every known episode that is a key of the per-episode tables or of the
    basic stats, and keeps every known episode whatsoever unless the file is
    the global scalar-stats table (whose rows are replaced as a whole). *)
Theorem known_episode_kept (files : list (jsstring * FileText))
        (file : jsstring * FileText) (e : jsstring) :
  let st := ingestAll files in
  In e (episodes st) ->
  isGlobalStats (fst file) = false
  \/ In e (Obj.ownKeys (tablesByEp st))
  \/ In e (Obj.ownKeys (basicStatsByEp st)) ->
  In e (episodes (ingest st file)).
Proof.
  intros st Hin Hcase.
  pose proof (ingestAll_derived files) as D. fold st in D.
  pose proof (ingest_derived file D) as D'.
  apply (derived_In e D'). apply (derived_In e D) in Hin.
  unfold isGlobalStats in Hcase.
  ingest_cases file; try exact Hin; simpl.
  - destruct Hcase as [F|[K|K]]; [discriminate F | tauto | tauto].
  - rewrite ObjFacts.ownKeys_set. tauto.
  - rewrite ObjFacts.ownKeys_set. tauto.
Qed.

(** C6.  Ingesting the same file (same name, same text) twice in a row gives
    the store that ingesting it once gives, whatever the store and the kind
    of the file. *)
Theorem ingest_idempotent (st : Store) (file : jsstring * FileText) :
  ingest (ingest st file) file = ingest st file.
Proof.
  ingest_cases file; try reflexivity.
  - unfold putBasicStats; simpl. rewrite ObjFacts.set_set. reflexivity.
  - unfold putTable; simpl.
    rewrite ObjFacts.get_set_eq, !ObjFacts.set_set. reflexivity.
Qed.

(** C10.  Ingesting a file classified as the per-episode CSV table [key] of
    episode [ep] leaves the global scalar-stats table, the basic stats and
    the list of loaded files as they were, leaves every other episode's
    tables and every other table of [ep] as they were, and recomputes the
    derived episode list. *)
Theorem episode_table_frame (st : Store) (name : jsstring) (text : FileText)
        (key ep : jsstring) :
  isEpisodeTable name key ep ->
  let st' := ingest st (name, text) in
  episodeStats st' = episodeStats st
  /\ basicStatsByEp st' = basicStatsByEp st
  /\ loadedFiles st' = loadedFiles st
  /\ (forall ep', ep' <> ep ->
        Obj.get ep' (tablesByEp st') = Obj.get ep' (tablesByEp st))
  /\ (forall ep' key', (ep', key') <> (ep, key) ->
        tableOf st' ep' key' = tableOf st ep' key')
  /\ (episodesDerived st -> episodesDerived st').
Proof.
  intros (Hd & N1 & N2) st'.
  assert (D : episodesDerived st -> episodesDerived st')
    by (intros D; apply ingest_derived, D).
  subst st'. revert D. unfold ingest, ingestFileText; simpl fst; simpl snd.
  rewrite Hd; simpl det_key; simpl det_ep.
  rewrite (jseqb_neq N1), (jseqb_neq N2).
  destruct (parseCsv text) as [rows|]; [|intros D; repeat split; exact D].
  intros D. simpl. repeat split; try exact D.
  - intros ep' Hne. apply ObjFacts.get_set_ne. congruence.
  - intros ep' key' Hne. unfold tableOf; simpl.
    destruct (list_eq_dec Z.eq_dec ep' ep) as [->|Hep].
    + rewrite ObjFacts.get_set_eq.
      assert (Hk : key <> key') by congruence.
      rewrite (ObjFacts.get_set_ne _ _ Hk).
      destruct (Obj.get ep (tablesByEp st)); reflexivity.
    + rewrite ObjFacts.get_set_ne by congruence. reflexivity.
Qed.
End IngestFacts.

(** C2, as stated, fails: the second global scalar-stats upload replaces the
    rows of the first, and episode 5, known only through them, is gone. *)
Lemma known_episode_lost :
  let st := @ingestAll digitsHost [(js "episode_stats.csv", csvText [statsRow 5])] in
  let st' := @ingest digitsHost st (js "episode_stats.csv", csvText [statsRow 6]) in
  In (js "5") (episodes st) /\ ~ In (js "5") (episodes st')
  /\ episodes st' = [js "6"].
Proof.
  vm_compute. split; [left; reflexivity|]. split; [|reflexivity].
  intros [H|[]]; discriminate H.
Qed.

Lemma known_episode_kept_witness :
  let st := @ingestAll digitsHost [(js "episode_stats.csv", csvText [statsRow 5])] in
  In (js "5")
     (episodes (@ingest digitsHost st
                  (js "danmaku_emo_dist_ep6.csv", csvText []))).
Proof.
  apply (@known_episode_kept digitsHost
           [(js "episode_stats.csv", csvText [statsRow 5])]
           (js "danmaku_emo_dist_ep6.csv", csvText []) (js "5")).
  - vm_compute. left; reflexivity.
  - left. vm_compute. reflexivity.
Defined.

Lemma episode_table_frame_witness :
  let st := @ingestAll digitsHost [(js "episode_stats.csv", csvText [statsRow 5])] in
  let st' := @ingest digitsHost st (js "danmaku_emo_dist_ep6.csv", csvText []) in
  episodeStats st' = episodeStats st
  /\ tableOf st' (js "6") TABLE_KEYS.DANMU_FUNC = tableOf st (js "6") TABLE_KEYS.DANMU_FUNC.
Proof.
  intros st st'.
  assert (C : isEpisodeTable (js "danmaku_emo_dist_ep6.csv")
                             TABLE_KEYS.DANMU_EMO (js "6")).
  { split; [vm_compute; reflexivity|]. split; vm_compute; discriminate. }
  destruct (@episode_table_frame digitsHost st (js "danmaku_emo_dist_ep6.csv")
              (csvText []) TABLE_KEYS.DANMU_EMO (js "6") C)
    as (H1 & _ & _ & _ & H5 & _).
  split; [exact H1|]. apply H5. vm_compute. discriminate.
Defined.

(** ** The peak of a series *)

Lemma Qltb_lt (a b : Q) : Qltb a b = true <-> a < b.
Proof.
  unfold Qltb. rewrite negb_true_iff. split.
  - intros H. apply Qnot_le_lt. intros L.
    apply Qle_bool_iff in L. congruence.
  - intros H. destruct (Qle_bool b a) eqn:E; [|reflexivity].
    apply Qle_bool_iff in E. exfalso. exact (Qlt_not_le _ _ H E).
Qed.

Lemma Qltb_ge (a b : Q) : Qltb a b = false <-> b <= a.
Proof.
  unfold Qltb. rewrite negb_false_iff. apply Qle_bool_iff.
Qed.

Section PeakFacts.
Context {host : Coercions}.
Variable seriesKey : jsstring.

Let val := seriesValue seriesKey.
Let best (r : Row) : option Q * option Q := (Some (minuteOf r), Some (val r)).

(** The scan keeps the first row whose value no later row exceeds. *)
Lemma peak_scan (rest pre0 mid0 : list Row) (r0 : Row) :
  (forall x, In x pre0 -> val x < val r0) ->
  (forall x, In x mid0 -> val x <= val r0) ->
  exists pre r post,
    pre0 ++ r0 :: mid0 ++ rest = pre ++ r :: post
    /\ fold_left (peakStep seriesKey) rest (best r0) = best r
    /\ (forall x, In x pre -> val x < val r)
    /\ (forall x, In x post -> val x <= val r).
Proof.
  revert pre0 mid0 r0.
  induction rest as [|a rest IH]; intros pre0 mid0 r0 Hpre Hmid.
  - exists pre0, r0, mid0. rewrite app_nil_r. auto.
  - simpl fold_left. unfold peakStep at 2. simpl snd. fold val.
    destruct (Qltb (val r0) (val a)) eqn:E.
    + apply Qltb_lt in E.
      destruct (IH (pre0 ++ r0 :: mid0) [] a) as (pre & r & post & Heq & Hf & H1 & H2).
      * intros x Hx. apply in_app_or in Hx. destruct Hx as [Hx|[<-|Hx]].
        -- eapply Qlt_trans; [apply Hpre, Hx | exact E].
        -- exact E.
        -- eapply Qle_lt_trans; [apply Hmid, Hx | exact E].
      * intros x [].
      * exists pre, r, post. split; [|auto].
        rewrite <- Heq. simpl. rewrite <- app_assoc. reflexivity.
    + apply Qltb_ge in E.
      destruct (IH pre0 (mid0 ++ [a]) r0) as (pre & r & post & Heq & Hf & H1 & H2).
      * exact Hpre.
      * intros x Hx. apply in_app_or in Hx. destruct Hx as [Hx|[<-|[]]]; auto.
      * exists pre, r, post. split; [|auto].
        rewrite <- Heq, <- app_assoc. reflexivity.
Qed.

Lemma computePeak_cons (a : Row) (rest : list Row) :
  exists pre r post,
    a :: rest = pre ++ r :: post
    /\ computePeak (a :: rest) seriesKey =
         (if Qltb (val r) 0 then None
          else Some {| peak_minute := minuteOf r; peak_value := val r |})
    /\ (forall x, In x pre -> val x < val r)
    /\ (forall x, In x post -> val x <= val r).
Proof.
  destruct (@peak_scan rest [] [] a) as (pre & r & post & Heq & Hf & H1 & H2).
  - intros x [].
  - intros x [].
  - exists pre, r, post. split; [exact Heq|]. split; [|auto].
    unfold computePeak. simpl fold_left.
    unfold peakStep at 2. simpl snd. cbv iota.
    change (Some (minuteOf a), Some (seriesValue seriesKey a)) with (best a).
    rewrite Hf. reflexivity.
Qed.

(** C4, as amended.  [computePeak] returns none exactly when the series is
    empty or every value of the key is negative; otherwise it returns the
    minute and the value of the first row, in the order the rows are given,
    whose value is the maximum.  On [(1,5), (2,9), (3,3)] it returns minute 2
    and value 9. *)
Theorem computePeak_first_maximum (curveRows : list Row) :
  (computePeak curveRows seriesKey = None
   <-> curveRows = [] \/ forall x, In x curveRows -> val x < 0)
  /\ (forall p, computePeak curveRows seriesKey = Some p ->
      exists pre r post,
        curveRows = pre ++ r :: post
        /\ peak_minute p = minuteOf r /\ peak_value p = val r
        /\ (forall x, In x pre -> val x < val r)
        /\ (forall x, In x post -> val x <= val r))
  /\ computePeak [curveRow 1 5; curveRow 2 9; curveRow 3 3] (js "v")
     = Some {| peak_minute := 2; peak_value := 9 |}.
Proof.
  split; [|split; [|reflexivity]].
  - destruct curveRows as [|a rest].
    + split; [left; reflexivity | reflexivity].
    + destruct (computePeak_cons a rest) as (pre & r & post & Heq & Hc & H1 & H2).
      rewrite Hc, Heq. destruct (Qltb (val r) 0) eqn:E.
      * apply Qltb_lt in E. split; [|reflexivity].
        intros _. right. intros x Hx.
        apply in_app_or in Hx. destruct Hx as [Hx|[<-|Hx]].
        -- eapply Qlt_trans; [apply H1, Hx | exact E].
        -- exact E.
        -- eapply Qle_lt_trans; [apply H2, Hx | exact E].
      * apply Qltb_ge in E. split; [discriminate|].
        intros [H|H].
        -- destruct pre; discriminate H.
        -- exfalso. apply (Qlt_not_le _ _ (H r (in_elt r pre post)) E).
  - intros p Hp. destruct curveRows as [|a rest]; [discriminate Hp|].
    destruct (computePeak_cons a rest) as (pre & r & post & Heq & Hc & H1 & H2).
    rewrite Hc in Hp. destruct (Qltb (val r) 0); [discriminate Hp|].
    injection Hp as <-. exists pre, r, post. simpl. auto.
Qed.
End PeakFacts.

(** C4, as stated, fails on a series that is not sorted by minute: of two
    rows holding the maximum 9, the first given (minute 3) is returned,
    although minute 1 comes first once the rows are sorted by minute. *)
Lemma computePeak_not_by_sorted_order :
  let series := [curveRow 3 9; curveRow 1 9] in
  @sortByMinute digitsHost series = [curveRow 1 9; curveRow 3 9]
  /\ @computePeak digitsHost (@sortByMinute digitsHost series) (js "v")
     = Some {| peak_minute := 1; peak_value := 9 |}
  /\ @computePeak digitsHost series (js "v")
     = Some {| peak_minute := 3; peak_value := 9 |}.
Proof. vm_compute. repeat split. Qed.

Lemma computePeak_first_maximum_witness :
  exists pre r post,
    [curveRow 3 9; curveRow 1 9] = pre ++ r :: post
    /\ 3 = @minuteOf digitsHost r
    /\ (forall x, In x pre -> @seriesValue digitsHost (js "v") x
                              < @seriesValue digitsHost (js "v") r).
Proof.
  destruct (@computePeak_first_maximum digitsHost (js "v")
              [curveRow 3 9; curveRow 1 9]) as (_ & H & _).
  destruct (H {| peak_minute := 3; peak_value := 9 |})
    as (pre & r & post & H1 & H2 & _ & H4 & _).
  - vm_compute. reflexivity.
  - exists pre, r, post. simpl in H2. auto.
Defined.

(** ** The distribution aggregator *)

Section AggregatorFacts.
Context {host : Coercions}.

Lemma hasAnyRows_false (store : Store) (eps : list jsstring) (tableKey : jsstring) :
  (forall ep, In ep eps -> distOf store ep tableKey = []) ->
  hasAnyRows store eps tableKey = false.
Proof.
  intros H. unfold hasAnyRows.
  induction eps as [|ep eps IH]; simpl; [reflexivity|].
  rewrite IH by (intros; apply H; right; assumption).
  specialize (H ep (or_introl eq_refl)). unfold distOf in H.
  destruct (tableOf store ep tableKey) as [[|r rows]|];
    [reflexivity | discriminate H | reflexivity].
Qed.

(** C8.  Whatever the comparison kind, when none of the selected episodes
    has a row in the table the kind reads, the aggregator returns the empty
    result: no rows and no categories. *)
Theorem no_rows_no_data (store : Store) (distCompareEps : list jsstring)
        (distKind : DistKind) (distStackTopN : Q) :
  (forall ep, In ep distCompareEps ->
              distOf store ep (distTableKey distKind) = []) ->
  exists r,
    distCompareData store distCompareEps distKind distStackTopN = Returned r
    /\ r = noDistData /\ dc_rows r = [] /\ dc_keys r = [].
Proof.
  intros H. exists noDistData. split; [|repeat split].
  unfold distCompareData.
  destruct distCompareEps as [|ep eps]; [reflexivity|].
  rewrite (hasAnyRows_false _ _ _ H).
  destruct (isEmoKind distKind); reflexivity.
Qed.

(** C1, as amended.  On the two episodes of the scenario with [topN = 2],
    which the aggregator raises to 3, every tag is scored by the mean of the
    ratios observed for it (spoiler and hype the number nearest to 2/5,
    other_tag the number nearest to 3/10, greet 1/4); the named categories
    are spoiler, hype and other_tag, and the rows show [other] = the number
    nearest to 2/5 for episode 1 and, for episode 2, 1 less the number
    nearest to 9/10, which is below the number nearest to 1/10 and prints
    as 0.09999999999999998. *)
Theorem scenario_top_categories :
  let eps := [js "1"; js "2"] in
  exists funcMean r,
    collectFuncMean scenarioStore eps TABLE_KEYS.DANMU_FUNC = Returned funcMean
    /\ distCompareData scenarioStore eps func_danmaku 2 = Returned r
    /\ funcScores funcMean
       = [ (js "spoiler", round64 (2 # 5)); (js "hype", round64 (2 # 5));
           (js "other_tag", round64 (3 # 10)); (js "greet", Fin (1 # 4)) ]
    /\ dc_keys r = [js "spoiler"; js "hype"; js "other_tag"; js "other"]
    /\ map (fun row => (Obj.get (js "ep") row, shown row (js "other"))) (dc_rows r)
       = [ (Some (VStr (js "1")), round64 (2 # 5));
           (Some (VStr (js "2")), numSub (Fin 1) (round64 (9 # 10))) ]
    /\ numSub (Fin 1) (round64 (9 # 10))
       = Fin (900719925474099 # 9007199254740992)
    /\ round64 (1 # 10) = Fin (3602879701896397 # 36028797018963968)
    /\ (900719925474099 # 9007199254740992)
       < (3602879701896397 # 36028797018963968).
Proof.
  cbv zeta. eexists. eexists.
  split; [vm_compute; reflexivity|].
  split; [vm_compute; reflexivity|].
  vm_compute. repeat split.
Qed.
End AggregatorFacts.

(** C1, as stated, fails: greet is not among the selected categories, hype
    and other_tag are, and the residuals are the numbers nearest to 2/5 and
    just below 1/10, not those nearest to 3/10 and 2/5. *)
Lemma scenario_not_greet_spoiler :
  exists r,
    @distCompareData digitsHost scenarioStore [js "1"; js "2"] func_danmaku 2
    = Returned r
    /\ ~ In (js "greet") (dc_keys r)
    /\ In (js "hype") (dc_keys r)
    /\ In (js "other_tag") (dc_keys r)
    /\ map (fun row => shown row (js "other")) (dc_rows r)
       <> [round64 (3 # 10); round64 (4 # 10)].
Proof.
  eexists. split; [vm_compute; reflexivity|].
  vm_compute. repeat split.
  - intros H. repeat (destruct H as [H|H]; [discriminate H|]). exact H.
  - right; left; reflexivity.
  - right; right; left; reflexivity.
  - discriminate.
Qed.

Lemma no_rows_no_data_witness :
  exists r,
    @distCompareData digitsHost scenarioStore [js "1"; js "2"] emo_danmaku 6
    = Returned r
    /\ dc_rows r = [].
Proof.
  destruct (@no_rows_no_data digitsHost scenarioStore [js "1"; js "2"]
              emo_danmaku 6) as (r & E & _ & R & _).
  - intros ep [<-|[<-|[]]]; vm_compute; reflexivity.
  - exists r. split; [exact E | exact R].
Defined.

(** C7 fails when a function tag is itself called [other]: the ratios of
    episode 1 are 1/2 and 1/2, both tags are named categories, the key list
    names [other] twice, and the row shows a = 1/2 and other = 0, which sum
    to 1/2: the synthetic residual has overwritten the ratio of the tag. *)
Theorem other_tag_overwritten :
  exists r,
    @distCompareData digitsHost otherTagStore [js "1"] func_danmaku 3
    = Returned r
    /\ map (@ratioOf digitsHost)
           (distOf otherTagStore (js "1") TABLE_KEYS.DANMU_FUNC)
       = [1 # 2; 1 # 2]
    /\ dc_keys r = [js "a"; js "other"; js "other"]
    /\ map (fun row => map (shown row) [js "a"; js "other"]) (dc_rows r)
       = [[Fin (1 # 2); Fin 0]].
Proof.
  eexists. split; [vm_compute; reflexivity|].
  vm_compute. repeat split.
Qed.

(** ** The colour assigner *)

Section HashFacts.
Local Open Scope Z_scope.

Lemma lxor_mod_pow2 (a b n : Z) :
  0 <= n -> Z.lxor a b mod 2 ^ n = Z.lxor (a mod 2 ^ n) (b mod 2 ^ n).
Proof.
  intros Hn. apply Z.bits_inj'. intros i Hi.
  rewrite Z.testbit_mod_pow2, !Z.lxor_spec, !Z.testbit_mod_pow2 by lia.
  destruct (i <? n); reflexivity.
Qed.

Lemma toInt32_mod (z : Z) : toInt32 z mod 2 ^ 32 = z mod 2 ^ 32.
Proof.
  unfold toInt32. rewrite Zminus_mod_idemp_l. f_equal. lia.
Qed.

(** One round on signed 32-bit integers is one round of the unsigned
    definition, modulo 2^32. *)
Lemma fnv_round (hs c : Z) :
  imul (xor32 hs c) 16777619 mod 2 ^ 32
  = (Z.lxor (hs mod 2 ^ 32) c * ColorSpec.prime) mod 2 ^ 32.
Proof.
  unfold imul, xor32, ColorSpec.prime. rewrite toInt32_mod.
  rewrite <- (Zmult_mod_idemp_l (Z.lxor (toInt32 hs) (toInt32 c))).
  rewrite <- (Zmult_mod_idemp_l (Z.lxor (hs mod 2 ^ 32) c)).
  rewrite !lxor_mod_pow2, !toInt32_mod, Zmod_mod by lia. reflexivity.
Qed.

Lemma fnv_fold (str : jsstring) (hs : Z) :
  fold_left (fun h c => imul (xor32 h c) 16777619) str hs mod 2 ^ 32
  = fold_left (fun hash byte => (Z.lxor hash byte * ColorSpec.prime) mod 2 ^ 32)
              str (hs mod 2 ^ 32).
Proof.
  revert hs. induction str as [|c str IH]; intros hs; simpl; [reflexivity|].
  rewrite IH, fnv_round. reflexivity.
Qed.

(** The hash of the source, on signed integers and made unsigned at the
    end, is FNV-1a over the code units of the string. *)
Lemma fnv1aHash32_spec (str : jsstring) :
  fnv1aHash32 str = ColorSpec.fnv1a str.
Proof.
  unfold fnv1aHash32, toUint32, ColorSpec.fnv1a. rewrite fnv_fold. reflexivity.
Qed.

Lemma fnv1a_fold_range (bytes : list Z) (h : Z) :
  0 <= h < 2 ^ 32 ->
  0 <= fold_left (fun hash byte => (Z.lxor hash byte * ColorSpec.prime) mod 2 ^ 32)
                 bytes h < 2 ^ 32.
Proof.
  revert h. induction bytes as [|b bytes IH]; intros h Hh; simpl; [exact Hh|].
  apply IH. apply Z.mod_pos_bound. lia.
Qed.

Lemma fnv1a_range (bytes : list Z) : 0 <= ColorSpec.fnv1a bytes < 2 ^ 32.
Proof. apply fnv1a_fold_range. unfold ColorSpec.offset_basis. lia. Qed.

Lemma hue_range (units : list Z) : 0 <= ColorSpec.hue units < 360.
Proof. unfold ColorSpec.hue. apply Z.mod_pos_bound. lia. Qed.

(** The bytes of an ASCII string are its code units. *)
Lemma utf8_ascii (s : jsstring) :
  Forall (fun c => 0 <= c < 128) s -> ColorSpec.utf8 s = s.
Proof.
  induction 1 as [|c s Hc Hs IH]; [reflexivity|].
  assert (E : ColorSpec.utf8Code c = [c]).
  { unfold ColorSpec.utf8Code.
    replace (c <? 128) with true by (symmetry; apply Z.ltb_lt; lia).
    reflexivity. }
  assert (F : forall lo, ColorSpec.isPair c lo = false).
  { intros lo. unfold ColorSpec.isPair.
    replace (55296 <=? c) with false by (symmetry; apply Z.leb_gt; lia).
    reflexivity. }
  destruct s as [|lo s'].
  - cbn [ColorSpec.utf8]. exact E.
  - change (ColorSpec.utf8 (c :: lo :: s'))
      with (if ColorSpec.isPair c lo
            then ColorSpec.utf8Code (65536 + (c - 55296) * 1024 + (lo - 56320))
                 ++ ColorSpec.utf8 s'
            else ColorSpec.utf8Code c ++ ColorSpec.utf8 (lo :: s')).
    rewrite F, E, IH. reflexivity.
Qed.
End HashFacts.

Lemma hslAgree_all : forallb hslAgreeAt (map Z.of_nat (seq 0 360)) = true.
Proof. vm_compute. reflexivity. Qed.

(** On every hue and both lightness values, the conversion gives the same
    colour whether its operations are exact or rounded to the nearest
    number. *)
Lemma hslToHex_rounded : forallb hslRoundedAt (map Z.of_nat (seq 0 360)) = true.
Proof. vm_compute. reflexivity. Qed.

Lemma hslToHex_spec (h : Z) :
  (0 <= h < 360)%Z ->
  hslToHex (inject_Z h) 82 45
  = ColorSpec.hex (ColorSpec.hsl_to_rgb h ColorSpec.saturation (45 # 100))
  /\ hslToHex (inject_Z h) 82 58
     = ColorSpec.hex (ColorSpec.hsl_to_rgb h ColorSpec.saturation (58 # 100)).
Proof.
  intros Hh.
  assert (I : In h (map Z.of_nat (seq 0 360))).
  { apply in_map_iff. exists (Z.to_nat h). split; [lia|].
    apply in_seq. lia. }
  pose proof (proj1 (forallb_forall _ _) hslAgree_all h I) as A.
  unfold hslAgreeAt in A. apply andb_true_iff in A.
  destruct A as [A1 A2]. split; apply jseqb_eq; assumption.
Qed.

Lemma stableColorFromKey_spec (key : jsstring) :
  stableColorFromKey key = ColorSpec.color key.
Proof.
  unfold stableColorFromKey, ColorSpec.color, ColorSpec.lightness.
  rewrite !fnv1aHash32_spec.
  pose proof (fnv1a_range key) as R1.
  pose proof (fnv1a_range (key ++ js "_l")) as R2.
  rewrite !Z.rem_mod_nonneg by lia.
  fold (ColorSpec.hue key).
  destruct (hslToHex_spec (hue_range key)) as [A1 A2].
  destruct (ColorSpec.fnv1a (key ++ js "_l") mod 2 =? 0)%Z; assumption.
Qed.

(** C9, as amended.  For every key the colour of the open vocabulary is the
    reference colour with the hash accumulated over the UTF-16 code units of
    the key, which are its bytes when the key is ASCII: FNV-1a modulo 2^32
    from the offset basis, hue = hash mod 360 in [0,360), one of two
    lightness values chosen by the hash of the key followed by [_l], fixed
    saturation, standard conversion to a hex string.  Equal keys and modes
    give equal colours, and a key of the curated table, asked in emotion
    mode, gets the curated colour. *)
Theorem colorForKey_spec (key : jsstring) :
  colorForKey key ModeFunc = Colour (ColorSpec.color key)
  /\ (Forall (fun c => 0 <= c < 128)%Z key ->
      colorForKey key ModeFunc = Colour (ColorSpec.color (ColorSpec.utf8 key)))
  /\ (0 <= ColorSpec.hue key < 360)%Z
  /\ (forall key' mode mode', key = key' -> mode = mode' ->
      colorForKey key mode = colorForKey key' mode')
  /\ (forall c, Obj.get key EMO_COLOR_MAP = Some c ->
      colorForKey key ModeEmo = Colour c).
Proof.
  assert (E : colorForKey key ModeFunc = Colour (ColorSpec.color key)).
  { unfold colorForKey. rewrite <- stableColorFromKey_spec. reflexivity. }
  split; [exact E|]. split; [|split; [apply hue_range|split]].
  - intros A. rewrite (utf8_ascii A). exact E.
  - intros key' mode mode' <- <-. reflexivity.
  - intros c Hc. unfold colorForKey. rewrite Hc.
    destruct c as [|c0 c]; [|reflexivity].
    exfalso. revert Hc. unfold EMO_COLOR_MAP. simpl.
    repeat (destruct (jseqb key _); [discriminate|]). discriminate.
Qed.

(** C9, as stated, fails on a key outside ASCII: the key made of the single
    character U+5F39 is hashed as one 16-bit unit, not as its bytes, whether
    these are taken in UTF-8 or in UTF-16 of either byte order, and the
    colours differ.  It also fails for an emotion key asked in function mode,
    which gets a hashed colour and not the curated one. *)
Lemma color_not_over_bytes :
  let key := [24377%Z] in
  ColorSpec.utf8 key = [229; 188; 185]%Z
  /\ colorForKey key ModeFunc = Colour (js "#3cec5f")
  /\ ColorSpec.color (ColorSpec.utf8 key) = js "#7cd115"
  /\ ColorSpec.color [57; 95]%Z = js "#2bd115"
  /\ ColorSpec.color [95; 57]%Z = js "#d12415"
  /\ Obj.get (js "touching") EMO_COLOR_MAP = Some (js "#2563eb")
  /\ colorForKey (js "touching") ModeFunc <> Colour (js "#2563eb").
Proof. vm_compute. repeat split. discriminate. Qed.

Lemma colorForKey_spec_witness :
  colorForKey (js "func_greet") ModeFunc
  = Colour (ColorSpec.color (ColorSpec.utf8 (js "func_greet")))
  /\ colorForKey (js "neg") ModeEmo = Colour (js "#dc2626").
Proof.
  destruct (colorForKey_spec (js "func_greet")) as (_ & H & _).
  destruct (colorForKey_spec (js "neg")) as (_ & _ & _ & _ & K).
  split.
  - apply H. vm_compute. repeat constructor; discriminate.
  - apply K. reflexivity.
Defined.

(** ** Top-K intervals *)

Section KeySort.
Variable A : Type.
Variable key : A -> Q.

Let byKey := fun a b : A => key a - key b.
Let keyLe := fun a b : A => key a <= key b.

Lemma byKey_le (a b : A) : Qle_bool (byKey a b) 0 = true <-> key a <= key b.
Proof. unfold byKey. rewrite Qle_bool_iff. split; intros H; lra. Qed.

Lemma insertSorted_sorted (x : A) (l : list A) :
  StronglySorted keyLe l -> StronglySorted keyLe (insertSorted byKey x l).
Proof.
  induction 1 as [|y l Hl IH Hy]; simpl.
  - repeat constructor.
  - destruct (Qle_bool (byKey x y) 0) eqn:E.
    + apply byKey_le in E. constructor; [constructor; assumption|].
      constructor; [exact E|].
      rewrite Forall_forall in *. intros z Hz. unfold keyLe in *.
      specialize (Hy z Hz). lra.
    + constructor; [exact IH|].
      assert (L : key y <= key x).
      { destruct (Qlt_le_dec (key y) (key x)) as [L|L]; [lra|].
        apply byKey_le in L. congruence. }
      rewrite Forall_forall in *. intros z Hz.
      apply (Permutation_in _ (insertSorted_perm byKey x l)) in Hz.
      destruct Hz as [<-|Hz]; [exact L | apply Hy, Hz].
Qed.

Lemma sortBy_sorted (l : list A) : StronglySorted keyLe (sortBy byKey l).
Proof.
  induction l as [|x l IH]; simpl; [constructor|].
  apply insertSorted_sorted, IH.
Qed.

Lemma sorted_ascending (l : list A) :
  StronglySorted keyLe l -> ascending (map key l).
Proof.
  induction 1 as [|x l Hl IH Hx]; intros i j Hij; simpl in Hij.
  - lia.
  - destruct i as [|i], j as [|j]; simpl; try lia.
    + lra.
    + rewrite Forall_forall in Hx.
      rewrite length_map in Hij.
      assert (Hj : (j < length l)%nat) by lia.
      rewrite (nth_indep _ 0 (key x)) by (rewrite length_map; exact Hj).
      rewrite map_nth. apply Hx, nth_In, Hj.
    + apply IH. lia.
Qed.

Lemma sortBy_ascending (l : list A) : ascending (map key (sortBy byKey l)).
Proof. apply sorted_ascending, sortBy_sorted. Qed.
End KeySort.

Section Pairs.
Variable A : Type.
Variable R : A -> A -> Prop.
Hypothesis R_sym : forall a b, R a b -> R b a.

Lemma pairs_snoc (l : list A) (c : A) :
  ForallOrdPairs R l -> Forall (fun a => R a c) l -> ForallOrdPairs R (l ++ [c]).
Proof.
  induction 1 as [|a l Ha Hl IH]; intros Hc; simpl.
  - repeat constructor.
  - inversion Hc as [|? ? Hac Hlc]; subst. constructor.
    + apply Forall_app. split; [exact Ha | repeat constructor; exact Hac].
    + apply IH, Hlc.
Qed.

Lemma pairs_perm (l l' : list A) :
  Permutation l l' -> ForallOrdPairs R l -> ForallOrdPairs R l'.
Proof.
  induction 1 as [|x l l' Hp IH|x y l|l l' l'' Hp1 IH1 Hp2 IH2]; intros H.
  - exact H.
  - inversion H as [|? ? Hx Hl]; subst. constructor.
    + eapply Permutation_Forall; eassumption.
    + apply IH, Hl.
  - inversion H as [|? ? Hy Hl]; subst.
    inversion Hl as [|? ? Hx Hl']; subst.
    inversion Hy as [|? ? Hyx Hyl]; subst.
    constructor; [constructor; [apply R_sym, Hyx | exact Hx]|].
    constructor; assumption.
  - apply IH2, IH1, H.
Qed.

Lemma pairs_nth (l : list A) :
  ForallOrdPairs R l ->
  forall p q a b, p <> q ->
    nth_error l p = Some a -> nth_error l q = Some b -> R a b.
Proof.
  induction 1 as [|x l Hx Hl IH]; intros p q a b Hpq Ha Hb.
  - destruct p; discriminate Ha.
  - rewrite Forall_forall in Hx.
    destruct p as [|p], q as [|q]; simpl in Ha, Hb.
    + congruence.
    + injection Ha as <-. apply Hx. eapply nth_error_In, Hb.
    + injection Hb as <-. apply R_sym, Hx. eapply nth_error_In, Ha.
    + eapply IH; [|eassumption|eassumption]. congruence.
Qed.
End Pairs.

Section WindowFacts.
Variable minutes : list Q.
Hypothesis minutes_ascending : ascending minutes.
Hypothesis minutes_numbers : Forall representable minutes.

Let n := length minutes.

(** The window loop stops inside the series, on a minute within the window
    when it moved at all, and just before a minute beyond the window. *)
Lemma extendWindow_spec (endMinute : Num) (fuel j0 : nat) :
  (j0 < n)%nat -> (n <= j0 + 1 + fuel)%nat ->
  let j := extendWindow fuel minutes n endMinute j0 in
  (j0 <= j < n)%nat
  /\ ((j0 < j)%nat -> numLeb (Fin (nth j minutes 0)) endMinute = true)
  /\ ((j + 1 < n)%nat -> numLeb (Fin (nth (j + 1) minutes 0)) endMinute = false).
Proof.
  revert j0. induction fuel as [|f IH]; intros j0 Hj Hf; cbn [extendWindow].
  - split; [lia|]. split; intros; lia.
  - destruct (j0 + 1 <? n)%nat eqn:E1; cbn [andb].
    + destruct (numLeb (Fin (nth (j0 + 1) minutes 0)) endMinute) eqn:E2.
      * apply Nat.ltb_lt in E1.
        destruct (IH (j0 + 1)%nat) as (H1 & H2 & H3); [lia | lia |].
        split; [lia|]. split; [|exact H3].
        intros _.
        destruct (Nat.eq_dec (extendWindow f minutes n endMinute (j0 + 1)) (j0 + 1))
          as [->|Hne]; [exact E2 | apply H2; lia].
      * split; [lia|]. split; [lia|]. intros _. exact E2.
    + apply Nat.ltb_ge in E1. split; [lia|]. split; intros; lia.
Qed.

(** The end of the window of row [i] is not before the minute of row [i]. *)
Lemma endMinuteOf_start (w : Q) (i : nat) :
  1 <= w -> (i < n)%nat ->
  numLeb (Fin (nth i minutes 0)) (endMinuteOf (nth i minutes 0) w) = true.
Proof.
  intros Hw Hi. apply numLeb_le, endMinuteOf_ge; [|exact Hw].
  rewrite Forall_forall in minutes_numbers.
  apply minutes_numbers, nth_In, Hi.
Qed.

(** A minute beyond the end of a window is greater than one within. *)
Lemma beyond_within (e : Num) (x y : Q) :
  numLeb (Fin x) e = true -> numLeb (Fin y) e = false -> x < y.
Proof.
  intros Hx Hy. apply Qnot_le_lt. intros L.
  assert (T : numLe (Fin y) e).
  { apply (@numLe_trans (Fin y) (Fin x) e); [exact L | apply numLeb_le, Hx]. }
  apply numLeb_le in T. congruence.
Qed.

Lemma windowCandidates_closed (values : list Q) (w : Q) :
  1 <= w -> Forall (windowClosed minutes) (windowCandidates minutes values w).
Proof.
  intros Hw. unfold windowCandidates. fold n.
  apply Forall_forall. intros c Hc.
  apply in_map_iff in Hc. destruct Hc as (i & <- & Hi).
  apply in_seq in Hi.
  set (endMinute := endMinuteOf (nth i minutes 0) w).
  destruct (@extendWindow_spec endMinute n i) as (H1 & H2 & H3); [lia | lia |].
  set (j := extendWindow n minutes n endMinute i) in *.
  assert (Hend : numLeb (Fin (nth j minutes 0)) endMinute = true).
  { destruct (Nat.eq_dec j i) as [->|Hne].
    - apply endMinuteOf_start; [exact Hw | lia].
    - apply H2. lia. }
  unfold windowClosed; simpl. fold n. split; [lia|]. split; [reflexivity|].
  split; [reflexivity|]. intros t Ht.
  assert (L : nth (j + 1) minutes 0 <= nth t minutes 0).
  { apply minutes_ascending. fold n. lia. }
  assert (G : numLeb (Fin (nth (j + 1) minutes 0)) endMinute = false)
    by (apply H3; lia).
  pose proof (@beyond_within endMinute _ _ Hend G). lra.
Qed.

(** Candidates whose index ranges do not overlap are apart in minutes. *)
Lemma closed_apart (a b : Candidate) :
  windowClosed minutes a -> windowClosed minutes b ->
  overlaps (rangeOf a) (rangeOf b) = false ->
  apart (intervalOf a) (intervalOf b).
Proof.
  intros (Ha1 & Ha2 & Ha3 & Ha4) (Hb1 & Hb2 & Hb3 & Hb4) Ho.
  unfold overlaps, rangeOf in Ho; simpl in Ho. apply Nat.leb_gt in Ho.
  unfold apart, intervalOf; simpl.
  destruct (Nat.lt_ge_cases (cand_j a) (cand_i b)) as [L|L].
  - assert (G : cand_end a < cand_start b).
    { rewrite Hb2. apply Ha4. fold n in Hb1 |- *. lia. }
    pose proof (Q.le_min_l (cand_end a) (cand_end b)).
    pose proof (Q.le_max_r (cand_start a) (cand_start b)). lra.
  - assert (L' : (cand_j b < cand_i a)%nat) by lia.
    assert (G : cand_end b < cand_start a).
    { rewrite Ha2. apply Hb4. fold n in Ha1 |- *. lia. }
    pose proof (Q.le_min_r (cand_end a) (cand_end b)).
    pose proof (Q.le_max_l (cand_start a) (cand_start b)). lra.
Qed.

(** The greedy loop only ever holds candidates with pairwise disjoint index
    ranges; [chosen] is the list of the candidates behind [picked] and
    [used]. *)
Lemma pickLoop_chosen (kk : Q) (candidates chosen : list Candidate) :
  ForallOrdPairs (fun a b => overlaps (rangeOf a) (rangeOf b) = false) chosen ->
  exists chosen',
    pickLoop kk candidates (map intervalOf chosen) (map rangeOf chosen)
    = map intervalOf chosen'
    /\ incl chosen' (chosen ++ candidates)
    /\ ForallOrdPairs (fun a b => overlaps (rangeOf a) (rangeOf b) = false) chosen'.
Proof.
  revert chosen. induction candidates as [|c rest IH]; intros chosen Hp; simpl.
  - exists chosen. split; [reflexivity|]. split; [|exact Hp].
    rewrite app_nil_r. apply incl_refl.
  - destruct (Qle_bool kk _).
    { exists chosen. split; [reflexivity|]. split; [|exact Hp].
      apply incl_appl, incl_refl. }
    destruct (existsb _ (map rangeOf chosen)) eqn:E.
    + destruct (IH chosen Hp) as (chosen' & H1 & H2 & H3).
      exists chosen'. split; [exact H1|]. split; [|exact H3].
      intros x Hx. apply H2 in Hx. apply in_app_or in Hx.
      apply in_or_app. destruct Hx; [left | right; right]; assumption.
    + destruct (IH (chosen ++ [c])) as (chosen' & H1 & H2 & H3).
      * apply pairs_snoc; [exact Hp|].
        apply Forall_forall. intros a Ha.
        destruct (overlaps (rangeOf a) (rangeOf c)) eqn:O; [|reflexivity].
        assert (X : existsb (fun u => overlaps u (cand_i c, cand_j c))
                            (map rangeOf chosen) = true).
        { apply existsb_exists. exists (rangeOf a).
          split; [apply in_map, Ha | exact O]. }
        congruence.
      * exists chosen'. rewrite !map_app in H1. split; [exact H1|].
        split; [|exact H3].
        intros x Hx. apply H2 in Hx. rewrite <- app_assoc in Hx. exact Hx.
Qed.
End WindowFacts.

Section TopKFacts.
Context {host : Coercions}.

(** The minutes and the values of a series are numbers. *)
Lemma minutes_representable (rows : list Row) :
  Forall representable (map minuteOf rows).
Proof.
  apply Forall_forall. intros m Hm. apply in_map_iff in Hm.
  destruct Hm as (r & <- & _). apply safeNumber_representable.
Qed.

Lemma values_representable (seriesKey : jsstring) (rows : list Row) :
  Forall representable (map (seriesValue seriesKey) rows).
Proof.
  apply Forall_forall. intros m Hm. apply in_map_iff in Hm.
  destruct Hm as (r & <- & _). apply safeNumber_representable.
Qed.

Lemma apart_sym (a b : Interval) : apart a b -> apart b a.
Proof.
  unfold apart. rewrite (Q.min_comm (iv_end b)), (Q.max_comm (iv_start b)).
  exact (fun H => H).
Qed.

(** C3.  Whatever the series (in any order, with any values and repeated
    minutes), the key, the window size and [k], any two intervals returned
    at different positions by [topKIntervals] are apart: the larger start is
    strictly greater than the smaller end. *)
Theorem topKIntervals_apart (curveRows : list Row) (seriesKey : jsstring)
        (windowSize k : Q) (p q : nat) (a b : Interval) :
  p <> q ->
  nth_error (topKIntervals curveRows seriesKey windowSize k) p = Some a ->
  nth_error (topKIntervals curveRows seriesKey windowSize k) q = Some b ->
  Qmin (iv_end a) (iv_end b) < Qmax (iv_start a) (iv_start b).
Proof.
  intros Hpq Ha Hb. change (apart a b).
  refine (pairs_nth apart_sym _ Hpq Ha Hb).
  unfold topKIntervals. destruct curveRows as [|r0 rs]; [constructor|].
  set (rows := sortByMinute (r0 :: rs)).
  set (minutes := map minuteOf rows).
  set (values := map (seriesValue seriesKey) rows).
  set (w := Qmax 1 (Qmin 20 windowSize)).
  set (candidates := sortBy _ (windowCandidates minutes values w)).
  assert (Asc : ascending minutes) by apply sortBy_ascending.
  assert (Closed : Forall (windowClosed minutes) candidates).
  { eapply Permutation_Forall; [symmetry; apply sortBy_perm|].
    apply windowCandidates_closed;
      [exact Asc | apply minutes_representable | apply Q.le_max_l]. }
  destruct (@pickLoop_chosen (Qmax 1 (Qmin 5 k)) candidates [])
    as (chosen & H1 & H2 & H3); [constructor|].
  simpl in H1, H2. rewrite H1.
  eapply pairs_perm; [exact apart_sym | symmetry; apply sortBy_perm |].
  rewrite Forall_forall in Closed.
  clear H1. induction H3 as [|c l Hc Hl IH]; simpl; [constructor|].
  constructor.
  - rewrite Forall_forall in *. intros x Hx.
    apply in_map_iff in Hx. destruct Hx as (d & <- & Hd).
    apply (@closed_apart minutes).
    + apply Closed, H2. left; reflexivity.
    + apply Closed, H2. right; exact Hd.
    + apply Hc, Hd.
  - apply IH. intros x Hx. apply H2. right; exact Hx.
Qed.
End TopKFacts.

Lemma topKIntervals_apart_witness :
  let series := [curveRow 3 9; curveRow 1 9; curveRow 2 1; curveRow 7 4;
                 curveRow 8 5; curveRow 5 2; curveRow 5 3] in
  exists a b,
    nth_error (@topKIntervals digitsHost series (js "v") 2 3) 0 = Some a
    /\ nth_error (@topKIntervals digitsHost series (js "v") 2 3) 1 = Some b
    /\ Qmin (iv_end a) (iv_end b) < Qmax (iv_start a) (iv_start b).
Proof.
  intros series.
  exists {| iv_start := 1; iv_end := 2; iv_score := Fin 10 |},
         {| iv_start := 3; iv_end := 3; iv_score := Fin 9 |}.
  assert (Ha : nth_error (@topKIntervals digitsHost series (js "v") 2 3) 0
               = Some {| iv_start := 1; iv_end := 2; iv_score := Fin 10 |})
    by (vm_compute; reflexivity).
  assert (Hb : nth_error (@topKIntervals digitsHost series (js "v") 2 3) 1
               = Some {| iv_start := 3; iv_end := 3; iv_score := Fin 9 |})
    by (vm_compute; reflexivity).
  split; [exact Ha|]. split; [exact Hb|].
  apply (@topKIntervals_apart digitsHost series (js "v") 2 3 0 1 _ _
           (fun E : 0%nat = 1%nat => O_S _ E) Ha Hb).
Defined.

(** ** The residual of a row in function mode *)

Section FillFacts.
Variable m : Obj.t Q.

Let fill := fun (row : Obj.t Value) (k : jsstring) =>
  Obj.set k (VNum (ratioOr0 k m)) row.

Lemma fill_elsewhere (ks : list jsstring) (row : Obj.t Value) (k : jsstring) :
  ~ In k ks -> Obj.get k (fold_left fill ks row) = Obj.get k row.
Proof.
  revert row. induction ks as [|k0 ks IH]; intros row N; simpl; [reflexivity|].
  rewrite IH by (intros I; apply N; right; exact I).
  apply ObjFacts.get_set_ne. intros ->. apply N. left; reflexivity.
Qed.

Lemma fill_there (ks : list jsstring) (row : Obj.t Value) (k : jsstring) :
  In k ks -> Obj.get k (fold_left fill ks row) = Some (VNum (ratioOr0 k m)).
Proof.
  revert row. induction ks as [|k0 ks IH]; intros row I; simpl; [destruct I|].
  destruct (in_dec (list_eq_dec Z.eq_dec) k ks) as [Y|N].
  - apply IH, Y.
  - destruct I as [->|I]; [|contradiction].
    rewrite (@fill_elsewhere ks _ k N). apply ObjFacts.get_set_eq.
Qed.
End FillFacts.

Section BoundFacts.
Context {host : Coercions}.
Variable field : jsstring.

Lemma ratioMap_snoc (dist : list Row) (r : Row) :
  ratioMap field (dist ++ [r])
  = Obj.set (categoryOf field r) (ratioOf r) (ratioMap field dist).
Proof. unfold ratioMap. rewrite fold_left_app. reflexivity. Qed.

Lemma ratioOr0_set (m : Obj.t Q) (c k : jsstring) (v : Q) :
  ratioOr0 k (Obj.set c v m) = if jseqb k c then v else ratioOr0 k m.
Proof.
  unfold ratioOr0. destruct (jseqb k c) eqn:E.
  - apply jseqb_eq in E; subst. rewrite ObjFacts.get_set_eq. reflexivity.
  - apply jseqb_false in E. rewrite ObjFacts.get_set_ne by congruence.
    reflexivity.
Qed.

(** The ratios that the per-episode map keeps are numbers. *)
Lemma ratioMap_representable (dist : list Row) (k : jsstring) :
  representable (ratioOr0 k (ratioMap field dist)).
Proof.
  induction dist as [|r dist IH] using rev_ind.
  - exact representable_0.
  - rewrite ratioMap_snoc, ratioOr0_set. destruct (jseqb k _).
    + apply safeNumber_representable.
    + exact IH.
Qed.
End BoundFacts.

Section ResidualFacts.
Context {host : Coercions}.
Variable store : Store.
Variable funcTableKey : jsstring.
Variable topKeys : list jsstring.
Variable ep : jsstring.

Let m := ratioMap (js "func") (distOf store ep funcTableKey).
Let row := funcRow store funcTableKey topKeys ep.
Let named := sumOf (map (fun k => ratioOr0 k m) topKeys).

(** The residual is [max(0, 1 - sum of the episode's ratios of the named
    categories)], the sum and the difference as the code computes them. *)
Lemma funcRow_other :
  Obj.get (js "other") row
  = Some (numValue (numMax0 (numSub (Fin 1) named))).
Proof.
  unfold row, funcRow. rewrite ObjFacts.get_set_eq. do 4 f_equal.
  fold m. unfold named, sumOf.
  set (filled := fold_left _ topKeys (rowHead ep)).
  assert (C : forall k, In k topKeys -> cellOr0 k filled = Fin (ratioOr0 k m)).
  { intros k Hk. unfold cellOr0, filled.
    rewrite (@fill_there m topKeys _ k Hk). simpl.
    apply ratioMap_representable. }
  clearbody filled. revert C. generalize (Fin 0).
  induction topKeys as [|k ks IH]; intros acc C; simpl; [reflexivity|].
  rewrite (C k (or_introl eq_refl)). apply IH.
  intros k' Hk'. apply C. right; exact Hk'.
Qed.

(** A named category other than [other] keeps the episode's ratio. *)
Lemma funcRow_named (k : jsstring) :
  In k topKeys -> k <> js "other" ->
  Obj.get k row = Some (VNum (ratioOr0 k m)).
Proof.
  intros Hk Hne. unfold row, funcRow.
  rewrite ObjFacts.get_set_ne by congruence.
  apply (@fill_there _ topKeys _ k Hk).
Qed.

(** In function mode every output row carries a number that is not
    negative under [other]. *)
Lemma funcRow_other_nonneg :
  exists o, Obj.get (js "other") row = Some (numValue o) /\ numLe (Fin 0) o.
Proof.
  eexists. split; [apply funcRow_other|].
  pose proof (sumOf_comparable (map (fun k => ratioOr0 k m) topKeys)) as S.
  fold named in S. unfold numSub, numOpp.
  destruct named as [q| | |]; simpl in S; try contradiction.
  - unfold numAdd.
    destruct (round64 (1 + - q)) as [r| | |] eqn:E; unfold numMax0, numLe.
    + apply Q.le_max_l.
    + exact I.
    + lra.
    + exact (@round64_not_NaN _ E).
  - unfold numAdd, numMax0, numLe. lra.
  - exact I.
Qed.
End ResidualFacts.

Section KeyFacts.
Variable A : Type.

Lemma set_keys_NoDup (o : Obj.t A) (k : jsstring) (v : A) :
  NoDup (map fst o) -> NoDup (map fst (Obj.set k v o)).
Proof.
  induction o as [|[k0 v0] o IH]; simpl; intros H.
  - repeat constructor. intros [].
  - inversion H as [|? ? Hk0 Ho]; subst.
    destruct (jseqb k k0) eqn:E; simpl.
    + apply jseqb_eq in E; subst. constructor; assumption.
    + apply jseqb_false in E. constructor; [|apply IH, Ho].
      rewrite ObjFacts.keys_set. intros [->|I]; [congruence | contradiction].
Qed.

Lemma ownKeys_NoDup (o : Obj.t A) : NoDup (map fst o) -> NoDup (Obj.ownKeys o).
Proof.
  intros H. unfold Obj.ownKeys. apply NoDup_app.
  - apply sortBy_NoDup, NoDup_filter, H.
  - apply NoDup_filter, H.
  - intros a Ha Hb. apply sortBy_In in Ha.
    apply filter_In in Ha, Hb. destruct Ha as [_ Ha], Hb as [_ Hb].
    rewrite Ha in Hb. discriminate Hb.
Qed.

Lemma entries_keys_In (o : Obj.t A) (ks : list jsstring) (k : jsstring) :
  In k (map fst (flat_map (fun k => match Obj.get k o with
                                    | Some v => [(k, v)]
                                    | None => []
                                    end) ks)) -> In k ks.
Proof.
  induction ks as [|k0 ks IH]; simpl; [tauto|].
  rewrite map_app, in_app_iff. intros [H|H]; [|right; apply IH, H].
  destruct (Obj.get k0 o); simpl in H; [|destruct H].
  destruct H as [->|[]]. left; reflexivity.
Qed.

Lemma entries_NoDup (o : Obj.t A) :
  NoDup (map fst o) -> NoDup (map fst (Obj.entries o)).
Proof.
  intros H. apply ownKeys_NoDup in H. unfold Obj.entries.
  induction H as [|k ks Hk Hks IH]; simpl; [constructor|].
  rewrite map_app. destruct (Obj.get k o); simpl; [|exact IH].
  constructor; [|exact IH]. intros I. apply Hk, (entries_keys_In _ _ _ I).
Qed.
End KeyFacts.

Lemma firstn_NoDup (A : Type) (n : nat) (l : list A) :
  NoDup l -> NoDup (firstn n l).
Proof.
  intros H. rewrite <- (firstn_skipn n l) in H.
  exact (NoDup_app_remove_r _ _ H).
Qed.

Lemma fold_flat_map (A B C : Type) (f : A -> C -> A) (g : B -> list C)
      (l : list B) (a : A) :
  fold_left (fun acc x => fold_left f (g x) acc) l a
  = fold_left f (flat_map g l) a.
Proof.
  revert a. induction l as [|x l IH]; intros a; simpl; [reflexivity|].
  rewrite fold_left_app. apply IH.
Qed.

Section TopKeyFacts.
Context {host : Coercions}.

(** No own property of the map is named like a member of
    [Object.prototype]. *)
Let clean := fun fm : Obj.t (list Q) =>
  forall k, inherited k = true -> Obj.get k fm = None.

Lemma pushRatio_plain (fm : Obj.t (list Q)) (r : Row) :
  clean fm ->
  pushRatio (Returned fm) r
  = if inherited (categoryOf (js "func") r) then Thrown
    else Returned (pushPlain fm r).
Proof.
  intros C. unfold pushRatio, pushPlain.
  destruct (inherited (categoryOf (js "func") r)) eqn:I.
  - rewrite (C _ I). reflexivity.
  - destruct (Obj.get (categoryOf (js "func") r) fm); reflexivity.
Qed.

Lemma pushPlain_clean (fm : Obj.t (list Q)) (r : Row) :
  clean fm -> inherited (categoryOf (js "func") r) = false ->
  clean (pushPlain fm r).
Proof.
  intros C I k Hk. unfold pushPlain.
  rewrite ObjFacts.get_set_ne; [apply C, Hk|].
  intros EQ. subst k. congruence.
Qed.

Lemma pushRatio_thrown (rows : list Row) :
  fold_left pushRatio rows Thrown = Thrown.
Proof. induction rows as [|r rows IH]; simpl; [reflexivity | exact IH]. Qed.

Lemma collect_plain (rows : list Row) (fm : Obj.t (list Q)) :
  clean fm ->
  fold_left pushRatio rows (Returned fm)
  = if hasInheritedTag rows then Thrown
    else Returned (fold_left pushPlain rows fm).
Proof.
  revert fm. induction rows as [|r rows IH]; intros fm C; [reflexivity|].
  cbn [fold_left hasInheritedTag existsb].
  rewrite (pushRatio_plain r C).
  destruct (inherited (categoryOf (js "func") r)) eqn:I; cbn [orb].
  - apply pushRatio_thrown.
  - apply IH, pushPlain_clean; assumption.
Qed.

(** The loop throws exactly when a row of the selection carries a tag named
    like a member of [Object.prototype]; otherwise it files every ratio
    under its tag. *)
Lemma collect_rows (store : Store) (eps : list jsstring) (tableKey : jsstring) :
  collectFuncMean store eps tableKey
  = if hasInheritedTag (selectedRows store eps tableKey) then Thrown
    else Returned (fold_left pushPlain (selectedRows store eps tableKey) Obj.empty).
Proof.
  unfold collectFuncMean, selectedRows.
  rewrite (fold_flat_map pushRatio (fun ep => distOf store ep tableKey)).
  apply collect_plain. intros k _. reflexivity.
Qed.

Lemma collectFuncMean_NoDup (store : Store) (eps : list jsstring)
      (funcTableKey : jsstring) (funcMean : Obj.t (list Q)) :
  collectFuncMean store eps funcTableKey = Returned funcMean ->
  NoDup (map fst funcMean).
Proof.
  rewrite collect_rows.
  destruct (hasInheritedTag _); [discriminate|].
  intros H. injection H as <-.
  assert (G : NoDup (map fst (@Obj.empty (list Q)))) by constructor.
  revert G. generalize (@Obj.empty (list Q)).
  induction (selectedRows store eps funcTableKey) as [|r rows IHr];
    intros fm G; simpl; [exact G|].
  apply IHr, set_keys_NoDup, G.
Qed.

Lemma funcScores_keys (funcMean : Obj.t (list Q)) :
  Permutation (map fst (funcScores funcMean)) (map fst (Obj.entries funcMean)).
Proof.
  unfold funcScores. rewrite sortBy_perm, map_map. reflexivity.
Qed.

(** The named categories are pairwise distinct. *)
Lemma topKeys_NoDup (store : Store) (eps : list jsstring)
      (funcTableKey : jsstring) (distStackTopN : Q)
      (funcMean : Obj.t (list Q)) :
  collectFuncMean store eps funcTableKey = Returned funcMean ->
  NoDup (topKeysOf (funcScores funcMean) distStackTopN).
Proof.
  intros H. unfold topKeysOf. rewrite <- firstn_map. apply firstn_NoDup.
  eapply Permutation_NoDup; [symmetry; apply funcScores_keys|].
  apply entries_NoDup, (collectFuncMean_NoDup _ _ _ H).
Qed.

(** The function branch: no data when no selected episode has a row, the
    exception of the loop over the tags, or the chart built over its map. *)
Lemma distCompareData_func (store : Store) (eps : list jsstring)
      (distKind : DistKind) (distStackTopN : Q) :
  isEmoKind distKind = false ->
  distCompareData store eps distKind distStackTopN
  = if hasAnyRows store eps (distTableKey distKind)
    then match collectFuncMean store eps (distTableKey distKind) with
         | Thrown => Thrown
         | Returned funcMean =>
             Returned (funcCompare store eps distKind distStackTopN funcMean)
         end
    else Returned noDistData.
Proof.
  intros E. unfold distCompareData.
  destruct eps as [|ep eps']; [reflexivity|].
  rewrite E. destruct (hasAnyRows store (ep :: eps') (distTableKey distKind));
    reflexivity.
Qed.

(** In function mode, every output row has under [other] a number that is
    not negative. *)
Lemma bounded_other (store : Store) (eps : list jsstring)
      (distKind : DistKind) (distStackTopN : Q) (r : DistCompare) (i : nat)
      (row : Obj.t Value) :
  isEmoKind distKind = false ->
  distCompareData store eps distKind distStackTopN = Returned r ->
  nth_error (dc_rows r) i = Some row ->
  exists o, Obj.get (js "other") row = Some (numValue o) /\ numLe (Fin 0) o.
Proof.
  intros E R Hrow.
  rewrite (@distCompareData_func store eps distKind distStackTopN E) in R.
  destruct (hasAnyRows store eps (distTableKey distKind)).
  - destruct (collectFuncMean store eps (distTableKey distKind)) as [fm|];
      [|discriminate R].
    injection R as <-. unfold funcCompare in Hrow. cbn [dc_rows] in Hrow.
    rewrite nth_error_map in Hrow.
    destruct (nth_error eps i) as [ep|]; [|discriminate Hrow].
    injection Hrow as <-. apply funcRow_other_nonneg.
  - injection R as <-. destruct i; discriminate Hrow.
Qed.
End TopKeyFacts.

(* ================================================================== *)
(** * Further properties *)

(** ** Sorting: order of the result *)

Section SortOrder.
Variable A : Type.

(** The sort only looks at the sign test of the comparator. *)
Lemma sortBy_ext (cmp cmp' : A -> A -> Q) (l : list A) :
  (forall x y, Qle_bool (cmp x y) 0 = Qle_bool (cmp' x y) 0) ->
  sortBy cmp l = sortBy cmp' l.
Proof.
  intros H. induction l as [|x l IH]; simpl; [reflexivity|].
  rewrite IH. generalize (sortBy cmp' l). intros s.
  induction s as [|y s IHs]; simpl; [reflexivity|].
  rewrite H, IHs. reflexivity.
Qed.

(** Sorting with [b - a] puts the greatest key first. *)
Lemma sortBy_descending (key : A -> Q) (l : list A) :
  StronglySorted (fun a b => key b <= key a)
                 (sortBy (fun a b => key b - key a) l).
Proof.
  rewrite (@sortBy_ext _ (fun a b => (- key a) - (- key b))).
  - pose proof (sortBy_sorted (fun a => - key a) l) as S.
    induction S as [|x s Ss IH Hx]; constructor; [exact IH|].
    rewrite Forall_forall in *. intros y Hy. specialize (Hx y Hy).
    simpl in Hx. lra.
  - intros x y. destruct (Qle_bool (key y - key x) 0) eqn:E.
    + symmetry. apply Qle_bool_iff. apply Qle_bool_iff in E. lra.
    + destruct (Qle_bool (- key x - - key y) 0) eqn:F; [|reflexivity].
      apply Qle_bool_iff in F.
      assert (G : key y - key x <= 0) by lra.
      apply Qle_bool_iff in G. congruence.
Qed.

(** A comparator whose sign test settles a transitive relation, one way or
    the other, on the elements of the list sorts the list by it. *)
Lemma insertSorted_by (cmp : A -> A -> Q) (R : A -> A -> Prop) (x : A)
      (l : list A) :
  (forall a b c, R a b -> R b c -> R a c) ->
  (forall y, In y l -> if Qle_bool (cmp x y) 0 then R x y else R y x) ->
  StronglySorted R l -> StronglySorted R (insertSorted cmp x l).
Proof.
  intros T H S. induction S as [|y l Sl IH Hy]; simpl.
  - repeat constructor.
  - pose proof (H y (or_introl eq_refl)) as Hxy.
    destruct (Qle_bool (cmp x y) 0).
    + constructor; [constructor; assumption|]. constructor; [exact Hxy|].
      rewrite Forall_forall in *. intros z Hz.
      eapply T; [exact Hxy | apply Hy, Hz].
    + constructor.
      * apply IH. intros z Hz. apply H. right; exact Hz.
      * rewrite Forall_forall in *. intros z Hz.
        apply (Permutation_in _ (insertSorted_perm cmp x l)) in Hz.
        destruct Hz as [<-|Hz]; [exact Hxy | apply Hy, Hz].
Qed.

Lemma sortBy_sorted_by (cmp : A -> A -> Q) (R : A -> A -> Prop) (l : list A) :
  (forall a b c, R a b -> R b c -> R a c) ->
  (forall x y, In x l -> In y l ->
               if Qle_bool (cmp x y) 0 then R x y else R y x) ->
  StronglySorted R (sortBy cmp l).
Proof.
  intros T H. induction l as [|x l IH]; simpl; [constructor|].
  apply insertSorted_by; [exact T | |].
  - intros y Hy. apply sortBy_In in Hy.
    apply H; [left; reflexivity | right; exact Hy].
  - apply IH. intros a b Ha Hb. apply H; right; assumption.
Qed.

(** Sorting numbers other than [NaN] with [b - a] puts the greatest key
    first. *)
Lemma sortBy_descending_num (key : A -> Num) (l : list A) :
  (forall a, In a l -> comparable (key a)) ->
  StronglySorted (fun a b => numLe (key b) (key a))
                 (sortBy (fun a b => numSign (numSub (key b) (key a))) l).
Proof.
  intros C. apply sortBy_sorted_by.
  - intros a b c H1 H2. exact (@numLe_trans (key c) (key b) (key a) H2 H1).
  - intros x y Hx Hy.
    rewrite (@numSub_numLeb (key x) (key y) (C x Hx) (C y Hy)).
    destruct (numLeb (key y) (key x)) eqn:E.
    + apply numLeb_le, E.
    + apply numLeb_total;
        [apply comparable_not_NaN, C, Hy | apply comparable_not_NaN, C, Hx
         | exact E].
Qed.

Lemma sorted_pairs (R : A -> A -> Prop) (l : list A) :
  StronglySorted R l -> ForallOrdPairs R l.
Proof.
  induction 1 as [|x l Hl IH Hx]; constructor; assumption.
Qed.

(** In a list whose ordered pairs satisfy [R], an earlier position is
    related to a later one. *)
Lemma pairs_nth_lt (R : A -> A -> Prop) (l : list A) :
  ForallOrdPairs R l ->
  forall p q a b, (p < q)%nat ->
    nth_error l p = Some a -> nth_error l q = Some b -> R a b.
Proof.
  induction 1 as [|x l Hx Hl IH]; intros p q a b Hpq Ha Hb.
  - destruct p; discriminate Ha.
  - destruct q as [|q]; [lia|]. simpl in Hb.
    destruct p as [|p]; simpl in Ha.
    + injection Ha as <-. rewrite Forall_forall in Hx.
      apply Hx. eapply nth_error_In, Hb.
    + eapply IH; [|eassumption|eassumption]. lia.
Qed.

Lemma sorted_firstn_skipn (R : A -> A -> Prop) (l : list A) (n : nat) :
  StronglySorted R l ->
  forall a b, In a (firstn n l) -> In b (skipn n l) -> R a b.
Proof.
  intros S. revert n. induction S as [|x l Hl IH Hx]; intros n a b Ha Hb.
  - rewrite firstn_nil in Ha. destruct Ha.
  - destruct n as [|n]; simpl in Ha, Hb; [destruct Ha|].
    destruct Ha as [<-|Ha].
    + rewrite Forall_forall in Hx. apply Hx.
      rewrite <- (firstn_skipn n l). apply in_or_app. right; exact Hb.
    + eapply IH; eassumption.
Qed.
End SortOrder.

(** ** Top-K intervals: what is returned *)

Lemma prefixSums_length (values : list Q) (acc : Num) :
  length (prefixSums acc values) = S (length values).
Proof.
  revert acc. induction values as [|v r IH]; intros acc; simpl;
    [reflexivity | rewrite IH; reflexivity].
Qed.

(** Entry [k] of the prefix sums is the running sum of the first [k]
    values. *)
Lemma prefixSums_nth (values : list Q) (acc : Num) (k : nat) :
  (k <= length values)%nat ->
  nth k (prefixSums acc values) NaN
  = fold_left (fun a b => numAdd a (Fin b)) (firstn k values) acc.
Proof.
  revert acc k. induction values as [|v r IH]; intros acc k Hk.
  - simpl in Hk. assert (k = 0%nat) by lia. subst. reflexivity.
  - destruct k as [|k]; [reflexivity|].
    simpl in Hk. cbn [prefixSums nth firstn fold_left].
    apply IH. lia.
Qed.

Lemma window_score (values : list Q) (i j : nat) :
  (i <= j)%nat -> (j < length values)%nat ->
  numSub (nth (j + 1) (prefixSums (Fin 0) values) NaN)
         (nth i (prefixSums (Fin 0) values) NaN)
  = numSub (sumOf (firstn (j + 1) values)) (sumOf (firstn i values)).
Proof.
  intros Hij Hj. rewrite !prefixSums_nth by lia. reflexivity.
Qed.

Lemma numLeb_mono_l (x y : Q) (e : Num) :
  x <= y -> numLeb (Fin y) e = true -> numLeb (Fin x) e = true.
Proof.
  intros L H. apply numLeb_le.
  apply (@numLe_trans (Fin x) (Fin y) e); [exact L | apply numLeb_le, H].
Qed.

Lemma windowCandidates_windows (minutes values : list Q) (w : Q) :
  ascending minutes -> Forall representable minutes -> 1 <= w ->
  length values = length minutes ->
  Forall (fun c => windowAt minutes values w (cand_i c) (cand_j c) (intervalOf c))
         (windowCandidates minutes values w).
Proof.
  intros Asc Num Hw Hlen. apply Forall_forall. intros c Hc.
  unfold windowCandidates in Hc.
  apply in_map_iff in Hc. destruct Hc as (i & <- & Hi). apply in_seq in Hi.
  set (n := length minutes) in *.
  set (endMinute := endMinuteOf (nth i minutes 0) w).
  destruct (@extendWindow_spec minutes endMinute n i) as (H1 & H2 & H3);
    [lia | lia |].
  fold n in H1, H2, H3.
  set (j := extendWindow n minutes n endMinute i) in *.
  assert (Hend : numLeb (Fin (nth j minutes 0)) endMinute = true).
  { destruct (Nat.eq_dec j i) as [E|Hne].
    - rewrite E. apply (@endMinuteOf_start minutes Num); [exact Hw | fold n; lia].
    - apply H2. lia. }
  unfold windowAt, intervalOf; cbn [iv_start iv_end iv_score cand_i cand_j
    cand_start cand_end cand_score]. fold n.
  split; [lia|]. split; [reflexivity|]. split; [reflexivity|].
  split; [apply window_score; lia|].
  split; [apply Asc; fold n; lia|].
  split.
  - intros t Ht. fold endMinute.
    apply (@numLeb_mono_l _ (nth j minutes 0)); [|exact Hend].
    apply Asc. fold n. lia.
  - intros t Ht. fold endMinute.
    assert (L : nth (j + 1) minutes 0 <= nth t minutes 0)
      by (apply Asc; fold n; lia).
    assert (G : numLeb (Fin (nth (j + 1) minutes 0)) endMinute = false)
      by (apply H3; lia).
    destruct (numLeb (Fin (nth t minutes 0)) endMinute) eqn:F; [|reflexivity].
    rewrite (@numLeb_mono_l _ _ _ L F) in G. discriminate G.
Qed.

Lemma extendWindow_range (minutes : list Q) (n : nat) (endMinute : Num)
      (fuel i : nat) :
  (i < n)%nat -> (i <= extendWindow fuel minutes n endMinute i < n)%nat.
Proof.
  revert i. induction fuel as [|f IH]; intros i Hi; cbn [extendWindow]; [lia|].
  destruct (i + 1 <? n)%nat eqn:E; cbn [andb]; [|lia].
  destruct (numLeb _ _); [|lia].
  apply Nat.ltb_lt in E. specialize (IH (i + 1)%nat). lia.
Qed.

(** When the running sums stay finite, no score is [NaN]. *)
Lemma windowCandidates_comparable (minutes values : list Q) (w : Q) :
  length values = length minutes -> finiteSums values ->
  Forall (fun c => comparable (cand_score c)) (windowCandidates minutes values w).
Proof.
  intros Hlen F. apply Forall_forall. intros c Hc.
  unfold windowCandidates in Hc.
  apply in_map_iff in Hc. destruct Hc as (i & <- & Hi). apply in_seq in Hi.
  set (n := length minutes) in *.
  set (endMinute := endMinuteOf (nth i minutes 0) w).
  assert (Hj : (i <= extendWindow n minutes n endMinute i < n)%nat)
    by (apply extendWindow_range; lia).
  set (j := extendWindow n minutes n endMinute i) in *.
  cbn [cand_score]. unfold finiteSums in F. rewrite Forall_forall in F.
  assert (P : forall t, (t <= n)%nat ->
                exists q, nth t (prefixSums (Fin 0) values) NaN = Fin q).
  { intros t Ht.
    assert (I : In (nth t (prefixSums (Fin 0) values) NaN)
                   (prefixSums (Fin 0) values)).
    { apply nth_In. rewrite prefixSums_length, Hlen. fold n. lia. }
    specialize (F _ I).
    destruct (nth t (prefixSums (Fin 0) values) NaN) as [q| | |];
      [exists q; reflexivity | | |]; exfalso; apply F; reflexivity. }
  destruct (P (j + 1)%nat) as (a & ->); [lia|].
  destruct (P i) as (b & ->); [lia|].
  apply round64_comparable.
Qed.

(** The loop appends to [picked], only intervals of candidates, at most one
    per candidate. *)
Lemma pickLoop_prefix (kk : Q) (candidates : list Candidate)
      (picked : list Interval) (used : list (nat * nat)) :
  exists more,
    pickLoop kk candidates picked used = picked ++ more
    /\ Forall (fun iv => exists c, In c candidates /\ iv = intervalOf c) more
    /\ (length more <= length candidates)%nat.
Proof.
  revert picked used. induction candidates as [|c rest IH]; intros picked used.
  - exists []. simpl. rewrite app_nil_r. repeat split; [constructor | lia].
  - simpl. destruct (Qle_bool kk _).
    { exists []. rewrite app_nil_r. repeat split; [constructor | simpl; lia]. }
    destruct (existsb _ used).
    + destruct (IH picked used) as (more & E & F & L).
      exists more. split; [exact E|]. split; [|simpl; lia].
      eapply Forall_impl; [|exact F].
      intros iv (d & Hd & ->). exists d. split; [right; exact Hd | reflexivity].
    + match goal with
      | |- context [pickLoop kk rest ?p ?u] => destruct (IH p u) as (more & E & F & L)
      end.
      exists (intervalOf c :: more). rewrite E, <- app_assoc.
      split; [reflexivity|]. split; [|simpl; lia].
      constructor.
      * exists c. split; [left; reflexivity | reflexivity].
      * eapply Forall_impl; [|exact F].
        intros iv (d & Hd & ->). exists d. split; [right; exact Hd | reflexivity].
Qed.

(** The loop never holds more than [n] intervals when [kk <= n]. *)
Lemma pickLoop_bound (kk : Q) (n : nat) (candidates : list Candidate)
      (picked : list Interval) (used : list (nat * nat)) :
  kk <= inject_Z (Z.of_nat n) -> (length picked <= n)%nat ->
  (length (pickLoop kk candidates picked used) <= n)%nat.
Proof.
  intros Hk. revert picked used.
  induction candidates as [|c rest IH]; intros picked used Hp; simpl;
    [exact Hp|].
  destruct (Qle_bool kk _) eqn:E; [exact Hp|].
  destruct (existsb _ used); [apply IH, Hp|].
  apply IH. rewrite length_app; simpl.
  assert (L : inject_Z (Z.of_nat (length picked)) < inject_Z (Z.of_nat n)).
  { apply Qnot_le_lt. intros G.
    assert (X : kk <= inject_Z (Z.of_nat (length picked))) by lra.
    apply Qle_bool_iff in X. congruence. }
  rewrite <- Zlt_Qlt in L. lia.
Qed.

(** With [kk > 0] the first candidate is always picked. *)
Lemma pickLoop_first (kk : Q) (c : Candidate) (rest : list Candidate) :
  0 < kk ->
  exists more, pickLoop kk (c :: rest) [] [] = intervalOf c :: more.
Proof.
  intros Hk. cbn [pickLoop length].
  assert (E : Qle_bool kk (inject_Z (Z.of_nat 0)) = false).
  { destruct (Qle_bool kk (inject_Z (Z.of_nat 0))) eqn:E; [|reflexivity].
    apply Qle_bool_iff in E. change (kk <= 0) in E. lra. }
  rewrite E. cbn [existsb app].
  match goal with
  | |- context [pickLoop kk rest ?p ?u] =>
      destruct (pickLoop_prefix kk rest p u) as (more & F & _)
  end.
  exists more. rewrite F. reflexivity.
Qed.

Section TopKMore.
Context {host : Coercions}.
Variable curveRows : list Row.
Variable seriesKey : jsstring.
Variables windowSize k : Q.

Let sorted := sortByMinute curveRows.
Let minutes := map minuteOf sorted.
Let values := map (seriesValue seriesKey) sorted.
Let w := Qmax 1 (Qmin 20 windowSize).
Let kk := Qmax 1 (Qmin 5 k).
Let candidates :=
  sortBy (fun a b => numSign (numSub (cand_score b) (cand_score a)))
         (windowCandidates minutes values w).
Let out := topKIntervals curveRows seriesKey windowSize k.

Lemma topK_unfold :
  curveRows <> [] ->
  out = sortBy (fun a b => iv_start a - iv_start b) (pickLoop kk candidates [] []).
Proof.
  unfold out, candidates, kk, w, values, minutes, sorted, topKIntervals.
  destruct curveRows; [intros N; contradiction N; reflexivity | reflexivity].
Qed.

Lemma topK_rows_cases : curveRows = [] \/ curveRows <> [].
Proof. destruct curveRows; [left; reflexivity | right; discriminate]. Qed.

Lemma topK_empty : curveRows = [] -> out = [].
Proof. intros E. unfold out. rewrite E. reflexivity. Qed.

Lemma topK_minutes_ascending : ascending minutes.
Proof. apply sortBy_ascending. Qed.

Lemma topK_candidates_length : length candidates = length curveRows.
Proof.
  unfold candidates.
  rewrite (Permutation_length (sortBy_perm _ _)).
  unfold windowCandidates. rewrite length_map, length_seq.
  unfold minutes, sorted, sortByMinute.
  rewrite length_map. apply Permutation_length, sortBy_perm.
Qed.

Lemma topK_members (iv : Interval) :
  In iv out ->
  exists c, In c (windowCandidates minutes values w) /\ iv = intervalOf c.
Proof.
  intros Hin. destruct topK_rows_cases as [E|N].
  - rewrite (topK_empty E) in Hin. destruct Hin.
  - rewrite (topK_unfold N) in Hin. apply sortBy_In in Hin.
    destruct (pickLoop_prefix kk candidates [] []) as (more & Em & F & _).
    rewrite Em in Hin. simpl in Hin.
    rewrite Forall_forall in F. destruct (F iv Hin) as (c & Hc & ->).
    exists c. split; [|reflexivity].
    unfold candidates in Hc. apply sortBy_In in Hc. exact Hc.
Qed.

Lemma topK_pairs : ForallOrdPairs apart out.
Proof.
  destruct topK_rows_cases as [E|N].
  - rewrite (topK_empty E). constructor.
  - rewrite (topK_unfold N).
    assert (Closed : Forall (windowClosed minutes) candidates).
    { eapply Permutation_Forall; [symmetry; apply sortBy_perm|].
      apply windowCandidates_closed;
        [apply topK_minutes_ascending | apply minutes_representable
         | apply Q.le_max_l]. }
    destruct (@pickLoop_chosen kk candidates [])
      as (chosen & H1 & H2 & H3); [constructor|].
    simpl in H1, H2. rewrite H1.
    eapply pairs_perm; [exact apart_sym | symmetry; apply sortBy_perm |].
    rewrite Forall_forall in Closed.
    clear H1. induction H3 as [|c l Hc Hl IH]; simpl; [constructor|].
    constructor.
    + rewrite Forall_forall in *. intros x Hx.
      apply in_map_iff in Hx. destruct Hx as (d & <- & Hd).
      apply (@closed_apart minutes).
      * apply Closed, H2. left; reflexivity.
      * apply Closed, H2. right; exact Hd.
      * apply Hc, Hd.
    + apply IH. intros x Hx. apply H2. right; exact Hx.
Qed.

(** X1.  Every returned interval is the window of a run of consecutive rows of
    the minute-sorted series: it starts on a row, extends over the following
    rows whose minute is no greater than its start plus [w - 1] as the code
    computes that sum, where [w] is the window size clamped to [1, 20],
    stops before the first row beyond, and its score is the running sum of
    the values up to its last row less the running sum before its first
    row, both as the code accumulates them. *)
Theorem topKIntervals_windows (iv : Interval) :
  In iv (topKIntervals curveRows seriesKey windowSize k) ->
  exists i j,
    windowAt (map minuteOf (sortByMinute curveRows))
             (map (seriesValue seriesKey) (sortByMinute curveRows))
             (Qmax 1 (Qmin 20 windowSize)) i j iv.
Proof.
  intros Hin. destruct (topK_members iv Hin) as (c & Hc & ->).
  pose proof (@windowCandidates_windows minutes values w
                topK_minutes_ascending (minutes_representable sorted)
                (Q.le_max_l _ _)) as W.
  rewrite Forall_forall in W. exists (cand_i c), (cand_j c).
  apply W; [|exact Hc]. unfold values, minutes. rewrite !length_map. reflexivity.
Qed.

(** X2.  At most five intervals are returned, never more than there are rows,
    and at least one as soon as the series has a row. *)
Theorem topKIntervals_count :
  (length (topKIntervals curveRows seriesKey windowSize k) <= 5)%nat
  /\ (length (topKIntervals curveRows seriesKey windowSize k)
      <= length curveRows)%nat
  /\ (curveRows <> [] -> topKIntervals curveRows seriesKey windowSize k <> []).
Proof.
  fold out. destruct topK_rows_cases as [E|N].
  - rewrite (topK_empty E). simpl. repeat split; try lia.
    intros N; contradiction.
  - pose proof topK_candidates_length as L.
    rewrite (topK_unfold N).
    rewrite (Permutation_length (sortBy_perm _ _)).
    split; [|split].
    + apply pickLoop_bound; [|simpl; lia].
      apply Q.max_lub; [|apply Q.le_min_l].
      unfold Qle; simpl; lia.
    + destruct (pickLoop_prefix kk candidates [] []) as (more & Em & _ & Lm).
      rewrite Em. simpl. rewrite topK_candidates_length in Lm. exact Lm.
    + intros _ Hnil. apply (f_equal (@length _)) in Hnil.
      rewrite (Permutation_length (sortBy_perm _ _)) in Hnil.
      destruct candidates as [|c0 rest];
        [destruct curveRows; [contradiction N; reflexivity | discriminate L]|].
      destruct (@pickLoop_first kk c0 rest) as (more & Em).
      * eapply Qlt_le_trans; [|apply Q.le_max_l]. reflexivity.
      * rewrite Em in Hnil. discriminate Hnil.
Qed.

(** X3.  When the running sums of the values of the minute-sorted series
    stay finite, a window of greatest score is among the returned
    intervals: no window anchored at a row of the series has a greater
    score, the scores being those the code computes. *)
Theorem topKIntervals_best :
  curveRows <> [] ->
  finiteSums (map (seriesValue seriesKey) (sortByMinute curveRows)) ->
  exists best,
    In best (topKIntervals curveRows seriesKey windowSize k)
    /\ forall c,
        In c (windowCandidates (map minuteOf (sortByMinute curveRows))
                (map (seriesValue seriesKey) (sortByMinute curveRows))
                (Qmax 1 (Qmin 20 windowSize))) ->
        numLe (cand_score c) (iv_score best).
Proof.
  intros N Fs. fold out. rewrite (topK_unfold N).
  assert (Cmp : forall c, In c (windowCandidates minutes values w) ->
                          comparable (cand_score c)).
  { apply Forall_forall, windowCandidates_comparable; [|exact Fs].
    unfold values, minutes. rewrite !length_map. reflexivity. }
  pose proof (@sortBy_descending_num _ cand_score
                (windowCandidates minutes values w) Cmp) as S.
  fold candidates in S.
  assert (M : forall c, In c (windowCandidates minutes values w) -> In c candidates)
    by (intros c Hc; apply sortBy_In; exact Hc).
  destruct candidates as [|c0 rest] eqn:E.
  { pose proof topK_candidates_length as L. rewrite E in L.
    destruct curveRows; [contradiction N; reflexivity | discriminate L]. }
  destruct (@pickLoop_first kk c0 rest) as (more & Em).
  { eapply Qlt_le_trans; [|apply Q.le_max_l]. reflexivity. }
  exists (intervalOf c0). split.
  - apply sortBy_In. rewrite Em. left; reflexivity.
  - intros c Hc. apply M in Hc. simpl.
    apply StronglySorted_inv in S. destruct S as [_ S].
    rewrite Forall_forall in S.
    destruct Hc as [<-|Hc]; [|apply S, Hc].
    apply numLe_refl, comparable_not_NaN, Cmp.
    apply sortBy_In with (cmp := fun a b =>
      numSign (numSub (cand_score b) (cand_score a))).
    fold candidates. rewrite E. left; reflexivity.
Qed.

(** X4.  The returned intervals are listed in increasing order and do not touch:
    each one ends strictly before the next one starts. *)
Theorem topKIntervals_ordered (p q : nat) (a b : Interval) :
  (p < q)%nat ->
  nth_error (topKIntervals curveRows seriesKey windowSize k) p = Some a ->
  nth_error (topKIntervals curveRows seriesKey windowSize k) q = Some b ->
  iv_end a < iv_start b.
Proof.
  intros Hpq Ha Hb. fold out in Ha, Hb.
  assert (Hab : apart a b) by exact (pairs_nth_lt topK_pairs Hpq Ha Hb).
  assert (S : iv_start a <= iv_start b).
  { destruct topK_rows_cases as [E|N].
    - rewrite (topK_empty E) in Ha. destruct p; discriminate Ha.
    - rewrite (topK_unfold N) in Ha, Hb.
      exact (pairs_nth_lt (sorted_pairs (sortBy_sorted iv_start _)) Hpq Ha Hb). }
  assert (Wb : iv_start b <= iv_end b).
  { destruct (topK_members b (nth_error_In _ _ Hb)) as (c & Hc & ->).
    pose proof (@windowCandidates_closed minutes topK_minutes_ascending
                  (minutes_representable sorted) values w (Q.le_max_l _ _)) as C.
    rewrite Forall_forall in C. destruct (C c Hc) as (C1 & C2 & C3 & _).
    simpl. rewrite C2, C3. apply topK_minutes_ascending. exact C1. }
  unfold apart in Hab.
  destruct (Q.max_spec_le (iv_start a) (iv_start b)) as [[_ M]|[M' M]];
    destruct (Q.min_spec_le (iv_end a) (iv_end b)) as [[_ m]|[_ m]];
    rewrite M, m in Hab; lra.
Qed.
End TopKMore.

(** ** The peak: order of the rows, and the curve the dashboard draws *)

Lemma Qltb_compat (a b c : Q) : a == b -> Qltb a c = Qltb b c.
Proof.
  intros E. destruct (Qltb a c) eqn:Ha, (Qltb b c) eqn:Hb; try reflexivity.
  - apply Qltb_lt in Ha. apply Qltb_ge in Hb. lra.
  - apply Qltb_ge in Ha. apply Qltb_lt in Hb. lra.
Qed.

Lemma sorted_after (A : Type) (R : A -> A -> Prop) (pre post : list A) (r : A) :
  StronglySorted R (pre ++ r :: post) -> Forall (R r) post.
Proof.
  induction pre as [|x pre IH]; simpl; intros S.
  - apply StronglySorted_inv in S. tauto.
  - apply StronglySorted_inv in S. apply IH. tauto.
Qed.

Section PeakMore.
Context {host : Coercions}.
Variable seriesKey : jsstring.

(** The row behind a peak: a row of the series whose value no row exceeds. *)
Lemma computePeak_maximum (rows : list Row) :
  match computePeak rows seriesKey with
  | Some p =>
      0 <= peak_value p
      /\ (exists r, In r rows /\ peak_value p = seriesValue seriesKey r)
      /\ forall x, In x rows -> seriesValue seriesKey x <= peak_value p
  | None => rows = [] \/ forall x, In x rows -> seriesValue seriesKey x < 0
  end.
Proof.
  destruct rows as [|a rest]; [left; reflexivity|].
  destruct (computePeak_cons seriesKey a rest) as (pre & r & post & Heq & Hc & H1 & H2).
  rewrite Hc, Heq.
  assert (M : forall x, In x (pre ++ r :: post) ->
                        seriesValue seriesKey x <= seriesValue seriesKey r).
  { intros x Hx. apply in_app_or in Hx. destruct Hx as [Hx|[<-|Hx]].
    - apply Qlt_le_weak, H1, Hx.
    - apply Qle_refl.
    - apply H2, Hx. }
  destruct (Qltb (seriesValue seriesKey r) 0) eqn:E.
  - apply Qltb_lt in E. right. intros x Hx. specialize (M x Hx). lra.
  - apply Qltb_ge in E. simpl. split; [exact E|]. split; [|exact M].
    exists r. split; [apply in_elt | reflexivity].
Qed.

(** X5.  The value of the peak, and whether there is one, do not depend on the
    order of the rows; a peak value is never negative. *)
Theorem computePeak_value_any_order (rows rows' : list Row) :
  Permutation rows rows' ->
  (computePeak rows seriesKey = None <-> computePeak rows' seriesKey = None)
  /\ (forall p p',
        computePeak rows seriesKey = Some p ->
        computePeak rows' seriesKey = Some p' ->
        peak_value p == peak_value p' /\ 0 <= peak_value p).
Proof.
  intros P.
  pose proof (computePeak_maximum rows) as M.
  pose proof (computePeak_maximum rows') as M'.
  destruct (computePeak rows seriesKey) as [p|], (computePeak rows' seriesKey) as [p'|].
  - split; [split; discriminate|]. intros q q' E E'.
    injection E as <-. injection E' as <-.
    destruct M as (M0 & (r & Hr & Er) & Mx), M' as (_ & (r' & Hr' & Er') & Mx').
    split; [|exact M0].
    apply Qle_antisym.
    + rewrite Er. apply Mx'. eapply Permutation_in; eassumption.
    + rewrite Er'. apply Mx. eapply Permutation_in; [symmetry|]; eassumption.
  - exfalso. destruct M as (M0 & (r & Hr & Er) & _).
    destruct M' as [E|N].
    + subst rows'. apply Permutation_sym, Permutation_nil in P. subst. destruct Hr.
    + specialize (N r (Permutation_in _ P Hr)). rewrite <- Er in N. lra.
  - exfalso. destruct M' as (M0 & (r & Hr & Er) & _).
    destruct M as [E|N].
    + subst rows. apply Permutation_nil in P. subst. destruct Hr.
    + specialize (N r (Permutation_in _ (Permutation_sym P) Hr)).
      rewrite <- Er in N. lra.
  - split; [tauto|]. intros p p' E. discriminate E.
Qed.

(** Every row of [curveData] carries its minute as a number. *)
Lemma curveData_minute (tables : TableMap) (curveMode : ColorMode) (x : Row) :
  In x (curveData tables curveMode) -> minuteOf x = curveMinute x.
Proof.
  unfold curveData. intros Hx. apply sortBy_In in Hx.
  apply in_map_iff in Hx. destruct Hx as (r & <- & _).
  unfold minuteOf, curveMinute. rewrite ObjFacts.get_set_eq.
  apply safeNumber_VNum, safeNumber_representable.
Qed.

(** X6.  On the curve the dashboard draws, which is sorted by minute, the peak
    is the earliest of the rows that hold the maximum. *)
Theorem curveData_peak_earliest (tables : TableMap) (curveMode : ColorMode)
        (p : Peak) (x : Row) :
  computePeak (curveData tables curveMode) seriesKey = Some p ->
  In x (curveData tables curveMode) ->
  seriesValue seriesKey x == peak_value p ->
  peak_minute p <= minuteOf x.
Proof.
  intros Hp Hx Hv.
  assert (S : StronglySorted (fun a b => curveMinute a <= curveMinute b)
                             (curveData tables curveMode))
    by apply sortBy_sorted.
  destruct (curveData tables curveMode) as [|a rest] eqn:E; [destruct Hx|].
  destruct (computePeak_cons seriesKey a rest) as (pre & r & post & Heq & Hc & H1 & H2).
  rewrite Hc in Hp. destruct (Qltb (seriesValue seriesKey r) 0); [discriminate Hp|].
  injection Hp as <-. simpl in Hv |- *.
  assert (Mr : minuteOf r = curveMinute r).
  { apply (@curveData_minute tables curveMode). rewrite E, Heq. apply in_elt. }
  assert (Mx : minuteOf x = curveMinute x).
  { apply (@curveData_minute tables curveMode). rewrite E. exact Hx. }
  rewrite Mr, Mx. rewrite Heq in Hx, S.
  apply in_app_or in Hx. destruct Hx as [Hx|[<-|Hx]].
  - specialize (H1 x Hx). lra.
  - apply Qle_refl.
  - pose proof (sorted_after _ _ _ S) as F. rewrite Forall_forall in F.
    apply F, Hx.
Qed.
End PeakMore.

(** ** The store: order, read-back, ignored files, keys *)

Lemma find_all_false (A : Type) (f : A -> bool) (l : list A) :
  (forall x, In x l -> f x = false) -> find f l = None.
Proof.
  induction l as [|x l IH]; intros H; simpl; [reflexivity|].
  rewrite (H x (or_introl eq_refl)). apply IH. intros y Hy. apply H. right; exact Hy.
Qed.

Lemma tableFiles_csv (ke : jsstring * jsstring) :
  In ke tableFiles -> snd ke = js ".csv".
Proof.
  unfold tableFiles. simpl. intros H.
  repeat (destruct H as [<-|H]; [reflexivity|]). destruct H.
Qed.

(** Only a name with a data extension is classified. *)
Lemma detectTableKey_extension (name : jsstring) (d : Detected) :
  detectTableKey name = Some d -> hasDataExtension name = true.
Proof.
  unfold detectTableKey, hasDataExtension.
  destruct (endsWith (js ".csv") (toLowerCase name)) eqn:C; [reflexivity|].
  destruct (endsWith (js ".json") (toLowerCase name)) eqn:J; [reflexivity|].
  rewrite !andb_false_r. rewrite find_all_false; [discriminate|].
  intros ke Hke. rewrite (tableFiles_csv Hke), C. apply andb_false_r.
Qed.

Lemma takeDigits_digits (s : jsstring) : forallb isDigit (takeDigits s) = true.
Proof.
  induction s as [|c s IH]; simpl; [reflexivity|].
  destruct (isDigit c) eqn:E; simpl; [rewrite E; exact IH | reflexivity].
Qed.

Lemma matchEp_digits (s ep : jsstring) : matchEp s = Some ep -> isEpisodeId ep.
Proof.
  induction s as [|c r IH]; simpl; [discriminate|].
  destruct r as [|d r']; [exact IH|].
  destruct (((c =? 101) || (c =? 69))%Z && ((d =? 112) || (d =? 80))%Z);
    [|exact IH].
  pose proof (takeDigits_digits r') as D.
  destruct (takeDigits r') as [|x ds]; [exact IH|].
  intros E. injection E as <-. split; [discriminate | exact D].
Qed.

Lemma digits23_digits (s ep : jsstring) : digits23 s = Some ep -> isEpisodeId ep.
Proof.
  unfold digits23. destruct s as [|a [|b [|c rest]]]; try discriminate.
  destruct (isDigit a) eqn:A, (isDigit b) eqn:B; simpl; try discriminate.
  destruct (isDigit c) eqn:C; simpl.
  - destruct (match rest with d :: _ => isSep d | [] => false end).
    + intros E. injection E as <-. split; [discriminate|].
      simpl. rewrite A, B, C. reflexivity.
    + destruct (isSep c); [|discriminate].
      intros E. injection E as <-. split; [discriminate|].
      simpl. rewrite A, B. reflexivity.
  - destruct (isSep c); [|discriminate].
    intros E. injection E as <-. split; [discriminate|].
    simpl. rewrite A, B. reflexivity.
Qed.

Lemma matchSepDigits_digits (s ep : jsstring) :
  matchSepDigits s = Some ep -> isEpisodeId ep.
Proof.
  induction s as [|c r IH]; simpl; [discriminate|].
  destruct (isSep c); [|exact IH].
  destruct (digits23 r) as [ds|] eqn:E; [|exact IH].
  intros F. injection F as <-. exact (digits23_digits _ E).
Qed.

(** An extracted episode identifier is a non-empty string of digits. *)
Lemma parseEpisodeFromName_digits (name ep : jsstring) :
  parseEpisodeFromName name = Some ep -> isEpisodeId ep.
Proof.
  unfold parseEpisodeFromName, matchFallback.
  destruct (matchEp name) as [ds|] eqn:E.
  - intros F. injection F as <-. exact (matchEp_digits _ E).
  - destruct (digits23 name) as [ds|] eqn:F.
    + intros G. injection G as <-. exact (digits23_digits _ F).
    + apply matchSepDigits_digits.
Qed.

(** What [detectTableKey] can return: a known key, and as episode, if any,
    a non-empty string of digits. *)
Lemma detectTableKey_result (name : jsstring) (d : Detected) :
  detectTableKey name = Some d ->
  (det_key d = KEY_EPISODE_STATS \/ det_key d = KEY_BASIC_STATS
   \/ In (det_key d) (map fst tableFiles))
  /\ forall ep, det_ep d = Some ep -> isEpisodeId ep.
Proof.
  unfold detectTableKey.
  destruct (includes KEY_EPISODE_STATS _ && _).
  { intros E. injection E as <-. simpl. split; [auto | discriminate]. }
  destruct (includes KEY_BASIC_STATS _ && _).
  { intros E. injection E as <-. simpl. split; [auto|].
    intros ep. apply parseEpisodeFromName_digits. }
  destruct (find _ tableFiles) as [[key ext]|] eqn:F; [|discriminate].
  intros E. injection E as <-. simpl. split.
  - right; right. apply find_some in F. destruct F as [F _].
    apply (in_map fst) in F. exact F.
  - intros ep. apply parseEpisodeFromName_digits.
Qed.

Section StoreMore.
Context {host : Coercions}.

Lemma mergeEpisodes_sorted (t : Obj.t TableMap) (b : Obj.t Json)
      (s : option (list Row)) :
  StronglySorted (fun a b => episodeNumber a <= episodeNumber b)
                 (mergeEpisodes t b s).
Proof.
  unfold mergeEpisodes.
  change episodeOrder with (fun a b => episodeNumber a - episodeNumber b).
  apply sortBy_sorted.
Qed.

Lemma episodes_pair_order (files : list (jsstring * FileText))
      (p q : nat) (a b : jsstring) :
  (p < q)%nat ->
  nth_error (episodes (ingestAll files)) p = Some a ->
  nth_error (episodes (ingestAll files)) q = Some b ->
  episodeNumber a <= episodeNumber b.
Proof.
  intros Hpq Ha Hb.
  pose proof (ingestAll_derived files) as D. unfold episodesDerived in D.
  rewrite D in Ha, Hb.
  exact (pairs_nth_lt (sorted_pairs (mergeEpisodes_sorted _ _ _)) Hpq Ha Hb).
Qed.

(** X7.  After any sequence of ingests the episodes are listed in ascending
    order of their number, [safeNumber] of the identifier. *)
Theorem episodes_in_numeric_order (files : list (jsstring * FileText))
        (p q : nat) (a b : jsstring) :
  (p < q)%nat ->
  nth_error (episodes (ingestAll files)) p = Some a ->
  nth_error (episodes (ingestAll files)) q = Some b ->
  episodeNumber a <= episodeNumber b.
Proof. apply episodes_pair_order. Qed.

Lemma ingest_update (st : Store) (file : jsstring * FileText) :
  ingest st file = applyUpdate (updateOf file) st.
Proof.
  unfold updateOf. ingest_cases file; reflexivity.
Qed.

Lemma tableOf_putTable (st : Store) (ep key : jsstring) (rows : list Row)
      (ep' key' : jsstring) :
  tableOf (putTable ep key rows st) ep' key'
  = if jseqb ep' ep && jseqb key' key then Some rows else tableOf st ep' key'.
Proof.
  unfold tableOf, putTable; simpl.
  destruct (jseqb ep' ep) eqn:E; simpl.
  - apply jseqb_eq in E; subst ep'. rewrite ObjFacts.get_set_eq.
    destruct (jseqb key' key) eqn:K.
    + apply jseqb_eq in K; subst key'. apply ObjFacts.get_set_eq.
    + apply jseqb_false in K.
      rewrite ObjFacts.get_set_ne by congruence.
      destruct (Obj.get ep (tablesByEp st)); reflexivity.
  - apply jseqb_false in E. rewrite ObjFacts.get_set_ne by congruence.
    reflexivity.
Qed.

(** X8.  A per-episode table that parses can be read back from its slot, and its
    episode is known. *)
Theorem table_read_back (st : Store) (name : jsstring) (text : FileText)
        (key ep : jsstring) (rows : list Row) :
  isEpisodeTable name key ep ->
  parseCsv text = Some rows ->
  let st' := ingest st (name, text) in
  tableOf st' ep key = Some rows /\ In ep (episodes st').
Proof.
  intros (Hd & N1 & N2) Hp st'. subst st'.
  unfold ingest, ingestFileText; simpl fst; simpl snd.
  rewrite Hd; simpl det_key; simpl det_ep.
  rewrite (jseqb_neq N1), (jseqb_neq N2), Hp. split.
  - rewrite tableOf_putTable, !jseqb_refl. reflexivity.
  - simpl. apply mergeEpisodes_In. left.
    apply ObjFacts.ownKeys_set. left; reflexivity.
Qed.

(** X9.  A basic-stats file that parses can be read back under its episode, which
    is known; the tables and the global table are untouched. *)
Theorem basic_stats_read_back (st : Store) (name : jsstring) (text : FileText)
        (ep : jsstring) (obj : Json) :
  isBasicStats name ep ->
  JSON_parse text = Some obj ->
  let st' := ingest st (name, text) in
  Obj.get ep (basicStatsByEp st') = Some obj
  /\ In ep (episodes st')
  /\ (forall ep', ep' <> ep ->
        Obj.get ep' (basicStatsByEp st') = Obj.get ep' (basicStatsByEp st))
  /\ tablesByEp st' = tablesByEp st
  /\ episodeStats st' = episodeStats st.
Proof.
  intros Hd Hp st'. subst st'.
  unfold ingest, ingestFileText; simpl fst; simpl snd.
  rewrite Hd; simpl det_key; simpl det_ep.
  replace (jseqb KEY_BASIC_STATS KEY_EPISODE_STATS) with false by reflexivity.
  rewrite jseqb_refl, Hp. simpl. repeat split.
  - apply ObjFacts.get_set_eq.
  - apply mergeEpisodes_In. right; left.
    apply ObjFacts.ownKeys_set. left; reflexivity.
  - intros ep' Hne. apply ObjFacts.get_set_ne. congruence.
Qed.

(** X10.  A global scalar-stats file that parses becomes the global table as a
    whole; the episodes are then those of the tables, of the basic stats and
    of the new rows, whatever the previous global table held. *)
Theorem global_stats_read_back (st : Store) (name : jsstring) (text : FileText)
        (rows : list Row) :
  isGlobalStats name = true ->
  parseCsv text = Some rows ->
  let st' := ingest st (name, text) in
  episodeStats st' = Some rows
  /\ tablesByEp st' = tablesByEp st
  /\ basicStatsByEp st' = basicStatsByEp st
  /\ forall e, In e (episodes st')
               <-> In e (Obj.ownKeys (tablesByEp st))
                   \/ In e (Obj.ownKeys (basicStatsByEp st))
                   \/ In e (embeddedEpisodes (Some rows)).
Proof.
  intros Hd Hp st'. subst st'. unfold isGlobalStats in Hd.
  unfold ingest, ingestFileText; simpl fst; simpl snd.
  destruct (detectTableKey name) as [d|]; [|discriminate Hd].
  rewrite Hd, Hp. simpl. split; [reflexivity|]. split; [reflexivity|].
  split; [reflexivity|]. intros e. apply mergeEpisodes_In.
Qed.

(** X11.  Files that are silently skipped: a name without the [.csv] or [.json]
    extension, and a per-episode or basic-stats file whose name yields no
    episode identifier.  The call returns normally and the store is the
    same, whatever the text. *)
Theorem ingest_skips (st : Store) (name : jsstring) (text : FileText) :
  hasDataExtension name = false
  \/ (exists d, detectTableKey name = Some d
                /\ det_key d <> KEY_EPISODE_STATS /\ det_ep d = None) ->
  ingestFileText name text st = Some st.
Proof.
  intros [H|(d & Hd & Hk & He)]; unfold ingestFileText.
  - destruct (detectTableKey name) as [d|] eqn:E; [|reflexivity].
    apply detectTableKey_extension in E. congruence.
  - rewrite Hd, (jseqb_neq Hk), He.
    destruct (jseqb (det_key d) KEY_BASIC_STATS); reflexivity.
Qed.

Lemma updateOf_result (file : jsstring * FileText) :
  match updateOf file with
  | UBasic ep _ => isEpisodeId ep
  | UTable ep key _ => isEpisodeId ep /\ In key (map fst tableFiles)
  | _ => True
  end.
Proof.
  unfold updateOf.
  destruct (detectTableKey (fst file)) as [d|] eqn:E; [|exact I].
  destruct (detectTableKey_result _ E) as (K & D).
  destruct (jseqb (det_key d) KEY_EPISODE_STATS) eqn:E1.
  { destruct (parseCsv (snd file)); exact I. }
  destruct (jseqb (det_key d) KEY_BASIC_STATS) eqn:E2.
  { destruct (det_ep d) as [ep|]; [|exact I].
    destruct (JSON_parse (snd file)); [|exact I]. apply D. reflexivity. }
  destruct (det_ep d) as [ep|]; [|exact I].
  destruct (parseCsv (snd file)); [|exact I].
  split; [apply D; reflexivity|].
  apply jseqb_false in E1, E2. destruct K as [K|[K|K]]; [contradiction..|exact K].
Qed.

Lemma ingestAll_keys (files : list (jsstring * FileText)) :
  let st := ingestAll files in
  (forall ep, In ep (Obj.ownKeys (tablesByEp st)) -> isEpisodeId ep)
  /\ (forall ep, In ep (Obj.ownKeys (basicStatsByEp st)) -> isEpisodeId ep)
  /\ (forall ep key rows, tableOf st ep key = Some rows ->
                          In key (map fst tableFiles)).
Proof.
  unfold ingestAll.
  assert (G : forall st,
    ((forall ep, In ep (Obj.ownKeys (tablesByEp st)) -> isEpisodeId ep)
     /\ (forall ep, In ep (Obj.ownKeys (basicStatsByEp st)) -> isEpisodeId ep)
     /\ (forall ep key rows, tableOf st ep key = Some rows ->
                             In key (map fst tableFiles))) ->
    let st := fold_left ingest files st in
    (forall ep, In ep (Obj.ownKeys (tablesByEp st)) -> isEpisodeId ep)
    /\ (forall ep, In ep (Obj.ownKeys (basicStatsByEp st)) -> isEpisodeId ep)
    /\ (forall ep key rows, tableOf st ep key = Some rows ->
                            In key (map fst tableFiles))).
  { induction files as [|f fs IH]; intros st H; simpl; [exact H|].
    apply IH. destruct H as (H1 & H2 & H3).
    rewrite ingest_update. pose proof (updateOf_result f) as R.
    destruct (updateOf f) as [|rows|ep obj|ep key rows]; simpl.
    - auto.
    - auto.
    - split; [exact H1|]. split; [|exact H3].
      intros e He. apply ObjFacts.ownKeys_set in He.
      destruct He as [->|He]; [exact R | apply H2, He].
    - destruct R as (R1 & R2). split; [|split; [exact H2|]].
      + intros e He. apply ObjFacts.ownKeys_set in He.
        destruct He as [->|He]; [exact R1 | apply H1, He].
      + intros e k rs. rewrite tableOf_putTable.
        destruct (jseqb e ep && jseqb k key) eqn:B.
        * apply andb_true_iff in B. destruct B as [_ B].
          apply jseqb_eq in B. subst k. intros _. exact R2.
        * apply H3. }
  apply G. simpl. repeat split; intros; try contradiction; discriminate.
Qed.

(** X12.  After any sequence of ingests, every episode key of the per-episode
    tables and of the basic stats is a non-empty string of decimal digits,
    and every table is stored under one of the seventeen known table keys. *)
Theorem store_keys_well_formed (files : list (jsstring * FileText)) :
  let st := ingestAll files in
  (forall ep, In ep (Obj.ownKeys (tablesByEp st)) -> isEpisodeId ep)
  /\ (forall ep, In ep (Obj.ownKeys (basicStatsByEp st)) -> isEpisodeId ep)
  /\ (forall ep key rows, tableOf st ep key = Some rows ->
                          In key (map fst tableFiles)).
Proof. exact (ingestAll_keys files). Qed.
End StoreMore.

(** ** The store: ingests on the same slot and on different slots *)

Lemma set_overwrite (A : Type) (o : Obj.t A) (k : jsstring) (v1 v2 : A) :
  Obj.set k v2 (Obj.set k v1 o) = Obj.set k v2 o.
Proof.
  induction o as [|[k' v'] o IH]; simpl.
  - rewrite jseqb_refl; reflexivity.
  - destruct (jseqb k k') eqn:E; simpl.
    + rewrite jseqb_refl; reflexivity.
    + rewrite E, IH; reflexivity.
Qed.

Lemma get_set_swap (A : Type) (o : Obj.t A) (k1 k2 k : jsstring) (v1 v2 : A) :
  k1 <> k2 ->
  Obj.get k (Obj.set k2 v2 (Obj.set k1 v1 o))
  = Obj.get k (Obj.set k1 v1 (Obj.set k2 v2 o)).
Proof.
  intros N.
  destruct (jseqb k k1) eqn:E1.
  - apply jseqb_eq in E1; subst k.
    rewrite ObjFacts.get_set_ne by congruence.
    rewrite !ObjFacts.get_set_eq. reflexivity.
  - apply jseqb_false in E1.
    rewrite (ObjFacts.get_set_ne (Obj.set k2 v2 o) v1 (k := k1) (k' := k))
      by congruence.
    destruct (jseqb k k2) eqn:E2.
    + apply jseqb_eq in E2; subst k. rewrite !ObjFacts.get_set_eq. reflexivity.
    + apply jseqb_false in E2.
      rewrite !ObjFacts.get_set_ne by congruence. reflexivity.
Qed.

Section StoreSlots.
Context {host : Coercions}.

Lemma sameContent_refl (st : Store) : sameContent st st.
Proof.
  unfold sameContent. repeat split; auto.
Qed.

(** X13.  Of two ingests that write the same slot, only the second is seen: the
    store is the one the second ingest alone would give. *)
Theorem same_slot_last_write_wins (st : Store) (f1 f2 : jsstring * FileText) :
  sameSlot (updateOf f1) (updateOf f2) ->
  ingest (ingest st f1) f2 = ingest st f2.
Proof.
  rewrite !ingest_update.
  destruct (updateOf f1) as [|r1|e1 o1|e1 k1 r1],
           (updateOf f2) as [|r2|e2 o2|e2 k2 r2]; simpl; try contradiction.
  - intros _. reflexivity.
  - intros <-. unfold putBasicStats; simpl.
    rewrite set_overwrite. reflexivity.
  - intros [<- <-]. unfold putTable; simpl.
    rewrite ObjFacts.get_set_eq, !set_overwrite. reflexivity.
Qed.

(** X14.  Two ingests that write different slots, or of which one writes nothing,
    can be done in either order: the two stores read the same at every key,
    and hold the same episodes. *)
Theorem different_slots_commute (st : Store) (f1 f2 : jsstring * FileText) :
  ~ sameSlot (updateOf f1) (updateOf f2) ->
  sameContent (ingest (ingest st f1) f2) (ingest (ingest st f2) f1).
Proof.
  rewrite !ingest_update.
  destruct (updateOf f1) as [|r1|e1 o1|e1 k1 r1],
           (updateOf f2) as [|r2|e2 o2|e2 k2 r2]; simpl; intros H;
    try apply sameContent_refl.
  - exfalso; apply H; exact I.
  - unfold sameContent; simpl.
    split; [reflexivity|]. split; [intros; apply get_set_swap; exact H|].
    split; [tauto|]. split; [reflexivity|]. split; [|reflexivity].
    apply NoDup_Permutation; try apply mergeEpisodes_NoDup.
    intros e. rewrite !mergeEpisodes_In, !ObjFacts.ownKeys_set. tauto.
  - unfold sameContent.
    split; [reflexivity|]. split; [reflexivity|].
    split; [simpl; intros; rewrite !ObjFacts.ownKeys_set; tauto|].
    split.
    + intros ep key. rewrite !tableOf_putTable.
      destruct (jseqb ep e2 && jseqb key k2) eqn:B2;
        destruct (jseqb ep e1 && jseqb key k1) eqn:B1; try reflexivity.
      apply andb_true_iff in B1, B2. destruct B1 as [A1 A2], B2 as [A3 A4].
      apply jseqb_eq in A1, A2, A3, A4. exfalso; apply H. split; congruence.
    + split; [|reflexivity]. simpl.
      apply NoDup_Permutation; try apply mergeEpisodes_NoDup.
      intros e. rewrite !mergeEpisodes_In, !ObjFacts.ownKeys_set. tauto.
Qed.
End StoreSlots.

(** ** The aggregator: emotion rows, function-tag vocabulary, ranking *)

Lemma entries_In (A : Type) (o : Obj.t A) (k : jsstring) (v : A) :
  In (k, v) (Obj.entries o) <-> Obj.get k o = Some v.
Proof.
  unfold Obj.entries. rewrite in_flat_map. split.
  - intros (k0 & _ & H). destruct (Obj.get k0 o) eqn:E; [|destruct H].
    destruct H as [H|[]]. injection H as -> ->. exact E.
  - intros H. exists k. split.
    + apply ObjFacts.ownKeys_get. congruence.
    + rewrite H. left; reflexivity.
Qed.

Lemma filter_all (A : Type) (f : A -> bool) (l : list A) :
  filter f l = l <-> forallb f l = true.
Proof.
  induction l as [|x l IH]; simpl; [tauto|].
  destruct (f x) eqn:E; simpl.
  - rewrite <- IH. split; [intros H; injection H; auto | intros ->; reflexivity].
  - split; [|discriminate]. intros H.
    assert (I : In x (filter f l)) by (rewrite H; left; reflexivity).
    apply filter_In in I. destruct I as [_ I]. congruence.
Qed.

Lemma fold_set_there (A : Type) (f : jsstring -> A) (ks : list jsstring)
      (o : Obj.t A) (k : jsstring) :
  In k ks ->
  Obj.get k (fold_left (fun o k => Obj.set k (f k) o) ks o) = Some (f k).
Proof.
  revert o. induction ks as [|k0 ks IH]; intros o I; simpl; [destruct I|].
  destruct (in_dec (list_eq_dec Z.eq_dec) k ks) as [Y|N]; [apply IH, Y|].
  destruct I as [->|I]; [|contradiction].
  clear IH. revert o. induction ks as [|k1 ks IH]; intros o; simpl.
  - apply ObjFacts.get_set_eq.
  - assert (N1 : k1 <> k) by (intros ->; apply N; left; reflexivity).
    assert (N2 : ~ In k ks) by (intros I; apply N; right; exact I).
    specialize (IH N2).
    assert (G : forall o', Obj.get k o' = Some (f k) ->
                Obj.get k (fold_left (fun o k => Obj.set k (f k) o) ks o')
                = Some (f k)).
    { clear IH. induction ks as [|k2 ks IH2]; intros o' H; simpl; [exact H|].
      apply IH2.
      - intros I. apply N. simpl. simpl in I. tauto.
      - intros I. apply N2. right; exact I.
      - rewrite ObjFacts.get_set_ne; [exact H|].
        intros ->. apply N2. left; reflexivity. }
    apply G. rewrite ObjFacts.get_set_ne by exact N1.
    apply ObjFacts.get_set_eq.
Qed.

Lemma In_firstn (A : Type) (n : nat) (l : list A) (x : A) :
  In x (firstn n l) -> In x l.
Proof.
  intros H. rewrite <- (firstn_skipn n l). apply in_or_app. left; exact H.
Qed.

Section AggregatorMore.
Context {host : Coercions}.

Lemma lastRatio_spec (field k : jsstring) (dist : list Row) :
  ratioOr0 k (ratioMap field dist) = lastRatio field k dist.
Proof.
  unfold lastRatio. induction dist as [|r dist IH] using rev_ind.
  - reflexivity.
  - rewrite ratioMap_snoc, ratioOr0_set, rev_app_distr. simpl.
    destruct (jseqb k (categoryOf field r)); [reflexivity | exact IH].
Qed.

Lemma distCompareData_emo (store : Store) (eps : list jsstring)
      (distKind : DistKind) (distStackTopN : Q) :
  isEmoKind distKind = true ->
  distCompareData store eps distKind distStackTopN
  = if hasAnyRows store eps (distTableKey distKind)
    then Returned
           {| dc_rows := map (emoRow store (distTableKey distKind) EMO_ORDER) eps;
              dc_keys := EMO_ORDER;
              dc_label := distLabel distKind;
              dc_colors := EMO_COLOR_MAP |}
    else Returned noDistData.
Proof.
  intros E. unfold distCompareData.
  destruct eps as [|ep eps']; [reflexivity|].
  rewrite E. destruct (hasAnyRows store (ep :: eps') (distTableKey distKind));
    reflexivity.
Qed.

(** X15.  In emotion mode the aggregator returns, and the chart has the six
    curated emotions as keys, whatever the data holds.  The row of an
    episode records the episode, gives under each of the six the ratio of
    the last row of the episode's table with that emotion, 0 when there is
    none, and has no other field: emotions outside the six are dropped, and
    no residual is added. *)
Theorem emo_rows (store : Store) (eps : list jsstring) (distKind : DistKind)
        (distStackTopN : Q) (i : nat) (row : Obj.t Value) (ep : jsstring) :
  isEmoKind distKind = true ->
  exists r,
    distCompareData store eps distKind distStackTopN = Returned r
    /\ (let dist := distOf store ep (distTableKey distKind) in
        nth_error (dc_rows r) i = Some row ->
        nth_error eps i = Some ep ->
        dc_keys r = EMO_ORDER
        /\ Obj.get (js "ep") row = Some (VStr ep)
        /\ (forall k, In k EMO_ORDER ->
              Obj.get k row = Some (VNum (lastRatio (js "emo") k dist)))
        /\ (forall k, Obj.get k row <> None ->
              In k (js "episode" :: js "ep" :: EMO_ORDER))).
Proof.
  intros E.
  rewrite (@distCompareData_emo store eps distKind distStackTopN E).
  destruct (hasAnyRows store eps (distTableKey distKind)); eexists;
    (split; [reflexivity|]); intros dist Hrow Hep; cbn [dc_rows dc_keys] in *;
    [|destruct i; discriminate Hrow].
  rewrite nth_error_map, Hep in Hrow.
  injection Hrow as <-. split; [reflexivity|]. unfold emoRow.
  split; [|split].
  - rewrite fill_elsewhere; [reflexivity|].
    vm_compute. intuition discriminate.
  - intros k Hin. rewrite (@fill_there _ EMO_ORDER _ k Hin).
    rewrite lastRatio_spec. reflexivity.
  - intros k Hk'.
    destruct (in_dec (list_eq_dec Z.eq_dec) k EMO_ORDER) as [Y|N];
      [right; right; exact Y|].
    rewrite (@fill_elsewhere _ EMO_ORDER _ k N) in Hk'.
    unfold rowHead in Hk'. simpl in Hk'.
    destruct (jseqb k (js "episode")) eqn:E1;
      [apply jseqb_eq in E1; left; symmetry; exact E1|].
    destruct (jseqb k (js "ep")) eqn:E2;
      [apply jseqb_eq in E2; right; left; symmetry; exact E2|].
    exfalso; apply Hk'; reflexivity.
Qed.

(** X16.  The chart is empty exactly when every selected episode is reported as
    missing the table of the chosen kind. *)
Theorem no_data_iff_all_missing (store : Store) (eps : list jsstring)
        (distKind : DistKind) (distStackTopN : Q) :
  distCompareData store eps distKind distStackTopN = Returned noDistData
  <-> missingEps (distCompareMissing store eps distKind) = eps.
Proof.
  assert (H : forall l, hasAnyRows store l (distTableKey distKind)
              = negb (forallb (hasNoRows store (distTableKey distKind)) l)).
  { unfold hasAnyRows, hasNoRows.
    induction l as [|e l IH]; simpl; [reflexivity|].
    rewrite IH, negb_andb. f_equal.
    destruct (tableOf store e (distTableKey distKind)) as [[|x xs]|];
      reflexivity. }
  unfold distCompareData, distCompareMissing.
  destruct eps as [|ep eps']; [simpl; tauto|].
  cbn [missingEps]. rewrite filter_all, H, negb_involutive.
  destruct (forallb (hasNoRows store (distTableKey distKind)) (ep :: eps'));
    destruct (isEmoKind distKind); simpl; split; try tauto; try discriminate.
  destruct (collectFuncMean store (ep :: eps') (distTableKey distKind));
    [|discriminate].
  intros X. unfold funcCompare, noDistData in X. cbn [map] in X.
  discriminate X.
Qed.

Let arrOf := fun (k : jsstring) (funcMean : Obj.t (list Q)) =>
  match Obj.get k funcMean with
  | Some arr => arr
  | None => []
  end.

Lemma collect_returned (store : Store) (eps : list jsstring)
      (tableKey : jsstring) (funcMean : Obj.t (list Q)) :
  collectFuncMean store eps tableKey = Returned funcMean ->
  funcMean = fold_left pushPlain (selectedRows store eps tableKey) Obj.empty.
Proof.
  rewrite collect_rows. destruct (hasInheritedTag _); [discriminate|].
  intros H. injection H as <-. reflexivity.
Qed.

Lemma step_arr (rows : list Row) (fm : Obj.t (list Q)) (k : jsstring) :
  arrOf k (fold_left pushPlain rows fm)
  = arrOf k fm
    ++ map ratioOf (filter (fun r => jseqb (categoryOf (js "func") r) k) rows).
Proof.
  revert fm. induction rows as [|r rows IH]; intros fm; simpl.
  - rewrite app_nil_r. reflexivity.
  - rewrite IH. unfold pushPlain, arrOf. cbv zeta.
    destruct (jseqb (categoryOf (js "func") r) k) eqn:E.
    + apply jseqb_eq in E. rewrite E, ObjFacts.get_set_eq. simpl.
      rewrite <- app_assoc. reflexivity.
    + apply jseqb_false in E. rewrite ObjFacts.get_set_ne by exact E.
      reflexivity.
Qed.

Lemma step_keys (rows : list Row) (fm : Obj.t (list Q)) (k : jsstring) :
  Obj.get k (fold_left pushPlain rows fm) <> None
  <-> Obj.get k fm <> None
      \/ exists r, In r rows /\ categoryOf (js "func") r = k.
Proof.
  revert fm. induction rows as [|r rows IH]; intros fm; simpl.
  - split; [tauto|]. intros [H|(r & [] & _)]. exact H.
  - rewrite IH. unfold pushPlain. cbv zeta.
    destruct (jseqb (categoryOf (js "func") r) k) eqn:E.
    + apply jseqb_eq in E. rewrite E, ObjFacts.get_set_eq. split.
      * intros _. right. exists r. split; [left; reflexivity | exact E].
      * intros _. left. discriminate.
    + apply jseqb_false in E. rewrite ObjFacts.get_set_ne by exact E.
      split.
      * intros [H|(x & Hx & Hc)]; [left; exact H|].
        right. exists x. split; [right; exact Hx | exact Hc].
      * intros [H|(x & [<-|Hx] & Hc)]; [left; exact H | contradiction |].
        right. exists x. split; assumption.
Qed.

(** A tag has ratios in the selection exactly when a row carries it. *)
Lemma tagRatios_observed (store : Store) (eps : list jsstring)
      (tableKey k : jsstring) :
  tagRatios store eps tableKey k <> []
  <-> exists r, In r (selectedRows store eps tableKey)
                /\ categoryOf (js "func") r = k.
Proof.
  unfold tagRatios. split.
  - intros H.
    destruct (filter (fun r => jseqb (categoryOf (js "func") r) k)
                     (selectedRows store eps tableKey)) as [|r l] eqn:F;
      [exfalso; apply H; reflexivity|].
    assert (I : In r (filter (fun r => jseqb (categoryOf (js "func") r) k)
                             (selectedRows store eps tableKey)))
      by (rewrite F; left; reflexivity).
    apply filter_In in I. destruct I as [I C]. apply jseqb_eq in C.
    exists r. split; assumption.
  - intros (r & Hr & Hc) Z.
    assert (F : In r (filter (fun r => jseqb (categoryOf (js "func") r) k)
                             (selectedRows store eps tableKey))).
    { apply filter_In. split; [exact Hr|]. rewrite Hc. apply jseqb_refl. }
    destruct (filter (fun r => jseqb (categoryOf (js "func") r) k)
                     (selectedRows store eps tableKey));
      [destruct F | discriminate Z].
Qed.

(** The score of a tag is the mean of its ratios over the selection, and a
    scored tag has been observed. *)
Lemma funcScores_mean (store : Store) (eps : list jsstring)
      (tableKey k : jsstring) (funcMean : Obj.t (list Q)) (s : Num) :
  collectFuncMean store eps tableKey = Returned funcMean ->
  In (k, s) (funcScores funcMean) ->
  s = tagMean store eps tableKey k /\ tagRatios store eps tableKey k <> [].
Proof.
  intros R. apply collect_returned in R. subst funcMean.
  unfold funcScores. rewrite sortBy_In, in_map_iff.
  intros ([k0 arr] & H & I). simpl in H. injection H as -> <-.
  apply entries_In in I.
  pose proof (step_arr (selectedRows store eps tableKey) Obj.empty k) as A.
  unfold arrOf in A. rewrite I in A.
  simpl in A. fold (tagRatios store eps tableKey k) in A.
  split; [unfold tagMean; rewrite <- A; reflexivity|].
  apply tagRatios_observed.
  assert (K : Obj.get k (fold_left pushPlain (selectedRows store eps tableKey)
                                   Obj.empty) <> None) by congruence.
  apply step_keys in K. destruct K as [K|K]; [exfalso; apply K; reflexivity|].
  exact K.
Qed.

Lemma funcScores_observed (store : Store) (eps : list jsstring)
      (tableKey k : jsstring) (funcMean : Obj.t (list Q)) :
  collectFuncMean store eps tableKey = Returned funcMean ->
  tagRatios store eps tableKey k <> [] ->
  exists s, In (k, s) (funcScores funcMean).
Proof.
  intros R H. apply collect_returned in R. subst funcMean.
  set (fm := fold_left pushPlain (selectedRows store eps tableKey) Obj.empty).
  assert (K : Obj.get k fm <> None).
  { apply step_keys. right. apply tagRatios_observed, H. }
  destruct (Obj.get k fm) as [arr|] eqn:G; [|exfalso; apply K; reflexivity].
  exists (meanOf arr).
  unfold funcScores. rewrite sortBy_In, in_map_iff.
  exists (k, arr). split; [reflexivity|]. apply entries_In, G.
Qed.

(** The scores are listed from the greatest mean down. *)
Lemma funcScores_sorted (funcMean : Obj.t (list Q)) :
  StronglySorted (fun a b : jsstring * Num => numLe (snd b) (snd a))
                 (funcScores funcMean).
Proof.
  unfold funcScores.
  apply (@sortBy_descending_num _ (fun kv : jsstring * Num => snd kv)).
  intros a Ha. apply in_map_iff in Ha. destruct Ha as (kv & <- & _).
  apply meanOf_comparable.
Qed.

(** X17.  In function mode the named keys of the chart are the tags with the
    highest mean ratio over the rows of the selection, the mean being the
    one the code computes: a tag that was observed and is not among the
    keys has a mean no greater than that of any named key. *)
Theorem named_tags_have_highest_mean (store : Store) (eps : list jsstring)
        (distKind : DistKind) (distStackTopN : Q) (r : DistCompare)
        (k1 k2 : jsstring) :
  isEmoKind distKind = false ->
  distCompareData store eps distKind distStackTopN = Returned r ->
  let tableKey := distTableKey distKind in
  In k1 (dc_keys r) -> k1 <> js "other" ->
  ~ In k2 (dc_keys r) -> tagRatios store eps tableKey k2 <> [] ->
  numLe (tagMean store eps tableKey k2) (tagMean store eps tableKey k1).
Proof.
  intros E R tableKey H1 N1 H2 O2.
  rewrite (@distCompareData_func _ store eps distKind distStackTopN E) in R.
  fold tableKey in R.
  destruct (hasAnyRows store eps tableKey);
    [|injection R as <-; destruct H1].
  destruct (collectFuncMean store eps tableKey) as [fm|] eqn:C;
    [|discriminate R].
  injection R as <-. unfold funcCompare in H1, H2. cbn [dc_keys] in H1, H2.
  rewrite in_app_iff in H1, H2.
  destruct H1 as [H1|[H1|[]]]; [|congruence].
  assert (H2' : ~ In k2 (topKeysOf (funcScores fm) distStackTopN)) by tauto.
  clear H2. unfold topKeysOf in H1, H2'.
  set (n := Z.to_nat (Qfloor (Qmax 3 (Qmin 12 distStackTopN)))) in *.
  set (scores := funcScores fm) in *.
  apply in_map_iff in H1. destruct H1 as ([k s1] & Ek & I1). simpl in Ek.
  subst k.
  destruct (@funcScores_observed store eps tableKey k2 fm C O2) as (s2 & I2).
  fold scores in I2.
  assert (I2' : In (k2, s2) (skipn n scores)).
  { rewrite <- (firstn_skipn n scores) in I2. apply in_app_or in I2.
    destruct I2 as [I2|I2]; [|exact I2].
    exfalso. apply H2'. apply in_map_iff. exists (k2, s2). split;
      [reflexivity | exact I2]. }
  pose proof (@sorted_firstn_skipn _ _ _ n (funcScores_sorted fm)
                _ _ I1 I2') as L.
  simpl in L.
  assert (J1 : In (k1, s1) scores) by exact (In_firstn _ _ _ I1).
  destruct (@funcScores_mean store eps tableKey k1 fm s1 C J1) as [-> _].
  destruct (@funcScores_mean store eps tableKey k2 fm s2 C I2) as [-> _].
  exact L.
Qed.

Lemma selected_hasAnyRows (store : Store) (eps : list jsstring)
      (tableKey : jsstring) (r : Row) :
  In r (selectedRows store eps tableKey) -> hasAnyRows store eps tableKey = true.
Proof.
  unfold selectedRows, hasAnyRows. intros H.
  apply in_flat_map in H. destruct H as (ep & Hep & Hr).
  apply existsb_exists. exists ep. split; [exact Hep|].
  unfold distOf in Hr.
  destruct (tableOf store ep tableKey) as [[|x xs]|];
    [destruct Hr | reflexivity | destruct Hr].
Qed.

Lemma inherited_names (k : jsstring) :
  inherited k = true <-> In k Object_prototype_names.
Proof.
  unfold inherited. rewrite existsb_exists. split.
  - intros (k' & I & E). apply jseqb_eq in E. subst. exact I.
  - intros I. exists k. split; [exact I | apply jseqb_refl].
Qed.

(** X18.  In function mode the aggregator throws exactly when a row of the
    selection carries a tag named like a member of [Object.prototype].
    When it returns a chart with data, the chart has at most twelve named
    keys, pairwise distinct, each observed in a row of the selection,
    followed by [other]; fewer than three are named only when fewer were
    observed; and every key has its colour: the neutral grey for [other],
    the colour derived from the tag for the others. *)
Theorem func_keys (store : Store) (eps : list jsstring) (distKind : DistKind)
        (distStackTopN : Q) :
  isEmoKind distKind = false ->
  let tableKey := distTableKey distKind in
  (distCompareData store eps distKind distStackTopN = Thrown
   <-> exists k, In k Object_prototype_names
                 /\ tagRatios store eps tableKey k <> [])
  /\ forall r,
      distCompareData store eps distKind distStackTopN = Returned r ->
      r <> noDistData ->
      exists topKeys,
        dc_keys r = topKeys ++ [js "other"]
        /\ NoDup topKeys
        /\ (length topKeys <= 12)%nat
        /\ (forall k, In k topKeys -> tagRatios store eps tableKey k <> [])
        /\ ((length topKeys < 3)%nat ->
            forall k, tagRatios store eps tableKey k <> [] -> In k topKeys)
        /\ (forall k, In k (dc_keys r) ->
              Obj.get k (dc_colors r) = Some (funcColor k)).
Proof.
  intros E tableKey.
  rewrite (@distCompareData_func _ store eps distKind distStackTopN E).
  fold tableKey. split.
  { rewrite collect_rows. split.
    - destruct (hasAnyRows store eps tableKey); [|discriminate].
      destruct (hasInheritedTag (selectedRows store eps tableKey)) eqn:T;
        [|discriminate].
      intros _. unfold hasInheritedTag in T. apply existsb_exists in T.
      destruct T as (r & Hr & I). exists (categoryOf (js "func") r).
      split; [apply inherited_names, I|].
      apply tagRatios_observed. exists r. split; [exact Hr | reflexivity].
    - intros (k & Hk & O). apply tagRatios_observed in O.
      destruct O as (r & Hr & Hc).
      rewrite (selected_hasAnyRows _ _ _ _ Hr).
      assert (T : hasInheritedTag (selectedRows store eps tableKey) = true).
      { unfold hasInheritedTag. apply existsb_exists. exists r.
        split; [exact Hr|]. rewrite Hc. apply inherited_names, Hk. }
      rewrite T. reflexivity. }
  intros r R NE.
  destruct (hasAnyRows store eps tableKey);
    [|injection R as <-; exfalso; apply NE; reflexivity].
  destruct (collectFuncMean store eps tableKey) as [fm|] eqn:C;
    [|discriminate R].
  injection R as <-. clear NE.
  set (topKeys := topKeysOf (funcScores fm) distStackTopN).
  assert (Rc : dc_colors (funcCompare store eps distKind distStackTopN fm)
               = fold_left (fun colors k => Obj.set k (funcColor k) colors)
                           (topKeys ++ [js "other"]) Obj.empty)
    by reflexivity.
  assert (Rk : dc_keys (funcCompare store eps distKind distStackTopN fm)
               = topKeys ++ [js "other"]) by reflexivity.
  exists topKeys.
  set (n := Z.to_nat (Qfloor (Qmax 3 (Qmin 12 distStackTopN)))).
  assert (Hn : (3 <= n <= 12)%nat).
  { subst n.
    assert (B : 3 <= Qmax 3 (Qmin 12 distStackTopN) <= 12).
    { split; [apply Q.le_max_l|].
      apply Q.max_lub; [lra | apply Q.le_min_l]. }
    destruct B as [B1 B2].
    apply Qfloor_resp_le in B1, B2.
    change (Qfloor 3) with 3%Z in B1. change (Qfloor 12) with 12%Z in B2.
    lia. }
  split; [exact Rk|].
  split; [apply (@topKeys_NoDup _ store eps tableKey distStackTopN fm C)|].
  split; [|split; [|split]].
  - unfold topKeys, topKeysOf. fold n. rewrite length_map, length_firstn. lia.
  - intros k Hk. unfold topKeys, topKeysOf in Hk. apply in_map_iff in Hk.
    destruct Hk as ([k0 s] & Ek & I). simpl in Ek. subst k0.
    assert (J : In (k, s) (funcScores fm)) by exact (In_firstn _ _ _ I).
    apply (@funcScores_mean store eps tableKey k fm s C J).
  - intros L k O. unfold topKeys, topKeysOf in *. fold n in L |- *.
    rewrite length_map, length_firstn in L.
    destruct (@funcScores_observed store eps tableKey k fm C O) as (s & I).
    rewrite firstn_all2 by lia.
    apply in_map_iff. exists (k, s). split; [reflexivity | exact I].
  - intros k Hk. rewrite Rc. rewrite Rk in Hk.
    apply (@fold_set_there _ funcColor _ _ _ Hk).
Qed.
End AggregatorMore.

(** ** Colours: the form of the result *)

Lemma hexColor_all : forallb hexColorAt (map Z.of_nat (seq 0 360)) = true.
Proof. vm_compute. reflexivity. Qed.

Lemma get_value_In (A : Type) (o : Obj.t A) (k : jsstring) (v : A) :
  Obj.get k o = Some v -> In v (map snd o).
Proof.
  induction o as [|[k0 v0] o IH]; simpl; [discriminate|].
  destruct (jseqb k k0); [intros H; injection H as ->; left; reflexivity|].
  intros H. right. apply IH, H.
Qed.

Lemma stableColorFromKey_hex (key : jsstring) :
  isHexColor (stableColorFromKey key) = true.
Proof.
  unfold stableColorFromKey.
  assert (R : (0 <= Z.rem (fnv1aHash32 key) 360 < 360)%Z).
  { rewrite fnv1aHash32_spec. pose proof (fnv1a_range key) as R.
    apply Z.rem_bound_pos; lia. }
  set (h := Z.rem (fnv1aHash32 key) 360) in *.
  assert (I : In h (map Z.of_nat (seq 0 360))).
  { apply in_map_iff. exists (Z.to_nat h). split; [lia|].
    apply in_seq. lia. }
  pose proof (proj1 (forallb_forall _ _) hexColor_all h I) as A.
  unfold hexColorAt in A. apply andb_true_iff in A. destruct A as [A1 A2].
  destruct (Z.rem (fnv1aHash32 (key ++ js "_l")) 2 =? 0)%Z; assumption.
Qed.

(** X19.  In emotion mode under a key named like a member of
    [Object.prototype] the result is no colour but the inherited member of
    that name.  In every other case, that is in function mode whatever the
    key and in emotion mode for every other key, the result is a colour: a
    hash sign followed by six lower-case hexadecimal digits. *)
Theorem colorForKey_is_hex_color (key : jsstring) (mode : ColorMode) :
  (mode = ModeEmo /\ In key Object_prototype_names ->
   colorForKey key mode = Member key)
  /\ (~ (mode = ModeEmo /\ In key Object_prototype_names) ->
      exists c, colorForKey key mode = Colour c /\ isHexColor c = true).
Proof.
  split.
  - intros [-> I]. unfold Object_prototype_names in I. simpl in I.
    repeat (destruct I as [<-|I]; [vm_compute; reflexivity|]). destruct I.
  - intros N. unfold colorForKey. destruct mode.
    + destruct (Obj.get key EMO_COLOR_MAP) as [c|] eqn:E.
      * apply get_value_In in E.
        assert (F : forallb (fun c => isHexColor c
                                      && match c with [] => false | _ => true end)
                            (map snd EMO_COLOR_MAP) = true)
          by (vm_compute; reflexivity).
        pose proof (proj1 (forallb_forall _ _) F c E) as G.
        apply andb_true_iff in G. destruct G as [G1 G2].
        destruct c as [|c0 c]; [discriminate G2|].
        eexists. split; [reflexivity | exact G1].
      * destruct (inherited key) eqn:I.
        -- exfalso. apply N. split; [reflexivity | apply inherited_names, I].
        -- eexists. split; reflexivity.
    + eexists. split; [reflexivity | apply stableColorFromKey_hex].
Qed.

(** ** Top categories of one distribution *)

Lemma firstn_sorted (A : Type) (R : A -> A -> Prop) (n : nat) (l : list A) :
  StronglySorted R l -> StronglySorted R (firstn n l).
Proof.
  intros S. revert n. induction S as [|x l Sl IH Hx]; intros n.
  - rewrite firstn_nil. constructor.
  - destruct n as [|n]; simpl; constructor; [apply IH|].
    rewrite Forall_forall in *. intros y Hy. apply Hx.
    apply (In_firstn _ _ _ Hy).
Qed.

Section DashboardMore.
Context {host : Coercions}.

Lemma topN_bound (lo hi : Z) (topN : Q) :
  (0 <= lo <= hi)%Z ->
  (Z.to_nat lo
   <= Z.to_nat (Qfloor (Qmax (inject_Z lo) (Qmin (inject_Z hi) topN)))
   <= Z.to_nat hi)%nat.
Proof.
  intros H.
  assert (B : inject_Z lo <= Qmax (inject_Z lo) (Qmin (inject_Z hi) topN)
              <= inject_Z hi).
  { split; [apply Q.le_max_l|].
    apply Q.max_lub; [rewrite <- Zle_Qle; lia | apply Q.le_min_l]. }
  destruct B as [B1 B2]. apply Qfloor_resp_le in B1, B2.
  rewrite Qfloor_Z in B1, B2. lia.
Qed.

(** X20.  [pickTopDist] returns between one and ten entries when there is a row,
    never more than there are rows; each entry is made of a row; the values
    descend; and a row that is left out has a value no greater than any
    entry returned. *)
Theorem pickTopDist_top (rows : list Row) (keyField valueField : jsstring)
        (topN : Q) :
  let out := pickTopDist rows keyField valueField topN in
  (length out <= 10)%nat
  /\ (length out <= length rows)%nat
  /\ (rows <> [] -> out <> [])
  /\ (forall it, In it out ->
        exists r, In r rows /\ it = distItem keyField valueField r)
  /\ (forall p q a b, (p < q)%nat ->
        nth_error out p = Some a -> nth_error out q = Some b ->
        item_v b <= item_v a)
  /\ (forall r it, In r rows -> In it out ->
        In (distItem keyField valueField r) out
        \/ item_v (distItem keyField valueField r) <= item_v it).
Proof.
  intros out. subst out. unfold pickTopDist.
  change (fun r => {| item_k := categoryOf keyField r;
                      item_v := safeNumber (Obj.get valueField r) |})
    with (distItem keyField valueField).
  set (items := sortBy (fun a b => item_v b - item_v a)
                       (map (distItem keyField valueField) rows)).
  pose proof (@topN_bound 1%Z 10%Z topN ltac:(lia)) as Hn.
  change (inject_Z 1) with 1 in Hn. change (inject_Z 10) with 10 in Hn.
  set (n := Z.to_nat (Qfloor (Qmax 1 (Qmin 10 topN)))) in *.
  assert (Len : length items = length rows).
  { unfold items. rewrite (Permutation_length (sortBy_perm _ _)).
    apply length_map. }
  assert (S : StronglySorted (fun a b => item_v b <= item_v a) items)
    by apply sortBy_descending.
  split; [rewrite length_firstn; lia|].
  split; [rewrite length_firstn; lia|].
  split.
  { intros NE E. apply (f_equal (@length _)) in E.
    rewrite length_firstn, Len in E. simpl in E.
    destruct rows; [apply NE; reflexivity | simpl in E; lia]. }
  split.
  { intros it I. apply In_firstn in I. unfold items in I.
    apply sortBy_In, in_map_iff in I. destruct I as (r & <- & Hr).
    exists r. split; [exact Hr | reflexivity]. }
  split.
  { intros p q a b Hpq Ha Hb.
    assert (S' : StronglySorted (fun a b => item_v b <= item_v a)
                                (firstn n items))
      by (apply firstn_sorted, S).
    exact (pairs_nth_lt (sorted_pairs S') Hpq Ha Hb). }
  intros r it Hr Hit.
  assert (I : In (distItem keyField valueField r) items).
  { unfold items. apply sortBy_In, in_map. exact Hr. }
  rewrite <- (firstn_skipn n items) in I. apply in_app_or in I.
  destruct I as [I|I]; [left; exact I | right].
  exact (@sorted_firstn_skipn _ _ _ n S _ _ Hit I).
Qed.

(** ** Selecting episodes for comparison *)

Lemma filter_sorted (A : Type) (R : A -> A -> Prop) (f : A -> bool)
      (l : list A) :
  StronglySorted R l -> StronglySorted R (filter f l).
Proof.
  induction 1 as [|x l Sl IH Hx]; simpl; [constructor|].
  destruct (f x); [|exact IH]. constructor; [exact IH|].
  rewrite Forall_forall in *. intros y Hy. apply Hx.
  apply filter_In in Hy. tauto.
Qed.

Lemma toggle_In (ep : jsstring) (prev : list jsstring) (x : jsstring) :
  In x (toggleCompareEp ep prev)
  <-> (In x prev /\ x <> ep) \/ (x = ep /\ ~ In ep prev).
Proof.
  unfold toggleCompareEp.
  destruct (existsb (jseqb ep) prev) eqn:E.
  - apply existsb_jseqb in E. rewrite filter_In. split.
    + intros [I N]. left. split; [exact I|].
      intros ->. rewrite jseqb_refl in N. discriminate N.
    + intros [[I N]|[_ N]]; [|contradiction].
      split; [exact I|]. rewrite (jseqb_neq N). reflexivity.
  - assert (N : ~ In ep prev).
    { intros I. apply existsb_jseqb in I. congruence. }
    rewrite sortBy_In, in_app_iff. simpl. split.
    + intros [I|[<-|[]]]; [left | right; tauto].
      split; [exact I|]. intros ->. contradiction.
    + intros [[I _]|[-> _]]; [left; exact I | right; left; reflexivity].
Qed.

(** X21.  Toggling an episode of the comparison selection removes it when it is
    selected and adds it when it is not, leaving the others as they are; a
    selection without repetition, or in ascending order of episode number,
    stays so; toggling twice gives back the same episodes.  The selection of
    the distribution chart is toggled in the same way. *)
Theorem toggle_selection (ep : jsstring) (prev : list jsstring) :
  toggleDistEp ep prev = toggleCompareEp ep prev
  /\ (In ep (toggleCompareEp ep prev) <-> ~ In ep prev)
  /\ (forall x, x <> ep -> (In x (toggleCompareEp ep prev) <-> In x prev))
  /\ (NoDup prev -> NoDup (toggleCompareEp ep prev))
  /\ (StronglySorted (fun a b => episodeNumber a <= episodeNumber b) prev ->
      StronglySorted (fun a b => episodeNumber a <= episodeNumber b)
                     (toggleCompareEp ep prev))
  /\ (forall x, In x (toggleCompareEp ep (toggleCompareEp ep prev))
                <-> In x prev).
Proof.
  split; [reflexivity|].
  split; [rewrite toggle_In; tauto|].
  split; [intros x N; rewrite toggle_In; tauto|].
  split; [|split].
  - intros ND. unfold toggleCompareEp.
    destruct (existsb (jseqb ep) prev) eqn:E.
    + apply NoDup_filter, ND.
    + apply sortBy_NoDup.
      assert (N : ~ In ep prev).
      { intros I. apply existsb_jseqb in I. congruence. }
      apply NoDup_app; [exact ND | repeat constructor; intros [] |].
      intros a Ha [<-|[]]. contradiction.
  - intros S. unfold toggleCompareEp.
    destruct (existsb (jseqb ep) prev).
    + apply filter_sorted, S.
    + change episodeOrder with (fun a b => episodeNumber a - episodeNumber b).
      apply sortBy_sorted.
  - intros x. rewrite !toggle_In.
    destruct (list_eq_dec Z.eq_dec x ep) as [->|N]; [|tauto].
    destruct (in_dec (list_eq_dec Z.eq_dec) ep prev); tauto.
Qed.

(** ** The minute curve *)

(** X22.  The rows of the curve are those of the active episode's per-minute
    table, as many, each with its minute as a number, in ascending order of
    the minute. *)
Theorem curveData_ascending (tables : TableMap) (curveMode : ColorMode) :
  let key := match curveMode with
             | ModeEmo => TABLE_KEYS.DANMU_MIN_EMO
             | ModeFunc => TABLE_KEYS.DANMU_MIN_FUNC
             end in
  let table := match Obj.get key tables with Some rows => rows | None => [] end in
  let out := curveData tables curveMode in
  length out = length table
  /\ (forall x, In x out ->
        exists r, In r table
                  /\ Obj.get (js "minute") x = Some (VNum (minuteOf r))
                  /\ forall k, k <> js "minute" -> Obj.get k x = Obj.get k r)
  /\ (forall p q a b, (p < q)%nat ->
        nth_error out p = Some a -> nth_error out q = Some b ->
        minuteOf a <= minuteOf b).
Proof.
  intros key table out. subst out. unfold curveData. fold key. fold table.
  split; [|split].
  - rewrite (Permutation_length (sortBy_perm _ _)). apply length_map.
  - intros x Hx. apply sortBy_In, in_map_iff in Hx.
    destruct Hx as (r & <- & Hr). exists r. split; [exact Hr|].
    split; [apply ObjFacts.get_set_eq|].
    intros k N. apply ObjFacts.get_set_ne. congruence.
  - intros p q a b Hpq Ha Hb.
    assert (Ia : In a (curveData tables curveMode))
      by (eapply nth_error_In; exact Ha).
    assert (Ib : In b (curveData tables curveMode))
      by (eapply nth_error_In; exact Hb).
    rewrite (curveData_minute _ _ _ Ia), (curveData_minute _ _ _ Ib).
    exact (pairs_nth_lt (sorted_pairs (sortBy_sorted curveMinute _)) Hpq Ha Hb).
Qed.
End DashboardMore.

(** ** Batches of files *)

Section BatchMore.
Context {host : Coercions}.

Lemma throws_any (st : Store) (f : jsstring * FileText) :
  ingestFileText (fst f) (snd f) st = None <-> throws f = true.
Proof.
  unfold throws. ingest_cases f; split; congruence.
Qed.

Lemma ingest_loadedFiles (st : Store) (f : jsstring * FileText) :
  loadedFiles (ingest st f) = loadedFiles st.
Proof. ingest_cases f; reflexivity. Qed.

Lemma fold_ingest_loadedFiles (files : list (jsstring * FileText)) (st : Store) :
  loadedFiles (fold_left ingest files st) = loadedFiles st.
Proof.
  revert st. induction files as [|f files IH]; intros st; simpl; [reflexivity|].
  rewrite IH. apply ingest_loadedFiles.
Qed.

Lemma ingestEach_app (a b : list (jsstring * FileText)) (st : Store) :
  ingestEach (a ++ b) st
  = (if snd (ingestEach a st) then ingestEach a st
     else ingestEach b (fst (ingestEach a st))).
Proof.
  revert st. induction a as [|f a IH]; intros st; simpl; [reflexivity|].
  destruct (ingestFileText (fst f) (snd f) st); [apply IH | reflexivity].
Qed.

Lemma ingestEach_clean (files : list (jsstring * FileText)) (st : Store) :
  forallb (fun f => negb (throws f)) files = true ->
  ingestEach files st = (fold_left ingest files st, false).
Proof.
  revert st. induction files as [|f files IH]; intros st H; simpl in *;
    [reflexivity|].
  apply andb_true_iff in H. destruct H as [Hf H].
  unfold ingest at 2.
  destruct (ingestFileText (fst f) (snd f) st) eqn:E; [apply IH, H|].
  apply throws_any in E. rewrite E in Hf. discriminate Hf.
Qed.

Lemma ingestEach_fail (done rest : list (jsstring * FileText))
      (f : jsstring * FileText) (st : Store) :
  forallb (fun f => negb (throws f)) done = true ->
  throws f = true ->
  ingestEach (done ++ f :: rest) st = (fold_left ingest done st, true).
Proof.
  intros Hd Hf. rewrite ingestEach_app, (ingestEach_clean _ _ Hd). simpl.
  apply (throws_any (fold_left ingest done st)) in Hf. rewrite Hf.
  reflexivity.
Qed.

Lemma ingestEach_prefix (files : list (jsstring * FileText)) (st : Store) :
  exists done rest,
    files = done ++ rest
    /\ fst (ingestEach files st) = fold_left ingest done st
    /\ (snd (ingestEach files st) = false -> rest = []).
Proof.
  revert st. induction files as [|f files IH]; intros st; simpl.
  - exists [], []. repeat split.
  - destruct (ingestFileText (fst f) (snd f) st) as [st'|] eqn:E.
    + destruct (IH st') as (done & rest & -> & H1 & H2).
      exists (f :: done), rest. simpl. unfold ingest at 2. rewrite E.
      repeat split; assumption.
    + exists [], (f :: files). simpl. repeat split. discriminate.
Qed.

Lemma ingestZips_flat (zips : list Upload) (st : Store) :
  forallb (fun z => match up_zip z with Some _ => true | None => false end)
          zips = true ->
  ingestZips zips st
  = ingestEach (flat_map (fun zf => match up_zip zf with
                                    | Some entries => ingestedEntries entries
                                    | None => []
                                    end) zips) st.
Proof.
  revert st. induction zips as [|z zips IH]; intros st H; simpl in *;
    [reflexivity|].
  destruct (up_zip z) as [entries|]; [|discriminate H]. simpl in H.
  rewrite ingestEach_app.
  destruct (ingestEach (ingestedEntries entries) st) as [st' threw] eqn:E.
  simpl. destruct threw; [reflexivity | apply IH, H].
Qed.

Lemma ingestZips_prefix (zips : list Upload) (st : Store) :
  exists done rest,
    flat_map (fun zf => match up_zip zf with
                        | Some entries => ingestedEntries entries
                        | None => []
                        end) zips = done ++ rest
    /\ fst (ingestZips zips st) = fold_left ingest done st
    /\ (snd (ingestZips zips st) = false -> rest = []).
Proof.
  revert st. induction zips as [|z zips IH]; intros st; simpl.
  - exists [], []. repeat split.
  - destruct (up_zip z) as [entries|].
    + destruct (ingestEach_prefix (ingestedEntries entries) st)
        as (d1 & r1 & E1 & F1 & G1).
      destruct (ingestEach (ingestedEntries entries) st) as [st' threw].
      simpl in F1, G1. destruct threw.
      * exists d1, (r1 ++ flat_map (fun zf => match up_zip zf with
                                              | Some entries => ingestedEntries entries
                                              | None => []
                                              end) zips).
        simpl. rewrite E1, <- app_assoc. repeat split; [exact F1|discriminate].
      * rewrite (G1 eq_refl), app_nil_r in E1. subst d1.
        destruct (IH st') as (d2 & r2 & E2 & F2 & G2).
        exists (ingestedEntries entries ++ d2), r2.
        rewrite E2, app_assoc, fold_left_app, <- F1.
        repeat split; assumption.
    + exists [], (flat_map (fun zf => match up_zip zf with
                                      | Some entries => ingestedEntries entries
                                      | None => []
                                      end) zips).
      simpl. repeat split. discriminate.
Qed.

Lemma zipsLoad_filter (files : list Upload) :
  zipsLoad files = true ->
  forallb (fun z => match up_zip z with Some _ => true | None => false end)
          (filter (fun f => isZipName (up_name f)) files) = true.
Proof.
  unfold zipsLoad. induction files as [|f files IH]; simpl; [reflexivity|].
  intros H. apply andb_true_iff in H. destruct H as [Hf H].
  destruct (isZipName (up_name f)); simpl in *; [|apply IH, H].
  rewrite Hf. apply IH, H.
Qed.

Lemma ingestFiles_each (files : list Upload) (dash : Dash) :
  files <> [] -> zipsLoad files = true ->
  ingestFiles files dash
  = {| dash_store := fst (ingestEach (batchFiles files) (batchStart files dash));
       dash_failed := snd (ingestEach (batchFiles files) (batchStart files dash)) |}.
Proof.
  intros NE Z. unfold ingestFiles, batchFiles.
  destruct files as [|f0 files0]; [exfalso; apply NE; reflexivity|].
  set (files := f0 :: files0) in *.
  fold (batchStart files dash).
  rewrite (ingestZips_flat _ _ (zipsLoad_filter _ Z)), ingestEach_app.
  destruct (ingestEach (flat_map _ _) (batchStart files dash)) as [st1 threw].
  simpl. destruct threw; [reflexivity|].
  destruct (ingestEach _ st1) as [st2 threw2]. reflexivity.
Qed.

(** X23.  A batch in which every archive opens and no file throws ingests all its
    files, the entries of the archives first and then the other files, on
    top of the recorded metadata, and clears the error. *)
Theorem batch_clean (files : list Upload) (dash : Dash) :
  files <> [] ->
  zipsLoad files = true ->
  forallb (fun f => negb (throws f)) (batchFiles files) = true ->
  ingestFiles files dash
  = {| dash_store := fold_left ingest (batchFiles files) (batchStart files dash);
       dash_failed := false |}.
Proof.
  intros NE Z C. rewrite (ingestFiles_each dash NE Z).
  rewrite (ingestEach_clean _ _ C). reflexivity.
Qed.

(** X24.  A batch stops at the first file that throws: the files before it are
    ingested, the ones after it are not, and the error is set. *)
Theorem batch_stops_at_first_failure (files : list Upload) (dash : Dash)
        (done rest : list (jsstring * FileText)) (f : jsstring * FileText) :
  zipsLoad files = true ->
  batchFiles files = done ++ f :: rest ->
  forallb (fun f => negb (throws f)) done = true ->
  throws f = true ->
  ingestFiles files dash
  = {| dash_store := fold_left ingest done (batchStart files dash);
       dash_failed := true |}.
Proof.
  intros Z B C F.
  assert (NE : files <> []).
  { intros ->. destruct done; discriminate B. }
  rewrite (ingestFiles_each dash NE Z), B.
  rewrite (@ingestEach_fail done rest f (batchStart files dash) C F).
  reflexivity.
Qed.

(** X25.  Whatever happens in a batch, the store it leaves is the one reached by
    ingesting an initial part of its files; that part is all of them when no
    error is set.  The metadata of every file of the batch are recorded,
    also of those that failed or were skipped, and the episode list is
    still the one derived from the store. *)
Theorem batch_invariants (files : list Upload) (dash : Dash) :
  files <> [] ->
  let d := ingestFiles files dash in
  (exists done rest,
      batchFiles files = done ++ rest
      /\ dash_store d = fold_left ingest done (batchStart files dash)
      /\ (dash_failed d = false -> rest = []))
  /\ loadedFiles (dash_store d)
     = loadedFiles (dash_store dash) ++ map uploadMeta files
  /\ (episodesDerived (dash_store dash) -> episodesDerived (dash_store d)).
Proof.
  intros NE d.
  assert (P : exists done rest,
      batchFiles files = done ++ rest
      /\ dash_store d = fold_left ingest done (batchStart files dash)
      /\ (dash_failed d = false -> rest = [])).
  { subst d. unfold ingestFiles, batchFiles.
    destruct files as [|f0 files0]; [exfalso; apply NE; reflexivity|].
    set (files := f0 :: files0) in *.
    fold (batchStart files dash).
    destruct (ingestZips_prefix (filter (fun f => isZipName (up_name f)) files)
                                (batchStart files dash))
      as (d1 & r1 & E1 & F1 & G1).
    destruct (ingestZips _ (batchStart files dash)) as [st1 threw].
    simpl in F1, G1. destruct threw.
    - exists d1, (r1 ++ map (fun f => (up_name f, up_text f))
                          (filter (fun f => negb (isZipName (up_name f))) files)).
      rewrite E1, <- app_assoc. cbn [dash_store dash_failed].
      repeat split; [exact F1 | discriminate].
    - rewrite (G1 eq_refl), app_nil_r in E1.
      destruct (ingestEach_prefix
                  (map (fun f => (up_name f, up_text f))
                       (filter (fun f => negb (isZipName (up_name f))) files))
                  st1) as (d2 & r2 & E2 & F2 & G2).
      destruct (ingestEach _ st1) as [st2 threw2]. simpl in F2, G2.
      cbn [dash_store dash_failed].
      exists (d1 ++ d2), r2. rewrite E1, E2, app_assoc, fold_left_app, <- F1.
      repeat split; assumption. }
  split; [exact P|]. destruct P as (done & rest & _ & -> & _). split.
  - rewrite fold_ingest_loadedFiles. reflexivity.
  - intros D. apply ingest_fold_derived. exact D.
Qed.
End BatchMore.

(** ** Entries of an archive *)

Lemma lastSegment_suffix (name acc : jsstring) :
  (exists pre, acc ++ name = pre ++ lastSegment acc name
               /\ (pre = [] \/ exists folders, pre = folders ++ [47%Z]))
  /\ (~ In 47%Z acc -> ~ In 47%Z (lastSegment acc name)).
Proof.
  revert acc. induction name as [|c r IH]; intros acc; simpl.
  - split; [exists []; rewrite app_nil_r; split; [reflexivity | left; reflexivity]
           | tauto].
  - destruct (c =? 47)%Z eqn:E.
    + destruct (IH []) as [(pre & Hp & Hs) Hn]. split.
      * exists (acc ++ c :: pre). split.
        -- rewrite <- app_assoc. simpl. simpl in Hp. rewrite <- Hp. reflexivity.
        -- right. apply Z.eqb_eq in E. subst c.
           destruct Hs as [->|(folders & ->)];
             [exists acc; reflexivity|].
           exists (acc ++ 47%Z :: folders).
           rewrite <- app_assoc. reflexivity.
      * intros _. apply Hn. intros [].
    + destruct (IH (acc ++ [c])) as [(pre & Hp & Hs) Hn]. split.
      * exists pre. split; [|exact Hs].
        rewrite <- Hp, <- app_assoc. reflexivity.
      * intros N. apply Hn. rewrite in_app_iff. simpl.
        apply Z.eqb_neq in E. intros [I|[I|[]]]; [tauto | congruence].
Qed.

Lemma lastSegment_nil (name acc : jsstring) :
  lastSegment acc name = [] ->
  (acc = [] /\ name = []) \/ exists pre, name = pre ++ [47%Z].
Proof.
  revert acc. induction name as [|c r IH]; intros acc; simpl.
  - intros ->. left; split; reflexivity.
  - destruct (c =? 47)%Z eqn:E; intros H; right.
    + apply Z.eqb_eq in E. subst c.
      destruct (IH _ H) as [[_ ->]|(pre & ->)];
        [exists []; reflexivity | exists (47%Z :: pre); reflexivity].
    + destruct (IH _ H) as [[A _]|(pre & ->)];
        [destruct acc; discriminate A | exists (c :: pre); reflexivity].
Qed.

Lemma toLowerCase_app (a b : jsstring) :
  toLowerCase (a ++ b) = toLowerCase a ++ toLowerCase b.
Proof. unfold toLowerCase. apply flat_map_app. Qed.

Lemma no_extension_after_slash (pre : jsstring) :
  hasDataExtension (pre ++ [47%Z]) = false.
Proof.
  unfold hasDataExtension, endsWith.
  rewrite toLowerCase_app, rev_app_distr. reflexivity.
Qed.

(** X26.  The entries of an archive are ingested under their base name: what is
    handed to [ingestFileText] is the text of an entry that is not a
    directory, under its base name, which is the part of its path after
    the last slash (the path is the name itself, or folders closed by a
    slash and then the name, and the name holds no slash) and has the
    [.csv] or [.json] extension; the folders of the path are dropped. *)
Theorem archive_entries_by_base_name (entries : list ZipEntry)
        (nm : jsstring) (t : FileText) :
  In (nm, t) (ingestedEntries entries) ->
  exists e pre,
    In e entries /\ entry_dir e = false /\ entry_text e = t
    /\ nm = entryBaseName e
    /\ entry_name e = pre ++ nm
    /\ (pre = [] \/ exists folders, pre = folders ++ [47%Z])
    /\ ~ In 47%Z nm
    /\ hasDataExtension nm = true.
Proof.
  unfold ingestedEntries. rewrite in_flat_map.
  intros (e & He & H). apply filter_In in He. destruct He as [He Hd].
  apply negb_true_iff in Hd.
  fold (hasDataExtension (entryBaseName e)) in H.
  destruct (hasDataExtension (entryBaseName e)) eqn:X; [|destruct H].
  destruct H as [H|[]]. injection H as <- <-.
  unfold entryBaseName in *.
  destruct (lastSegment_suffix (entry_name e) []) as [(pre & Hp & Hs) Hn].
  destruct (lastSegment [] (entry_name e)) as [|c s] eqn:L.
  - exfalso. destruct (lastSegment_nil _ _ L) as [[_ E]|(p & E)];
      rewrite E in X.
    + discriminate X.
    + rewrite no_extension_after_slash in X. discriminate X.
  - exists e, pre. simpl in Hp.
    split; [exact He|]. split; [exact Hd|]. split; [reflexivity|].
    split; [rewrite L; reflexivity|]. split; [exact Hp|].
    split; [exact Hs|]. split; [apply Hn; intros [] | exact X].
Qed.

(** ** Names around an episode number *)

Lemma digit_range (c : Z) : isDigit c = true -> (48 <= c <= 57)%Z.
Proof. unfold isDigit. lia. Qed.

Lemma toLowerCase_digits (ep : jsstring) :
  forallb isDigit ep = true -> toLowerCase ep = ep.
Proof.
  induction ep as [|c ep IH]; simpl; [reflexivity|].
  intros H. apply andb_true_iff in H. destruct H as [Hc H].
  apply digit_range in Hc. unfold toLowerCase in *. simpl. rewrite (IH H).
  unfold lowerUnit, isUpperAscii.
  replace (65 <=? c)%Z with false by (symmetry; apply Z.leb_gt; lia).
  replace (c =? 8490)%Z with false by (symmetry; apply Z.eqb_neq; lia).
  replace (c =? 304)%Z with false by (symmetry; apply Z.eqb_neq; lia).
  reflexivity.
Qed.

Lemma startsWith_app_true (p a b : jsstring) :
  startsWith p a = true -> startsWith p (a ++ b) = true.
Proof.
  revert a. induction p as [|x p IH]; intros a; [reflexivity|].
  destruct a as [|y a]; simpl; [discriminate|].
  intros H. apply andb_true_iff in H. destruct H as [H1 H2].
  rewrite H1, (IH _ H2). reflexivity.
Qed.

Lemma startsWith_app_false (p a b : jsstring) :
  startsWith (firstn (length a) p) a = false -> startsWith p (a ++ b) = false.
Proof.
  revert p. induction a as [|y a IH]; intros p; simpl.
  - discriminate.
  - destruct p as [|x p]; simpl; [discriminate|].
    destruct (x =? y)%Z; simpl; [apply IH | reflexivity].
Qed.

Lemma startsWith_before_digit (p q rest : jsstring) (d : Z) :
  noDigit p = true -> isDigit d = true ->
  startsWith p (q ++ d :: rest) = startsWith p q.
Proof.
  intros Hp Hd. revert q. induction p as [|x p IH]; intros q; [reflexivity|].
  simpl in Hp. apply andb_true_iff in Hp. destruct Hp as [Hx Hp].
  destruct q as [|y q]; simpl.
  - replace (x =? d)%Z with false; [reflexivity|].
    symmetry. apply Z.eqb_neq. intros ->. rewrite Hd in Hx. discriminate Hx.
  - rewrite (IH Hp). reflexivity.
Qed.

Lemma includes_nil (p : jsstring) : p <> [] -> includes p [] = false.
Proof. destruct p; [congruence | reflexivity]. Qed.

Lemma includes_cons (p s : jsstring) (c : Z) :
  includes p (c :: s) = startsWith p (c :: s) || includes p s.
Proof. reflexivity. Qed.

Lemma includes_after_digits (p ep S : jsstring) :
  p <> [] -> noDigit p = true -> forallb isDigit ep = true ->
  includes p (ep ++ S) = includes p S.
Proof.
  intros Np Hp. induction ep as [|d ep IH]; simpl app; [reflexivity|].
  intros H. simpl in H. apply andb_true_iff in H. destruct H as [Hd H].
  rewrite includes_cons, (IH H).
  rewrite (@startsWith_before_digit p [] (ep ++ S) d Hp Hd
           : startsWith p (d :: ep ++ S) = startsWith p []).
  destruct p; [congruence | reflexivity].
Qed.

Lemma includes_around (p P ep S : jsstring) :
  p <> [] -> noDigit p = true -> ep <> [] -> forallb isDigit ep = true ->
  includes p (P ++ ep ++ S) = includes p P || includes p S.
Proof.
  intros Np Hp Ne He. induction P as [|c P IH].
  - simpl app. rewrite (@includes_after_digits p ep S Np Hp He), includes_nil by exact Np.
    reflexivity.
  - rewrite <- app_comm_cons, !includes_cons, IH, orb_assoc.
    destruct ep as [|d ep]; [congruence|].
    simpl in He. apply andb_true_iff in He. destruct He as [Hd _].
    change (c :: P ++ (d :: ep) ++ S) with ((c :: P) ++ d :: (ep ++ S)).
    rewrite (@startsWith_before_digit p (c :: P) (ep ++ S) d Hp Hd).
    reflexivity.
Qed.

Lemma includes_app_l (p a b : jsstring) :
  includes p a = true -> includes p (a ++ b) = true.
Proof.
  induction a as [|c a IH].
  - destruct p; [|discriminate]. intros _. destruct b; reflexivity.
  - rewrite <- app_comm_cons, !includes_cons. intros H.
    apply orb_true_iff in H. apply orb_true_iff. destruct H as [H|H].
    + left. exact (@startsWith_app_true p (c :: a) b H).
    + right. apply IH, H.
Qed.

Lemma endsWith_app_true (p X S : jsstring) :
  endsWith p S = true -> endsWith p (X ++ S) = true.
Proof.
  unfold endsWith. rewrite rev_app_distr. apply startsWith_app_true.
Qed.

Lemma takeDigits_run (ep S : jsstring) :
  forallb isDigit ep = true -> takeDigits S = [] -> takeDigits (ep ++ S) = ep.
Proof.
  intros H HS. induction ep as [|d ep IH]; simpl; [exact HS|].
  simpl in H. apply andb_true_iff in H. destruct H as [Hd H].
  rewrite Hd, (IH H). reflexivity.
Qed.

Lemma takeDigits_head (a b c : jsstring) :
  a <> [] -> (takeDigits (a ++ b) = [] <-> takeDigits (a ++ c) = []).
Proof.
  destruct a as [|x a]; [congruence|]. intros _. simpl.
  destruct (isDigit x); split; intros H; try discriminate H; reflexivity.
Qed.

(** The first [ep] followed by digits is the last one of the prefix, when
    nothing before it matches. *)
Lemma matchEp_last (P0 ep S : jsstring) :
  matchEp (P0 ++ js "ep") = None ->
  ep <> [] -> forallb isDigit ep = true -> takeDigits S = [] ->
  matchEp (P0 ++ js "ep" ++ ep ++ S) = Some ep.
Proof.
  intros HP Ne He HS.
  change (js "ep") with [101; 112]%Z in *.
  set (T := ep ++ S).
  assert (HT : takeDigits T = ep) by (apply takeDigits_run; assumption).
  induction P0 as [|c P0 IH].
  - simpl. rewrite HT. destruct ep; [congruence | reflexivity].
  - assert (Hhere : matchEp (P0 ++ [101; 112]%Z) = None
            /\ match P0 ++ [101; 112]%Z with
               | d :: r' =>
                   if ((c =? 101) || (c =? 69))%Z && ((d =? 112) || (d =? 80))%Z
                   then match takeDigits r' with [] => None | ds => Some ds end
                   else None
               | [] => None
               end = None).
    { change (matchEp ((c :: P0) ++ [101; 112]%Z)) with
        (match (match P0 ++ [101; 112]%Z with
                | d :: r' =>
                    if ((c =? 101) || (c =? 69))%Z && ((d =? 112) || (d =? 80))%Z
                    then match takeDigits r' with [] => None | ds => Some ds end
                    else None
                | [] => None
                end) with
         | Some ds => Some ds
         | None => matchEp (P0 ++ [101; 112]%Z)
         end) in HP.
      destruct (match P0 ++ [101; 112]%Z with
                | d :: r' => _ | [] => None end); [discriminate HP|].
      split; [exact HP | reflexivity]. }
    destruct Hhere as [Hrest Hhere].
    change (matchEp ((c :: P0) ++ [101; 112]%Z ++ T)) with
      (match (match P0 ++ [101; 112]%Z ++ T with
              | d :: r' =>
                  if ((c =? 101) || (c =? 69))%Z && ((d =? 112) || (d =? 80))%Z
                  then match takeDigits r' with [] => None | ds => Some ds end
                  else None
              | [] => None
              end) with
       | Some ds => Some ds
       | None => matchEp (P0 ++ [101; 112]%Z ++ T)
       end).
    rewrite (IH Hrest).
    destruct P0 as [|d r'].
    + simpl. simpl in Hhere.
      replace ((c =? 101) || (c =? 69))%Z
        with (((c =? 101) || (c =? 69))%Z) by reflexivity.
      rewrite andb_false_r. reflexivity.
    + simpl app in *. cbv iota in *.
      destruct (((c =? 101) || (c =? 69))%Z && ((d =? 112) || (d =? 80))%Z);
        [|reflexivity].
      destruct r' as [|x r'].
      * reflexivity.
      * simpl in *. destruct (isDigit x); [discriminate Hhere | reflexivity].
Qed.

Section AroundEpisode.
Variables P S ep : jsstring.
Hypothesis ep_some : ep <> [].
Hypothesis ep_digits : forallb isDigit ep = true.

Let lower := P ++ ep ++ S.

Lemma hitsAround_ok (ke : jsstring * jsstring) :
  hitsAround P S ke = true ->
  includes (fst ke) lower && endsWith (snd ke) lower = true.
Proof.
  unfold hitsAround, lower. intros H. apply andb_true_iff in H.
  destruct H as [H1 H2]. apply andb_true_iff. split.
  - apply includes_app_l, H1.
  - rewrite app_assoc. apply endsWith_app_true, H2.
Qed.

Lemma missesAround_ok (ke : jsstring * jsstring) :
  missesAround P S ke = true -> includes (fst ke) lower = false.
Proof.
  unfold missesAround, lower. intros H.
  apply andb_true_iff in H. destruct H as [H H3].
  apply andb_true_iff in H. destruct H as [H1 H2].
  rewrite includes_around; try assumption.
  - apply negb_true_iff, H3.
  - destruct (fst ke); [discriminate H2 | discriminate].
Qed.

Lemma findAround_ok (l : list (jsstring * jsstring)) (ke : jsstring * jsstring) :
  findAround P S l = Some ke ->
  find (fun ke => includes (fst ke) lower && endsWith (snd ke) lower) l = Some ke.
Proof.
  induction l as [|x l IH]; simpl; [discriminate|].
  destruct (hitsAround P S x) eqn:H.
  - intros E. injection E as <-. rewrite (@hitsAround_ok x H). reflexivity.
  - destruct (missesAround P S x) eqn:M; [|discriminate].
    rewrite (@missesAround_ok x M). simpl. exact IH.
Qed.
End AroundEpisode.

(** A lower-case name made of a prefix ending in [ep], a run of digits and a
    suffix is classified as the checks on the prefix and the suffix say,
    with the digits as its episode. *)
Lemma recognisedAround_ok (P0 S key ep : jsstring) :
  recognisedAround P0 S key = true ->
  isEpisodeId ep ->
  detectTableKey (P0 ++ js "ep" ++ ep ++ S)
  = Some {| det_key := key; det_ep := Some ep |}.
Proof.
  unfold recognisedAround. intros H [Ne He].
  apply andb_true_iff in H; destruct H as [H Hfind].
  apply andb_true_iff in H; destruct H as [H Hjson].
  apply andb_true_iff in H; destruct H as [H Heps].
  apply andb_true_iff in H; destruct H as [H Ht].
  apply andb_true_iff in H; destruct H as [H Hm].
  apply andb_true_iff in H; destruct H as [HlowP HlowS].
  apply jseqb_eq in HlowP, HlowS.
  destruct (matchEp (P0 ++ js "ep")) eqn:Em; [discriminate Hm|].
  destruct (takeDigits S) eqn:Et; [|discriminate Ht].
  destruct (findAround (P0 ++ js "ep") S tableFiles) as [[k ext]|] eqn:Ef;
    [|discriminate Hfind].
  apply jseqb_eq in Hfind. subst k.
  assert (L : toLowerCase (P0 ++ js "ep" ++ ep ++ S)
              = (P0 ++ js "ep") ++ ep ++ S).
  { rewrite app_assoc, (toLowerCase_app (P0 ++ js "ep") (ep ++ S)),
      (toLowerCase_app ep S), HlowP, HlowS, (@toLowerCase_digits ep He).
    reflexivity. }
  unfold detectTableKey. rewrite L.
  pose proof (@missesAround_ok _ _ _ Ne He _ Heps) as Me. simpl fst in Me.
  rewrite Me. simpl andb. cbv iota.
  assert (J : endsWith (js ".json") ((P0 ++ js "ep") ++ ep ++ S) = false).
  { unfold endsWith. rewrite app_assoc, rev_app_distr.
    apply startsWith_app_false. apply negb_true_iff, Hjson. }
  rewrite J, andb_false_r.
  rewrite (@findAround_ok _ _ _ Ne He _ _ Ef).
  unfold parseEpisodeFromName.
  rewrite <- app_assoc, (@matchEp_last P0 ep S Em Ne He Et). reflexivity.
Qed.

Section SuggestedFiles.
Context {host : Coercions}.

(** X27.  The file name that the dashboard suggests for an episode missing from a
    distribution chart is recognised as the table of that chart for that
    episode: once such a file with at least one row is ingested, the episode
    is known and no longer reported as missing. *)
Theorem suggested_file_fills_gap (st : Store) (distKind : DistKind)
        (ep : jsstring) (text : FileText) (rows : list Row)
        (eps : list jsstring) :
  isEpisodeId ep ->
  parseCsv text = Some rows ->
  rows <> [] ->
  let name := distTableKey distKind ++ js "_ep" ++ ep ++ js ".csv" in
  let st' := ingest st (name, text) in
  distFilePattern distKind = distTableKey distKind ++ js "_ep{ep}.csv"
  /\ detectTableKey name
     = Some {| det_key := distTableKey distKind; det_ep := Some ep |}
  /\ In ep (episodes st')
  /\ ~ In ep (missingEps (distCompareMissing st' eps distKind)).
Proof.
  intros Hep Hp Hr name st'.
  assert (D : detectTableKey name
              = Some {| det_key := distTableKey distKind; det_ep := Some ep |}).
  { subst name.
    assert (R : recognisedAround (distTableKey distKind ++ js "_")
                                 (js ".csv") (distTableKey distKind) = true)
      by (destruct distKind; vm_compute; reflexivity).
    pose proof (@recognisedAround_ok _ _ _ ep R Hep) as G.
    rewrite <- app_assoc in G. exact G. }
  assert (T : tableOf st' ep (distTableKey distKind) = Some rows
              /\ In ep (episodes st')).
  { subst st'. unfold ingest, ingestFileText; simpl fst; simpl snd.
    rewrite D; simpl det_key; simpl det_ep.
    replace (jseqb (distTableKey distKind) KEY_EPISODE_STATS) with false
      by (destruct distKind; reflexivity).
    replace (jseqb (distTableKey distKind) KEY_BASIC_STATS) with false
      by (destruct distKind; reflexivity).
    rewrite Hp. split.
    - rewrite tableOf_putTable, !jseqb_refl. reflexivity.
    - simpl. apply mergeEpisodes_In. left.
      apply ObjFacts.ownKeys_set. left; reflexivity. }
  destruct T as [T1 T2].
  split; [destruct distKind; reflexivity|].
  split; [exact D|]. split; [exact T2|].
  unfold distCompareMissing. destruct eps as [|e eps']; [intros []|].
  cbn [missingEps]. intros I. apply filter_In in I. destruct I as [_ I].
  unfold hasNoRows in I. rewrite T1 in I.
  destruct rows; [apply Hr; reflexivity | discriminate I].
Qed.
End SuggestedFiles.

(** ** Comparing episodes on one curve *)

Lemma Qeq_bool_trans_l (a b c : Q) :
  Qeq_bool a b = true -> Qeq_bool a c = Qeq_bool b c.
Proof.
  intros H. apply Qeq_bool_iff in H.
  destruct (Qeq_bool a c) eqn:E1, (Qeq_bool b c) eqn:E2; try reflexivity.
  - apply Qeq_bool_iff in E1. apply Qeq_bool_neq in E2. exfalso. apply E2.
    rewrite <- H. exact E1.
  - apply Qeq_bool_neq in E1. apply Qeq_bool_iff in E2. exfalso. apply E1.
    rewrite H. exact E2.
Qed.

Lemma numGet_numSet (m k v : Q) (o : list (Q * Q)) :
  numGet m (numSet k v o) = if Qeq_bool k m then Some v else numGet m o.
Proof.
  unfold numGet. induction o as [|[k' v'] o IH]; simpl.
  - destruct (Qeq_bool k m); reflexivity.
  - destruct (Qeq_bool k' k) eqn:E; simpl.
    + rewrite (Qeq_bool_trans_l k' k m E).
      destruct (Qeq_bool k m); reflexivity.
    + destruct (Qeq_bool k' m) eqn:F; [|exact IH].
      destruct (Qeq_bool k m) eqn:G; [|reflexivity].
      apply Qeq_bool_iff in F, G. apply Qeq_bool_neq in E.
      exfalso. apply E. rewrite F, G. reflexivity.
Qed.

Lemma setAddNum_In (m q : Q) (s : list Q) :
  (exists x, In x (setAddNum m s) /\ x == q)
  <-> (exists x, In x s /\ x == q) \/ m == q.
Proof.
  unfold setAddNum. destruct (existsb (Qeq_bool m) s) eqn:E.
  - split; [tauto|]. intros [H|H]; [exact H|].
    apply existsb_exists in E. destruct E as (x & Hx & E).
    apply Qeq_bool_iff in E. exists x. split; [exact Hx|].
    rewrite <- E. exact H.
  - split.
    + intros (x & Hx & Hq). apply in_app_or in Hx.
      destruct Hx as [Hx|[<-|[]]]; [left; exists x; tauto | right; exact Hq].
    + intros [(x & Hx & Hq)|H].
      * exists x. split; [apply in_or_app; left; exact Hx | exact Hq].
      * exists m. split; [apply in_or_app; right; left; reflexivity | exact H].
Qed.

Lemma setAddNum_distinct (m : Q) (s : list Q) :
  ForallOrdPairs (fun a b => ~ a == b) s ->
  ForallOrdPairs (fun a b => ~ a == b) (setAddNum m s).
Proof.
  intros H. unfold setAddNum. destruct (existsb (Qeq_bool m) s) eqn:E;
    [exact H|].
  apply pairs_snoc; [exact H|].
  apply Forall_forall. intros x Hx Hq.
  assert (T : existsb (Qeq_bool m) s = true).
  { apply existsb_exists. exists x. split; [exact Hx|].
    apply Qeq_bool_iff. symmetry. exact Hq. }
  congruence.
Qed.

Section CompareMore.
Context {host : Coercions}.

Lemma minuteOf_withMinute (r : Row) : minuteOf (withMinute r) = minuteOf r.
Proof.
  unfold minuteOf, withMinute. rewrite ObjFacts.get_set_eq.
  apply safeNumber_VNum, safeNumber_representable.
Qed.

Lemma seriesValue_withMinute (seriesKey : jsstring) (r : Row) :
  seriesValue seriesKey (withMinute r) = seriesValue seriesKey r.
Proof.
  unfold seriesValue, withMinute.
  destruct (jseqb seriesKey (js "minute")) eqn:E.
  - apply jseqb_eq in E. subst seriesKey.
    rewrite ObjFacts.get_set_eq.
    apply safeNumber_VNum, safeNumber_representable.
  - apply jseqb_false in E.
    rewrite ObjFacts.get_set_ne by congruence. reflexivity.
Qed.

Lemma lookup_lastAt (seriesKey : jsstring) (rows : list Row) (m : Q) :
  match numGet m (fold_left (fun o r => numSet (minuteOf r)
                                               (seriesValue seriesKey r) o)
                            (map withMinute rows) []) with
  | Some v => v
  | None => 0
  end = lastAt seriesKey rows m.
Proof.
  unfold lastAt. induction rows as [|r rows IH] using rev_ind; [reflexivity|].
  rewrite map_app, fold_left_app, rev_app_distr. simpl.
  rewrite numGet_numSet, minuteOf_withMinute, seriesValue_withMinute.
  destruct (Qeq_bool (minuteOf r) m); [reflexivity | exact IH].
Qed.

Lemma minuteSet_In (rows : list Row) (s : list Q) (q : Q) :
  (exists x, In x (fold_left (fun s r => setAddNum (minuteOf r) s) rows s)
             /\ x == q)
  <-> (exists x, In x s /\ x == q)
      \/ exists r, In r rows /\ minuteOf r == q.
Proof.
  revert s. induction rows as [|r rows IH]; intros s; simpl.
  - split; [tauto|]. intros [H|(r & [] & _)]. exact H.
  - rewrite IH, setAddNum_In. split.
    + intros [[H|H]|(x & Hx & Hq)]; [left; exact H | |].
      * right. exists r. split; [left; reflexivity | exact H].
      * right. exists x. split; [right; exact Hx | exact Hq].
    + intros [H|(x & [<-|Hx] & Hq)]; [left; left; exact H | |].
      * left; right; exact Hq.
      * right. exists x. split; assumption.
Qed.

Lemma setAddNum_member (m x : Q) (s : list Q) :
  In x (setAddNum m s) -> In x s \/ x = m.
Proof.
  unfold setAddNum. destruct (existsb (Qeq_bool m) s); [left; assumption|].
  intros H. apply in_app_or in H. destruct H as [H|[<-|[]]];
    [left; exact H | right; reflexivity].
Qed.

(** The minutes collected are minutes of rows: they are numbers. *)
Lemma minuteSet_representable (rows : list Row) (s : list Q) :
  Forall representable s ->
  Forall representable
         (fold_left (fun s r => setAddNum (minuteOf r) s) rows s).
Proof.
  revert s. induction rows as [|r rows IH]; intros s H; simpl; [exact H|].
  apply IH. apply Forall_forall. intros x Hx.
  apply setAddNum_member in Hx. destruct Hx as [Hx| ->].
  - rewrite Forall_forall in H. apply H, Hx.
  - apply safeNumber_representable.
Qed.

Lemma minuteSet_distinct (rows : list Row) (s : list Q) :
  ForallOrdPairs (fun a b => ~ a == b) s ->
  ForallOrdPairs (fun a b => ~ a == b)
                 (fold_left (fun s r => setAddNum (minuteOf r) s) rows s).
Proof.
  revert s. induction rows as [|r rows IH]; intros s H; simpl; [exact H|].
  apply IH, setAddNum_distinct, H.
Qed.

Lemma epKeyOf_inj (a b : jsstring) : epKeyOf a = epKeyOf b -> a = b.
Proof. unfold epKeyOf. apply app_inv_head. Qed.

Lemma fold_ep_there (g : jsstring -> Value) (eps : list jsstring)
      (row0 : Obj.t Value) (ep : jsstring) :
  In ep eps ->
  Obj.get (epKeyOf ep)
          (fold_left (fun row e => Obj.set (epKeyOf e) (g e) row) eps row0)
  = Some (g ep).
Proof.
  induction eps as [|e eps IH] using rev_ind; [intros []|].
  intros I. rewrite fold_left_app. simpl.
  destruct (list_eq_dec Z.eq_dec e ep) as [->|N].
  - apply ObjFacts.get_set_eq.
  - rewrite ObjFacts.get_set_ne.
    + apply IH. apply in_app_or in I. destruct I as [I|[I|[]]];
        [exact I | contradiction].
    + intros E. apply N, epKeyOf_inj, E.
Qed.

Lemma fold_ep_elsewhere (g : jsstring -> Value) (eps : list jsstring)
      (row0 : Obj.t Value) (k : jsstring) :
  (forall e, epKeyOf e <> k) ->
  Obj.get k (fold_left (fun row e => Obj.set (epKeyOf e) (g e) row) eps row0)
  = Obj.get k row0.
Proof.
  intros N. induction eps as [|e eps IH] using rev_ind; [reflexivity|].
  rewrite fold_left_app. simpl. rewrite ObjFacts.get_set_ne by apply N.
  exact IH.
Qed.

(** X28.  The combined curve of the comparison has one row for every minute that
    occurs in the per-minute table of a selected episode, in strictly
    ascending order of the minute, and gives for every selected episode the
    value of the compared series in the last row of that episode at that
    minute, 0 when the episode has no row there. *)
Theorem combined_curve (compareEps : list jsstring) (store : Store)
        (curveMode : ColorMode) (compareSeries : jsstring) :
  let key := match curveMode with
             | ModeEmo => TABLE_KEYS.DANMU_MIN_EMO
             | ModeFunc => TABLE_KEYS.DANMU_MIN_FUNC
             end in
  let out := compareCurveCombined true compareEps store curveMode
                                  compareSeries in
  (forall p q a b, (p < q)%nat ->
      nth_error out p = Some a -> nth_error out q = Some b ->
      minuteOf a < minuteOf b)
  /\ (forall m, (exists row, In row out /\ minuteOf row == m)
                <-> exists ep r, In ep compareEps
                                 /\ In r (distOf store ep key)
                                 /\ minuteOf r == m)
  /\ (forall row ep, In row out -> In ep compareEps ->
        Obj.get (epKeyOf ep) row
        = Some (VNum (lastAt compareSeries (distOf store ep key)
                             (minuteOf row)))).
Proof.
  intros key out.
  set (mkRow := fun m : Q =>
         fold_left
           (fun row ep =>
              Obj.set (epKeyOf ep)
                      (VNum (match numGet m (compareLookup store key
                                               compareSeries ep) with
                             | Some v => v
                             | None => 0
                             end))
                      row)
           compareEps [(js "minute", VNum m)]).
  assert (Hout : out = map mkRow (compareMinutes store key compareEps)).
  { subst out. unfold compareCurveCombined. destruct compareEps; reflexivity. }
  set (S0 := fold_left
               (fun s ep =>
                  fold_left (fun s r => setAddNum (minuteOf r) s)
                            (compareRows store key ep) s)
               compareEps []).
  assert (HS : S0 = fold_left (fun s r => setAddNum (minuteOf r) s)
                              (flat_map (compareRows store key) compareEps) [])
    by apply fold_flat_map.
  assert (Hperm : Permutation (compareMinutes store key compareEps) S0)
    by apply sortBy_perm.
  assert (Hmin : forall m, In m (compareMinutes store key compareEps) ->
                           minuteOf (mkRow m) = m).
  { intros m Hm. unfold minuteOf, mkRow.
    rewrite fold_ep_elsewhere; [|intros e; unfold epKeyOf; discriminate].
    apply safeNumber_VNum.
    apply (Permutation_in _ Hperm) in Hm. rewrite HS in Hm.
    pose proof (@minuteSet_representable
                  (flat_map (compareRows store key) compareEps) []
                  (Forall_nil _)) as F.
    rewrite Forall_forall in F. apply F, Hm. }
  rewrite Hout. split; [|split].
  - intros p q a b Hpq Ha Hb.
    rewrite nth_error_map in Ha, Hb.
    destruct (nth_error (compareMinutes store key compareEps) p) as [mp|] eqn:Ep;
      [|discriminate Ha].
    destruct (nth_error (compareMinutes store key compareEps) q) as [mq|] eqn:Eq;
      [|discriminate Hb].
    simpl in Ha, Hb. injection Ha as <-. injection Hb as <-.
    rewrite (Hmin mp (nth_error_In _ _ Ep)), (Hmin mq (nth_error_In _ _ Eq)).
    assert (L : mp <= mq).
    { exact (pairs_nth_lt
               (sorted_pairs (sortBy_sorted (fun x : Q => x) S0)) Hpq Ep Eq). }
    assert (D : ~ mp == mq).
    { assert (Rs : forall x y : Q, ~ x == y -> ~ y == x).
      { intros x y H E. apply H. symmetry. exact E. }
      assert (P : ForallOrdPairs (fun a b => ~ a == b)
                                 (compareMinutes store key compareEps)).
      { apply (@pairs_perm _ (fun a b : Q => ~ a == b) Rs S0).
        - symmetry. exact Hperm.
        - rewrite HS. apply minuteSet_distinct. constructor. }
      apply (@pairs_nth _ (fun a b : Q => ~ a == b) Rs
               (compareMinutes store key compareEps) P p q mp mq);
        [lia | exact Ep | exact Eq]. }
    destruct (Qle_lt_or_eq _ _ L) as [Lt|E]; [exact Lt | contradiction].
  - intros m.
    assert (A : (exists row, In row (map mkRow (compareMinutes store key compareEps))
                             /\ minuteOf row == m)
                <-> exists x, In x S0 /\ x == m).
    { split.
      - intros (row & Hr & Hm). apply in_map_iff in Hr.
        destruct Hr as (x & <- & Hx). rewrite (Hmin x Hx) in Hm.
        exists x. split; [|exact Hm].
        apply (Permutation_in _ Hperm), Hx.
      - intros (x & Hx & Hm).
        apply (Permutation_in _ (Permutation_sym Hperm)) in Hx.
        exists (mkRow x). split.
        + apply in_map, Hx.
        + rewrite (Hmin x Hx). exact Hm. }
    rewrite A, HS, minuteSet_In. split.
    + intros [(x & [] & _)|(r & Hr & Hm)].
      apply in_flat_map in Hr. destruct Hr as (ep & Hep & Hr).
      unfold compareRows in Hr. apply in_map_iff in Hr.
      destruct Hr as (r0 & <- & Hr0). rewrite minuteOf_withMinute in Hm.
      exists ep, r0. repeat split; assumption.
    + intros (ep & r & Hep & Hr & Hm). right.
      exists (withMinute r). split.
      * apply in_flat_map. exists ep. split; [exact Hep|].
        unfold compareRows. apply in_map, Hr.
      * rewrite minuteOf_withMinute. exact Hm.
  - intros row ep Hrow Hep. apply in_map_iff in Hrow.
    destruct Hrow as (m & <- & Hm). rewrite (Hmin m Hm). unfold mkRow.
    rewrite (fold_ep_there
               (fun e => VNum (match numGet m (compareLookup store key
                                                 compareSeries e) with
                               | Some v => v
                               | None => 0
                               end)) compareEps _ ep Hep).
    unfold compareLookup, compareRows. rewrite lookup_lastAt. reflexivity.
Qed.

(** X29.  With peaks switched on and a non-empty combined curve, every selected
    episode gets a peak, in selection order: the first row of the curve
    whose value for that episode no row exceeds.  Unlike [computePeak], the
    peak is reported whatever its sign; when [computePeak] finds a peak on
    the same rows, it is the same one. *)
Theorem comparePeaks_spec (combined : list Row) (compareEps : list jsstring) :
  combined <> [] ->
  let peaks := comparePeaks true true combined compareEps in
  map cp_epKey peaks = map epKeyOf compareEps
  /\ (forall pk, In pk peaks ->
        exists pre r post,
          combined = pre ++ r :: post
          /\ cp_minute pk = minuteOf r
          /\ cp_value pk = seriesValue (cp_epKey pk) r
          /\ (forall x, In x pre -> seriesValue (cp_epKey pk) x < cp_value pk)
          /\ (forall x, In x post -> seriesValue (cp_epKey pk) x <= cp_value pk))
  /\ (forall ep p, In ep compareEps ->
        computePeak combined (epKeyOf ep) = Some p ->
        In {| cp_epKey := epKeyOf ep; cp_minute := peak_minute p;
              cp_value := peak_value p |} peaks).
Proof.
  intros NE peaks.
  destruct combined as [|a rest]; [exfalso; apply NE; reflexivity|].
  assert (Scan : forall k, exists pre r post,
            a :: rest = pre ++ r :: post
            /\ fold_left (peakStep k) (a :: rest) (None, None)
               = (Some (minuteOf r), Some (seriesValue k r))
            /\ (forall x, In x pre -> seriesValue k x < seriesValue k r)
            /\ (forall x, In x post -> seriesValue k x <= seriesValue k r)).
  { intros k.
    destruct (@peak_scan _ k rest [] [] a) as (pre & r & post & Heq & Hf & H1 & H2);
      [intros x [] | intros x [] |].
    exists pre, r, post. repeat split; try assumption. }
  assert (P : peaks
              = map (fun ep =>
                       match fold_left (peakStep (epKeyOf ep)) (a :: rest)
                                       (None, None) with
                       | (Some m, Some v) =>
                           {| cp_epKey := epKeyOf ep; cp_minute := m;
                              cp_value := v |}
                       | _ => {| cp_epKey := epKeyOf ep; cp_minute := 0;
                                 cp_value := 0 |}
                       end) compareEps).
  { subst peaks. unfold comparePeaks.
    cbn [negb orb]. induction compareEps as [|ep eps IH]; [reflexivity|].
    cbn [flat_map map]. rewrite IH.
    destruct (Scan (epKeyOf ep)) as (pre & r & post & _ & -> & _).
    reflexivity. }
  rewrite P. split; [|split].
  - rewrite map_map. apply map_ext. intros ep.
    destruct (Scan (epKeyOf ep)) as (pre & r & post & _ & -> & _).
    reflexivity.
  - intros pk Hpk. apply in_map_iff in Hpk. destruct Hpk as (ep & <- & _).
    destruct (Scan (epKeyOf ep)) as (pre & r & post & Heq & -> & H1 & H2).
    exists pre, r, post. simpl. repeat split; assumption.
  - intros ep p Hep Hp. apply in_map_iff. exists ep. split; [|exact Hep].
    unfold computePeak in Hp.
    destruct (fold_left (peakStep (epKeyOf ep)) (a :: rest) (None, None))
      as [[m|] [v|]]; try discriminate Hp.
    destruct (Qltb v 0); [discriminate Hp|]. injection Hp as <-. reflexivity.
Qed.

Lemma nth_last (A : Type) (l : list A) (x d : A) :
  nth (length (l ++ [x]) - 1) (l ++ [x]) d = x.
Proof.
  rewrite length_app. simpl.
  replace (length l + 1 - 1)%nat with (length l) by lia.
  rewrite app_nth2 by lia. rewrite Nat.sub_diag. reflexivity.
Qed.

(** X30.  After any sequence of ingests, an empty selection is filled with the
    last two episodes, that is the two with the highest numbers, in that
    order, or with the only one; the last episode becomes active when none
    is; and a selection that is not empty is left alone. *)
Theorem default_selection (files : list (jsstring * FileText)) :
  let eps := episodes (ingestAll files) in
  (forall pre a b, eps = pre ++ [a; b] ->
      syncCompareEps eps [] = [a; b]
      /\ syncDistCompareEps eps [] = [a; b]
      /\ syncActiveEp eps None = Some b
      /\ episodeNumber a <= episodeNumber b)
  /\ (forall a, eps = [a] ->
      syncCompareEps eps [] = [a] /\ syncDistCompareEps eps [] = [a]
      /\ syncActiveEp eps None = Some a)
  /\ (forall sel, sel <> [] ->
      syncCompareEps eps sel = sel /\ syncDistCompareEps eps sel = sel)
  /\ (forall ep, ep <> [] -> syncActiveEp eps (Some ep) = Some ep).
Proof.
  intros eps.
  pose proof (ingestAll_derived files) as D. fold eps in D.
  assert (ND : NoDup eps).
  { unfold eps. unfold episodesDerived in D. rewrite D.
    apply mergeEpisodes_NoDup. }
  assert (NZ : forall e, In e eps -> e <> []).
  { intros e He. apply (derived_In e (ingestAll_derived files)) in He.
    destruct (ingestAll_keys files) as (K1 & K2 & _).
    destruct He as [He|[He|He]].
    - apply K1 in He. apply He.
    - apply K2 in He. apply He.
    - unfold embeddedEpisodes in He. apply filter_In in He.
      destruct He as [_ He]. destruct e; [discriminate He | discriminate]. }
  split; [|split; [|split]].
  - intros pre a b E.
    assert (Ha : a <> []) by (apply NZ; rewrite E; apply in_or_app; right; left; reflexivity).
    assert (Hab : a <> b).
    { rewrite E in ND. apply NoDup_remove_2 in ND. intros ->. apply ND.
      apply in_or_app. right. left. reflexivity. }
    assert (I : initialSelection eps = [a; b]).
    { unfold initialSelection. rewrite E.
      change (pre ++ [a; b]) with (pre ++ [a] ++ [b]).
      rewrite app_assoc, nth_last.
      rewrite length_app. simpl length.
      replace (Nat.max 0 (length (pre ++ [a]) + 1 - 2))
        with (length (pre ++ [a]) - 1)%nat
        by (rewrite length_app; simpl; lia).
      rewrite app_nth1 by (rewrite length_app; simpl; lia).
      rewrite nth_last. rewrite (jseqb_neq Hab).
      destruct a; [congruence | reflexivity]. }
    assert (C : syncCompareEps eps [] = initialSelection eps
                /\ syncDistCompareEps eps [] = initialSelection eps
                /\ syncActiveEp eps None
                   = Some (nth (length eps - 1) eps [])).
    { rewrite E. destruct pre; repeat split; reflexivity. }
    destruct C as (-> & -> & ->). rewrite I.
    repeat split; try reflexivity.
    + f_equal. rewrite E. change (pre ++ [a; b]) with (pre ++ [a] ++ [b]).
      rewrite app_assoc. apply nth_last.
    + unfold eps in E.
      apply (@episodes_pair_order _ files (length pre) (S (length pre)) a b);
        [lia | |]; rewrite E.
      * rewrite nth_error_app2 by lia. rewrite Nat.sub_diag. reflexivity.
      * rewrite nth_error_app2 by lia.
        replace (S (length pre) - length pre)%nat with 1%nat by lia.
        reflexivity.
  - intros a E. rewrite E.
    unfold syncCompareEps, syncDistCompareEps, syncActiveEp, initialSelection.
    simpl. rewrite jseqb_refl, andb_false_r. repeat split; reflexivity.
  - intros sel N. destruct sel; [congruence|].
    unfold syncCompareEps, syncDistCompareEps. destruct eps; split; reflexivity.
  - intros ep N. destruct ep; [congruence|].
    unfold syncActiveEp. destruct eps; reflexivity.
Qed.
End CompareMore.

(* ================================================================== *)
(** * Closed instances of the further properties *)

Lemma topKIntervals_windows_witness :
  exists i j,
    windowAt (map (@minuteOf digitsHost) (@sortByMinute digitsHost roundedSeries))
             (map (@seriesValue digitsHost (js "v"))
                  (@sortByMinute digitsHost roundedSeries))
             (Qmax 1 (Qmin 20 2)) i j
             {| iv_start := 4; iv_end := 5;
                iv_score := Fin (1069604911500493 # 140737488355328) |}.
Proof.
  apply (@topKIntervals_windows digitsHost roundedSeries (js "v") 2 1).
  vm_compute. left; reflexivity.
Defined.

Lemma topKIntervals_best_witness :
  @topKIntervals digitsHost roundedSeries (js "v") 2 1
  = [ {| iv_start := 4; iv_end := 5;
         iv_score := Fin (1069604911500493 # 140737488355328) |} ]
  /\ exists best,
      In best (@topKIntervals digitsHost roundedSeries (js "v") 2 1)
      /\ forall c,
          In c (windowCandidates
                  (map (@minuteOf digitsHost)
                       (@sortByMinute digitsHost roundedSeries))
                  (map (@seriesValue digitsHost (js "v"))
                       (@sortByMinute digitsHost roundedSeries))
                  (Qmax 1 (Qmin 20 2))) ->
          numLe (cand_score c) (iv_score best).
Proof.
  split; [vm_compute; reflexivity|].
  apply (@topKIntervals_best digitsHost roundedSeries (js "v") 2 1).
  - discriminate.
  - vm_compute. repeat constructor; discriminate.
Defined.

Lemma topKIntervals_ordered_witness :
  exists a b,
    nth_error (@topKIntervals digitsHost exampleSeries (js "v") 2 3) 0 = Some a
    /\ nth_error (@topKIntervals digitsHost exampleSeries (js "v") 2 3) 1 = Some b
    /\ iv_end a < iv_start b.
Proof.
  exists {| iv_start := 1; iv_end := 2; iv_score := Fin 10 |},
         {| iv_start := 3; iv_end := 3; iv_score := Fin 9 |}.
  assert (Ha : nth_error (@topKIntervals digitsHost exampleSeries (js "v") 2 3) 0
               = Some {| iv_start := 1; iv_end := 2; iv_score := Fin 10 |})
    by (vm_compute; reflexivity).
  assert (Hb : nth_error (@topKIntervals digitsHost exampleSeries (js "v") 2 3) 1
               = Some {| iv_start := 3; iv_end := 3; iv_score := Fin 9 |})
    by (vm_compute; reflexivity).
  split; [exact Ha|]. split; [exact Hb|].
  apply (@topKIntervals_ordered digitsHost exampleSeries (js "v") 2 3 0 1 _ _
           (le_n 1) Ha Hb).
Defined.

Lemma computePeak_value_any_order_witness :
  let rows := [curveRow 1 9; curveRow 2 1] in
  let rows' := [curveRow 2 1; curveRow 1 9] in
  (@computePeak digitsHost rows (js "v") = None
   <-> @computePeak digitsHost rows' (js "v") = None)
  /\ (forall p p',
        @computePeak digitsHost rows (js "v") = Some p ->
        @computePeak digitsHost rows' (js "v") = Some p' ->
        peak_value p == peak_value p' /\ 0 <= peak_value p).
Proof.
  apply (@computePeak_value_any_order digitsHost (js "v")
           [curveRow 1 9; curveRow 2 1] [curveRow 2 1; curveRow 1 9]).
  apply perm_swap.
Defined.

Lemma curveData_peak_earliest_witness :
  exists p,
    @computePeak digitsHost (@curveData digitsHost exampleCurveTables ModeEmo)
                 (js "v") = Some p
    /\ peak_minute p <= @minuteOf digitsHost (curveRow 2 9).
Proof.
  exists {| peak_minute := 1; peak_value := 9 |}.
  assert (Hp : @computePeak digitsHost
                 (@curveData digitsHost exampleCurveTables ModeEmo) (js "v")
               = Some {| peak_minute := 1; peak_value := 9 |})
    by (vm_compute; reflexivity).
  split; [exact Hp|].
  apply (@curveData_peak_earliest digitsHost (js "v") exampleCurveTables ModeEmo
           _ (curveRow 2 9) Hp).
  - vm_compute. right; left; reflexivity.
  - vm_compute. reflexivity.
Defined.

Lemma episodes_in_numeric_order_witness :
  @episodeNumber digitsHost (js "9") <= @episodeNumber digitsHost (js "10").
Proof.
  apply (@episodes_in_numeric_order digitsHost
           [(js "danmaku_emo_dist_ep10.csv", csvText []);
            (js "danmaku_emo_dist_ep9.csv", csvText [])] 0 1 (js "9") (js "10")).
  - lia.
  - vm_compute. reflexivity.
  - vm_compute. reflexivity.
Defined.

Lemma table_read_back_witness :
  let st' := @ingest digitsHost emptyStore
               (js "danmaku_emo_dist_ep6.csv", csvText [emoDistRow "laugh" 1]) in
  tableOf st' (js "6") TABLE_KEYS.DANMU_EMO = Some [emoDistRow "laugh" 1]
  /\ In (js "6") (episodes st').
Proof.
  apply (@table_read_back digitsHost emptyStore (js "danmaku_emo_dist_ep6.csv")
           (csvText [emoDistRow "laugh" 1]) TABLE_KEYS.DANMU_EMO (js "6")
           [emoDistRow "laugh" 1]).
  - split; [vm_compute; reflexivity|]. split; vm_compute; discriminate.
  - reflexivity.
Defined.

Lemma basic_stats_read_back_witness :
  let st' := @ingest digitsHost emptyStore
               (js "danmaku_basic_stats_ep3.json", jsonText (JNum 1)) in
  Obj.get (js "3") (basicStatsByEp st') = Some (JNum 1)
  /\ In (js "3") (episodes st')
  /\ (forall ep', ep' <> js "3" ->
        Obj.get ep' (basicStatsByEp st') = Obj.get ep' (basicStatsByEp emptyStore))
  /\ tablesByEp st' = tablesByEp emptyStore
  /\ episodeStats st' = episodeStats emptyStore.
Proof.
  apply (@basic_stats_read_back digitsHost emptyStore
           (js "danmaku_basic_stats_ep3.json") (jsonText (JNum 1)) (js "3")
           (JNum 1)).
  - vm_compute. reflexivity.
  - reflexivity.
Defined.

Lemma global_stats_read_back_witness :
  let st' := @ingest digitsHost emptyStore
               (js "episode_stats.csv", csvText [statsRow 5]) in
  episodeStats st' = Some [statsRow 5]
  /\ tablesByEp st' = tablesByEp emptyStore
  /\ basicStatsByEp st' = basicStatsByEp emptyStore
  /\ forall e, In e (episodes st')
               <-> In e (Obj.ownKeys (tablesByEp emptyStore))
                   \/ In e (Obj.ownKeys (basicStatsByEp emptyStore))
                   \/ In e (@embeddedEpisodes digitsHost (Some [statsRow 5])).
Proof.
  apply (@global_stats_read_back digitsHost emptyStore (js "episode_stats.csv")
           (csvText [statsRow 5]) [statsRow 5]).
  - vm_compute. reflexivity.
  - reflexivity.
Defined.

Lemma ingest_skips_witness :
  @ingestFileText digitsHost (js "notes.txt") brokenText emptyStore
  = Some emptyStore.
Proof.
  apply (@ingest_skips digitsHost emptyStore (js "notes.txt") brokenText).
  left. vm_compute. reflexivity.
Defined.

Lemma same_slot_last_write_wins_witness :
  let f1 := (js "danmaku_emo_dist_ep6.csv", csvText [emoDistRow "laugh" 1]) in
  let f2 := (js "v2_danmaku_emo_dist_ep6.csv", csvText []) in
  @ingest digitsHost (@ingest digitsHost emptyStore f1) f2
  = @ingest digitsHost emptyStore f2.
Proof.
  apply (@same_slot_last_write_wins digitsHost emptyStore
           (js "danmaku_emo_dist_ep6.csv", csvText [emoDistRow "laugh" 1])
           (js "v2_danmaku_emo_dist_ep6.csv", csvText [])).
  vm_compute. split; reflexivity.
Defined.

Lemma different_slots_commute_witness :
  let f1 := (js "danmaku_emo_dist_ep6.csv", csvText [emoDistRow "laugh" 1]) in
  let f2 := (js "danmaku_emo_dist_ep7.csv", csvText []) in
  sameContent (@ingest digitsHost (@ingest digitsHost emptyStore f1) f2)
              (@ingest digitsHost (@ingest digitsHost emptyStore f2) f1).
Proof.
  apply (@different_slots_commute digitsHost emptyStore
           (js "danmaku_emo_dist_ep6.csv", csvText [emoDistRow "laugh" 1])
           (js "danmaku_emo_dist_ep7.csv", csvText [])).
  vm_compute. intros [H _]. discriminate H.
Defined.

Lemma emo_rows_witness :
  let store := @ingestAll digitsHost
                 [(js "danmaku_emo_dist_ep1.csv",
                   csvText [emoDistRow "laugh" (1 # 4); emoDistRow "joy" (1 # 4);
                            emoDistRow "laugh" (1 # 2)])] in
  let row := @emoRow digitsHost store TABLE_KEYS.DANMU_EMO EMO_ORDER (js "1") in
  exists r,
    @distCompareData digitsHost store [js "1"] emo_danmaku 5 = Returned r
    /\ dc_keys r = EMO_ORDER
    /\ Obj.get (js "ep") row = Some (VStr (js "1"))
    /\ (forall k, In k EMO_ORDER ->
          Obj.get k row
          = Some (VNum (@lastRatio digitsHost (js "emo") k
                          (distOf store (js "1") (distTableKey emo_danmaku)))))
    /\ (forall k, Obj.get k row <> None ->
          In k (js "episode" :: js "ep" :: EMO_ORDER)).
Proof.
  intros store row.
  destruct (@emo_rows digitsHost store [js "1"] emo_danmaku 5 0 row (js "1")
              eq_refl) as (r & R & H).
  exists r. split; [exact R|]. apply H; [|reflexivity].
  assert (R' : Returned r = Returned r) by reflexivity.
  rewrite <- R in R' at 1. vm_compute in R'. injection R' as <-.
  vm_compute. reflexivity.
Defined.

Lemma named_tags_have_highest_mean_witness :
  let eps := [js "1"; js "2"] in
  numLe (@tagMean digitsHost tieStore eps TABLE_KEYS.DANMU_FUNC (js "b"))
        (@tagMean digitsHost tieStore eps TABLE_KEYS.DANMU_FUNC (js "a"))
  /\ @tagMean digitsHost tieStore eps TABLE_KEYS.DANMU_FUNC (js "a")
     = round64 (15 # 100)
  /\ @tagMean digitsHost tieStore eps TABLE_KEYS.DANMU_FUNC (js "b")
     = round64 (15 # 100).
Proof.
  intros eps. split; [|split; vm_compute; reflexivity].
  eapply (@named_tags_have_highest_mean digitsHost tieStore eps func_danmaku 3
            _ (js "a") (js "b")).
  - reflexivity.
  - vm_compute. reflexivity.
  - vm_compute. repeat (first [left; reflexivity | right]).
  - vm_compute. discriminate.
  - vm_compute. intros H.
    repeat (destruct H as [H|H]; [discriminate H|]). exact H.
  - vm_compute. discriminate.
Defined.

Lemma func_keys_witness :
  (exists r,
     @distCompareData digitsHost scenarioStore [js "1"; js "2"] func_danmaku 3
     = Returned r
     /\ exists topKeys,
         dc_keys r = topKeys ++ [js "other"]
         /\ NoDup topKeys
         /\ (length topKeys <= 12)%nat
         /\ (forall k, In k topKeys ->
               @tagRatios digitsHost scenarioStore [js "1"; js "2"]
                          (distTableKey func_danmaku) k <> [])
         /\ ((length topKeys < 3)%nat ->
             forall k, @tagRatios digitsHost scenarioStore [js "1"; js "2"]
                                  (distTableKey func_danmaku) k <> [] ->
                       In k topKeys)
         /\ (forall k, In k (dc_keys r) ->
               Obj.get k (dc_colors r) = Some (funcColor k)))
  /\ @distCompareData digitsHost
       (funcDistStore [ ("1"%string, [funcDistRow "greet" (1 # 2);
                                      funcDistRow "constructor" (1 # 2)]) ])
       [js "1"] func_danmaku 3
     = Thrown.
Proof.
  split.
  - destruct (@func_keys digitsHost scenarioStore [js "1"; js "2"]
                func_danmaku 3 eq_refl) as [_ H].
    eexists. split; [vm_compute; reflexivity|].
    apply H; [vm_compute; reflexivity | vm_compute; discriminate].
  - apply (@func_keys digitsHost
             (funcDistStore [ ("1"%string, [funcDistRow "greet" (1 # 2);
                                            funcDistRow "constructor" (1 # 2)]) ])
             [js "1"] func_danmaku 3 eq_refl).
    exists (js "constructor"). split.
    + left; reflexivity.
    + vm_compute. discriminate.
Defined.

Lemma batch_clean_witness :
  let files := [plainUpload "danmaku_emo_dist_ep1.csv"
                            (csvText [emoDistRow "laugh" 1])] in
  @ingestFiles digitsHost files freshDash
  = {| dash_store := fold_left (@ingest digitsHost)
                               (batchFiles files)
                               (batchStart files freshDash);
       dash_failed := false |}.
Proof.
  apply (@batch_clean digitsHost
           [plainUpload "danmaku_emo_dist_ep1.csv"
                        (csvText [emoDistRow "laugh" 1])] freshDash).
  - discriminate.
  - reflexivity.
  - vm_compute. reflexivity.
Defined.

Lemma batch_stops_at_first_failure_witness :
  let files := [plainUpload "danmaku_emo_dist_ep1.csv" (csvText []);
                plainUpload "danmaku_emo_dist_ep2.csv" brokenText;
                plainUpload "danmaku_emo_dist_ep3.csv" (csvText [])] in
  @ingestFiles digitsHost files freshDash
  = {| dash_store := fold_left (@ingest digitsHost)
                               [(js "danmaku_emo_dist_ep1.csv", csvText [])]
                               (batchStart files freshDash);
       dash_failed := true |}.
Proof.
  apply (@batch_stops_at_first_failure digitsHost
           [plainUpload "danmaku_emo_dist_ep1.csv" (csvText []);
            plainUpload "danmaku_emo_dist_ep2.csv" brokenText;
            plainUpload "danmaku_emo_dist_ep3.csv" (csvText [])]
           freshDash
           [(js "danmaku_emo_dist_ep1.csv", csvText [])]
           [(js "danmaku_emo_dist_ep3.csv", csvText [])]
           (js "danmaku_emo_dist_ep2.csv", brokenText)).
  - reflexivity.
  - vm_compute. reflexivity.
  - vm_compute. reflexivity.
  - vm_compute. reflexivity.
Defined.

Lemma batch_invariants_witness :
  let files := [plainUpload "danmaku_emo_dist_ep1.csv" (csvText []);
                plainUpload "danmaku_emo_dist_ep2.csv" brokenText] in
  let d := @ingestFiles digitsHost files freshDash in
  (exists done rest,
      batchFiles files = done ++ rest
      /\ dash_store d = fold_left (@ingest digitsHost) done
                                  (batchStart files freshDash)
      /\ (dash_failed d = false -> rest = []))
  /\ loadedFiles (dash_store d)
     = loadedFiles (dash_store freshDash) ++ map uploadMeta files
  /\ (@episodesDerived digitsHost (dash_store freshDash) ->
      @episodesDerived digitsHost (dash_store d)).
Proof.
  apply (@batch_invariants digitsHost
           [plainUpload "danmaku_emo_dist_ep1.csv" (csvText []);
            plainUpload "danmaku_emo_dist_ep2.csv" brokenText] freshDash).
  discriminate.
Defined.

Lemma archive_entries_by_base_name_witness :
  let e := {| entry_name := js "out/ep1/danmaku_emo_dist_ep1.csv";
              entry_dir := false; entry_text := csvText [] |} in
  exists e' pre,
    In e' [e] /\ entry_dir e' = false /\ entry_text e' = csvText []
    /\ js "danmaku_emo_dist_ep1.csv" = entryBaseName e'
    /\ entry_name e' = pre ++ js "danmaku_emo_dist_ep1.csv"
    /\ (pre = [] \/ exists folders, pre = folders ++ [47%Z])
    /\ ~ In 47%Z (js "danmaku_emo_dist_ep1.csv")
    /\ hasDataExtension (js "danmaku_emo_dist_ep1.csv") = true.
Proof.
  apply (@archive_entries_by_base_name
           [ {| entry_name := js "out/ep1/danmaku_emo_dist_ep1.csv";
                entry_dir := false; entry_text := csvText [] |} ]
           (js "danmaku_emo_dist_ep1.csv") (csvText [])).
  vm_compute. left; reflexivity.
Defined.

Lemma suggested_file_fills_gap_witness :
  let name := distTableKey emo_danmaku ++ js "_ep" ++ js "7" ++ js ".csv" in
  let st' := @ingest digitsHost emptyStore
               (name, csvText [emoDistRow "laugh" 1]) in
  distFilePattern emo_danmaku = distTableKey emo_danmaku ++ js "_ep{ep}.csv"
  /\ detectTableKey name
     = Some {| det_key := distTableKey emo_danmaku; det_ep := Some (js "7") |}
  /\ In (js "7") (episodes st')
  /\ ~ In (js "7") (missingEps (distCompareMissing st' [js "7"] emo_danmaku)).
Proof.
  apply (@suggested_file_fills_gap digitsHost emptyStore emo_danmaku (js "7")
           (csvText [emoDistRow "laugh" 1]) [emoDistRow "laugh" 1] [js "7"]).
  - split; [discriminate | reflexivity].
  - reflexivity.
  - discriminate.
Defined.

Lemma comparePeaks_spec_witness :
  let combined := [ [ (js "minute", VNum 1); (js "ep1", VNum (- (3))) ];
                    [ (js "minute", VNum 2); (js "ep1", VNum (- (1))) ] ] in
  let peaks := @comparePeaks digitsHost true true combined [js "1"] in
  map cp_epKey peaks = map epKeyOf [js "1"]
  /\ (forall pk, In pk peaks ->
        exists pre r post,
          combined = pre ++ r :: post
          /\ cp_minute pk = @minuteOf digitsHost r
          /\ cp_value pk = @seriesValue digitsHost (cp_epKey pk) r
          /\ (forall x, In x pre ->
                @seriesValue digitsHost (cp_epKey pk) x < cp_value pk)
          /\ (forall x, In x post ->
                @seriesValue digitsHost (cp_epKey pk) x <= cp_value pk))
  /\ (forall ep p, In ep [js "1"] ->
        @computePeak digitsHost combined (epKeyOf ep) = Some p ->
        In {| cp_epKey := epKeyOf ep; cp_minute := peak_minute p;
              cp_value := peak_value p |} peaks).
Proof.
  apply (@comparePeaks_spec digitsHost
           [ [ (js "minute", VNum 1); (js "ep1", VNum (- (3))) ];
             [ (js "minute", VNum 2); (js "ep1", VNum (- (1))) ] ] [js "1"]).
  discriminate.
Defined.
